(** * CVXConsensus: the consensus S-DRS iteration engine

    A shallow embedding of [cvxconsensus/consensus.py] (functions
    [w_project], [run_worker] and [consensus]) and the properties of
    its projection step, history windows, stopping rule and error paths,
    together with the list comparison of [tests/base_test.py].

    Python dictionaries keyed by variable id are [gmap]s; numpy arrays
    and Python floats are kept abstract behind the [Numpy] interface, so
    every general theorem holds for any interpretation of the arithmetic,
    IEEE doubles included.  Concrete runs are evaluated over exact
    rationals.

    A loop over the keys of a dictionary visits them in the order of
    [map_to_list] rather than in insertion order; the order only decides
    how the flattened residuals are laid out before their norm is taken.

    The worker processes are modelled by what they send: between two
    round barriers each worker is a deterministic function of the
    messages it has received.  A worker whose code raises is a dead
    process: a [recv] on its pipe raises [EOFError], except on the last
    pipe created, whose far end the coordinator still holds, where it
    blocks.  A solve that reports an infeasible or unbounded problem
    leaves [None] in the variables, on which the worker dies. *)

From Stdlib Require Import ZArith QArith Qreduction.
From stdpp Require Import gmap list fin_maps.

Set Default Proof Using "Type".
Set Warnings "-clear-no-such-hyp".
Local Open Scope Z_scope.

(** ** Numeric interface (numpy and Python floats) *)

Class Numpy := {
  float : Type;                         (* Python float / numpy.float64 *)
  ndarray : Type;                       (* numpy.ndarray *)
  shape : Type;                         (* tuple of dimensions *)
  f0 : float;                           (* 0.0 *)
  f1 : float;                           (* 1.0 *)
  f2 : float;                           (* the literal 2 *)
  fadd : float -> float -> float;
  fmul : float -> float -> float;
  fle : float -> float -> bool;         (* a <= b *)
  zeros : shape -> ndarray;             (* np.zeros(shape) *)
  shape_of : ndarray -> shape;          (* a.shape *)
  of_float : float -> ndarray;          (* a float used as array operand *)
  add : ndarray -> ndarray -> ndarray;  (* a + b *)
  sub : ndarray -> ndarray -> ndarray;  (* a - b *)
  scale : float -> ndarray -> ndarray;  (* c * a *)
  divide : ndarray -> float -> ndarray; (* a / c *)
  sum_axis0 : list ndarray -> ndarray;  (* np.sum(np.array(l), axis = 0) *)
  flatten : ndarray -> list float;      (* a.flatten(order = "C") *)
  norm2 : list float -> float           (* np.linalg.norm(v, ord = 2) *)
}.

(** Variable ids ([var.id]) are Python integers: keys have type [Z]. *)

(** ** Exceptions and results *)

Inductive exn : Type :=
  | ValueError_m_accel          (* "m_accel must be a non-negative integer." *)
  | ValueError_negative_dim     (* np.zeros of a negative length *)
  | ValueError_concatenate      (* np.concatenate of an empty sequence *)
  | ValueError_unpack           (* tuple unpacking of an empty zip *)
  | RuntimeError_inf_unb        (* "Proximal problem is infeasible or unbounded" *)
  | RuntimeError_mismatch       (* "Mismatch between variable IDs ..." *)
  | KeyError
  | IndexError
  | TypeError_none              (* arithmetic on a value that is None *)
  | EOFError.                   (* recv on a pipe whose other end is closed *)

(** A computation returns, raises, or blocks forever on a [recv] from a
    worker that has died while the far end of its pipe is still open. *)
Inductive res (A : Type) : Type :=
  | Ok (a : A)
  | Raise (e : exn)
  | Block.
Arguments Ok {A} a.
Arguments Raise {A} e.
Arguments Block {A}.

#[global] Instance res_bind : MBind res := fun A B f m =>
  match m with
  | Ok a => f a
  | Raise e => Raise e
  | Block => Block
  end.

Fixpoint foldM {A B} (f : A -> B -> res A) (l : list B) (a : A) : res A :=
  match l with
  | [] => Ok a
  | b :: l' => a' ← f a b; foldM f l' a'
  end.

(** [d[key]] on a plain dict. *)
Definition getitem {V} (d : gmap Z V) (k : Z) : res V :=
  match d !! k with
  | Some v => Ok v
  | None => Raise KeyError
  end.

(** ** Solver statuses ([cvxpy.settings])

    The status strings of cvxpy and its list [INF_OR_UNB]: the two
    infeasible and the two unbounded statuses. *)

Inductive status : Type :=
  | OPTIMAL
  | OPTIMAL_INACCURATE
  | INFEASIBLE
  | INFEASIBLE_INACCURATE
  | UNBOUNDED
  | UNBOUNDED_INACCURATE
  | SOLVER_ERROR.

(** [status in s.INF_OR_UNB] *)
Definition INF_OR_UNB (st : status) : bool :=
  match st with
  | INFEASIBLE | INFEASIBLE_INACCURATE | UNBOUNDED | UNBOUNDED_INACCURATE => true
  | _ => false
  end.

(** ** The projection step [w_project] *)

Section Projection.
Context `{NP : Numpy}.

#[local] Instance float_inhabited : Inhabited float := populate f0.

(** State of the two [defaultdict]s: [ys_diff] and [var_cnt]. *)
Definition accum : Type := gmap Z (list ndarray) * gmap Z float.

(** Body of [for key in y_half.keys()]. *)
Definition key_step (s_half : gmap Z ndarray) (acc : accum)
    (kv : Z * ndarray) : res accum :=
  sv ← getitem s_half kv.1;
  Ok (<[kv.1 := (acc.1 !!! kv.1) ++ [sub kv.2 sv]]> acc.1,
      <[kv.1 := fadd (acc.2 !!! kv.1) f1]> acc.2).

(** Body of [for status, y_half in prox_res]. *)
Definition node_step (s_half : gmap Z ndarray) (acc : accum)
    (r : status * gmap Z ndarray) : res accum :=
  if INF_OR_UNB r.1 then Raise RuntimeError_inf_unb
  else foldM (key_step s_half) (map_to_list r.2) acc.

(** Body of [for key in s_half.keys()]: the pair
    [(mat_term[key], z_new[key])]. *)
Definition project_key (acc : accum) (k : Z) (sv : ndarray)
    : ndarray * ndarray :=
  let ys_sum := sum_axis0 (acc.1 !!! k) in
  let mt := divide ys_sum (fadd f1 (acc.2 !!! k)) in
  (mt, sub (add sv ys_sum) (scale (acc.2 !!! k) mt)).

Definition w_project (prox_res : list (status * gmap Z ndarray))
    (s_half : gmap Z ndarray) : res (gmap Z ndarray * gmap Z ndarray) :=
  acc ← foldM (node_step s_half) prox_res (∅, ∅);
  if decide (dom s_half = dom acc.1) then
    let both := map_imap (fun k sv => Some (project_key acc k sv)) s_half in
    Ok (fst <$> both, snd <$> both)
  else Raise RuntimeError_mismatch.

(** *** Specification-side vocabulary *)

(** The differences [y_half_i[key] - s_half[key]] over the nodes that
    hold [key], in node order. *)
Definition diffs_of (k : Z) (sv : ndarray)
    (prox_res : list (status * gmap Z ndarray)) : list ndarray :=
  omap (fun r => (fun yv => sub yv sv) <$> (r.2 !! k)) prox_res.

(** The float reached by adding [1.0] to [0.0] [n] times. *)
Definition float_of_count (n : nat) : float :=
  Nat.iter n (fun c => fadd c f1) f0.

(** Union of the key sets reported by the workers. *)
Definition reported_keys (prox_res : list (status * gmap Z ndarray))
    : gset Z :=
  ⋃ ((fun r => dom r.2) <$> prox_res).

End Projection.

(** ** Workers ([prox_step], [run_worker]) *)

Section Model.
Context `{NP : Numpy}.

(** The parameters attached to one variable of a node: the value of the
    variable [x] ([None] until it is first assigned) and of the
    parameters [z] and [y].  The step size [rho] is only read by the
    local solver and is part of it here. *)
Record vrec : Type := {
  var_x : option ndarray;
  var_z : ndarray;
  var_y : ndarray
}.

(** Local state of [run_worker]: [v] and the AA-II history [y_diff]. *)
Record worker : Type := {
  w_v : gmap Z vrec;
  w_y_diff : list (gmap Z ndarray)
}.

(** The external collaborators of the engine.
    - [solve i k v] is [prox.solve(...)] of node [i] at round [k] on the
      parameter values [v]: the status and the value left in each
      variable.
    - [aa_weights] is imported from [cvxconsensus.acceleration], whose
      file at hand does not define it; the engine only indexes its
      result. *)
Class External : Type := {
  solve : nat -> nat -> gmap Z vrec -> status * (Z -> ndarray);
  aa_weights : list (list (gmap Z ndarray)) -> list float
}.
Context `{EX : External}.

(** [vmap] of [prox_step]: a problem is given by the shapes of its
    variables. *)
Definition prox_step (p : gmap Z shape) : gmap Z vrec :=
  (fun sh => {| var_x := None; var_z := zeros sh; var_y := zeros sh |}) <$> p.

(** [l[j]] on a list or array, for [j >= 0]. *)
Definition index {A} (l : list A) (j : nat) : res A :=
  match l !! j with
  | Some a => Ok a
  | None => Raise IndexError
  end.

(** [np.concatenate(parts)] *)
Definition concatenate (parts : list (list float)) : res (list float) :=
  match parts with
  | [] => Raise ValueError_concatenate
  | _ => Ok (concat parts)
  end.

(** [for key in d.keys(): body] *)
Definition for_keys {V A} (d : gmap Z V) (body : A -> Z -> res A) (a : A)
    : res A :=
  foldM body (map_to_list d).*1 a.

(** Lines 109-112: [x_half] and the half-step message
    [(prox.status, y_half)], as computed from the values that the solve
    left in the variables. *)
Definition half_step (i k : nat) (w : worker)
    : (status * gmap Z ndarray) * gmap Z ndarray :=
  let '(st, xs) := solve i k (w_v w) in
  let x_half := map_imap (fun key _ => Some (xs key)) (w_v w) in
  let y_half :=
    map_imap (fun key r => Some (sub (scale f2 (xs key)) (var_y r))) (w_v w) in
  ((st, y_half), x_half).

(** Lines 108-115.  After a solve that reports an infeasible or unbounded
    problem every [x.value] is [None], and [2*x_half[key]] at line 112
    raises [TypeError] at the first key: a worker that has a variable
    dies before it sends. *)
Definition worker_half (i k : nat) (w : worker)
    : res ((status * gmap Z ndarray) * gmap Z ndarray) :=
  if decide (INF_OR_UNB (solve i k (w_v w)).1 = true ∧ dom (w_v w) ≠ ∅)
  then Raise TypeError_none
  else Ok (half_step i k w).

(** What the coordinator is to receive from node [i] at line 213,
    together with the state of the worker that sent it. *)
Definition gather_step (k i : nat) (w : worker)
    : res (worker * ((status * gmap Z ndarray) * gmap Z ndarray)) :=
  h ← worker_half i k w; Ok (w, h).

(** Lines 155-157 (and 125-127): the [w^(k+1)] parameters of one key. *)
Definition update_xz (mat_term z_new : gmap Z ndarray) (key : Z) (r : vrec)
    : res (ndarray * vrec) :=
  let s_half := var_z r in
  mt ← getitem mat_term key;
  let x := add s_half mt in
  zn ← getitem z_new key;
  Ok (x, {| var_x := Some x; var_z := zn; var_y := var_y r |}).

(** Lines 152-166: the branch without acceleration.  Returns the new
    [v] and the residual [y_res] that is sent. *)
Definition worker_plain (mat_term z_new x_half : gmap Z ndarray)
    (w : worker) : res (worker * list float) :=
  '(v, y_res) ← for_keys (w_v w) (fun '(v, y_res) key =>
      r ← getitem v key;
      '(x, r') ← update_xz mat_term z_new key r;
      xh ← getitem x_half key;
      let r'' := {| var_x := var_x r'; var_z := var_z r';
                    var_y := add (var_y r') (sub x xh) |} in
      let res := sub xh x in
      Ok (<[key := r'']> v, y_res ++ [flatten res])) (w_v w, []);
  y_res ← concatenate y_res;
  Ok ({| w_v := v; w_y_diff := w_y_diff w |}, y_res).

(** Lines 138-139: append and evict the oldest entry. *)
Definition push_window {A} (m_k : nat) (d : A) (hist : list A) : list A :=
  let hist' := hist ++ [d] in
  if decide (m_k + 1 < length hist')%nat then drop 1 hist' else hist'.

(** Lines 119-142: first part of the accelerated branch.  Returns the
    new state and the message [(y_diff, y_res)]. *)
Definition worker_accel_send (m_accel k : nat)
    (mat_term z_new x_half : gmap Z ndarray) (w : worker)
    : res (worker * (list (gmap Z ndarray) * list float)) :=
  let m_k := (m_accel `min` k)%nat in
  '(v, diff, y_res) ← for_keys (w_v w) (fun '(v, diff, y_res) key =>
      r ← getitem v key;
      '(x, r') ← update_xz mat_term z_new key r;
      xh ← getitem x_half key;
      let d := sub xh x in
      Ok (<[key := r']> v, <[key := d]> diff, y_res ++ [flatten d]))
    (w_v w, ∅, []);
  y_res ← concatenate y_res;
  let y_diff := push_window m_k diff (w_y_diff w) in
  Ok ({| w_v := v; w_y_diff := y_diff |}, (y_diff, y_res)).

(** Lines 147-149 (and 255-257): the weighted sum of the window at one
    key. *)
Definition weighted (m_k : nat) (alpha : list float)
    (hist : list (gmap Z ndarray)) (key : Z) : res ndarray :=
  d0 ← index hist 0;
  a0 ← getitem d0 key;
  foldM (fun val j =>
      a ← index alpha j;
      d ← index hist j;
      dk ← getitem d key;
      Ok (add val (scale a dk)))
    (seq 0 (m_k + 1)) (zeros (shape_of a0)).

(** Lines 143-150: second part of the accelerated branch. *)
Definition worker_accel_recv (m_accel k : nat) (alpha : list float)
    (w : worker) : res worker :=
  let m_k := (m_accel `min` k)%nat in
  v ← for_keys (w_v w) (fun v key =>
      r ← getitem v key;
      y_val ← weighted m_k alpha (w_y_diff w) key;
      Ok (<[key := {| var_x := var_x r; var_z := var_z r;
                      var_y := y_val |}]> v)) (w_v w);
  Ok {| w_v := v; w_y_diff := w_y_diff w |}.

(** ** The coordinator ([consensus]) *)

(** Coordinator variables that change during the loop. *)
Record coord : Type := {
  c_z : gmap Z ndarray;
  c_s : gmap Z ndarray;
  c_k : nat;
  c_resid : list float;
  c_s_diff : list (gmap Z ndarray)
}.

(** The whole system between two rounds: the coordinator and, for each
    pipe, the worker behind it ([None] once that process has died on an
    exception). *)
Record world : Type := {
  co : coord;
  nodes : list (option worker)
}.

(** Arguments of [consensus] that are fixed during the loop. *)
Record params : Type := {
  var_all : gmap Z shape;
  max_iter : Z;
  eps_stop : float;
  anderson : bool;
  m_accel : nat
}.

(** [[pipe.recv() for pipe in pipes]], where what arrives on pipe [i]
    is computed by [step i] from the worker behind it.  A worker that is
    dead, or dies before it sends, leaves its end of the pipe closed.
    The coordinator then gets [EOFError] from [recv], unless it holds
    the far end itself: that is so for the last pipe created, whose far
    end is still bound to the name [remote] of line 192, and there the
    coordinator blocks. *)
Fixpoint recv_all {A B} (step : nat -> A -> res B) (i : nat)
    (ws : list (option A)) : res (list B) :=
  match ws with
  | [] => Ok []
  | o :: ws' =>
      match (match o with Some w => step i w | None => Block end) with
      | Ok b => bs ← recv_all step (S i) ws'; Ok (b :: bs)
      | _ => match ws' with [] => Block | _ :: _ => Raise EOFError end
      end
  end.

(** What each worker does after the last message of a round: a worker
    that raises dies silently. *)
Definition settle {A} (step : A -> res A) (ws : list (option A))
    : list (option A) :=
  (fun o => match o with
            | Some w => match step w with Ok w' => Some w' | _ => None end
            | None => None
            end) <$> ws.

(** [resid[k] = value] on an array. *)
Definition setitem {A} (l : list A) (j : nat) (a : A) : res (list A) :=
  if decide (j < length l)%nat then Ok (<[j := a]> l) else Raise IndexError.

(** [s[key]] on the [defaultdict(float)]. *)
Definition s_get (s : gmap Z ndarray) (key : Z) : ndarray :=
  default (of_float f0) (s !! key).

(** Line 216: the baseline handed to the projection. *)
Definition projection_baseline (c : coord) : gmap Z ndarray := c_z c.

(** Lines 260-275: the rest of a round without acceleration. *)
Definition round_plain (P : params) (c : coord) (z_new mat_term : gmap Z ndarray)
    (halves : list (worker * gmap Z ndarray)) : res world :=
  let z := c_z c in
  let k := c_k c in
  '(s, s_res) ← for_keys (var_all P) (fun '(s, s_res) key =>
      zn ← getitem z_new key;
      zo ← getitem z key;
      let s' := <[key := add (s_get s key) (sub zn zo)]> s in
      let res := sub zo zn in
      Ok (s', s_res ++ [flatten res])) (c_s c, []);
  s_res ← concatenate s_res;
  sent ← recv_all (fun _ '(w, x_half) => worker_plain mat_term z_new x_half w)
            0 (Some <$> halves);
  v_res ← concatenate (sent.*2 ++ [s_res]);
  resid ← setitem (c_resid c) k (norm2 v_res);
  Ok {| co := {| c_z := z_new; c_s := s; c_k := S k; c_resid := resid;
                 c_s_diff := c_s_diff c |};
        nodes := Some <$> sent.*1 |}.

(** Lines 222-258: the rest of a round with acceleration. *)
Definition round_accel (P : params) (c : coord) (z_new mat_term : gmap Z ndarray)
    (halves : list (worker * gmap Z ndarray)) : res world :=
  let z := c_z c in
  let k := c_k c in
  let m_k := (m_accel P `min` k)%nat in
  y_hist ← recv_all (fun _ '(w, x_half) =>
              worker_accel_send (m_accel P) k mat_term z_new x_half w)
            0 (Some <$> halves);
  _ ← (match y_hist with [] => Raise ValueError_unpack | _ => Ok () end);
  let y_diffs := y_hist.*2.*1 in
  let v_res := y_hist.*2.*2 in
  '(diff, s_res) ← for_keys (var_all P) (fun '(diff, s_res) key =>
      zo ← getitem z key;
      zn ← getitem z_new key;
      let d := sub zo zn in
      Ok (<[key := d]> diff, s_res ++ [flatten d])) (∅, []);
  s_res ← concatenate s_res;
  let s_diff := push_window m_k diff (c_s_diff c) in
  v_res ← concatenate (v_res ++ [s_res]);
  resid ← setitem (c_resid c) k (norm2 v_res);
  let alpha := aa_weights (y_diffs ++ [s_diff]) in
  s ← for_keys (var_all P) (fun s key =>
      s_val ← weighted m_k alpha s_diff key;
      Ok (<[key := s_val]> s)) (c_s c);
  Ok {| co := {| c_z := z_new; c_s := s; c_k := S k; c_resid := resid;
                 c_s_diff := s_diff |};
        nodes := settle (worker_accel_recv (m_accel P) k alpha) (Some <$> y_hist.*1) |}.

(** Lines 212-276: one pass through the body of the loop, up to the
    assignment [z = z_new; k = k + 1]. *)
Definition round (P : params) (wd : world) : res world :=
  let c := co wd in
  halves ← recv_all (gather_step (c_k c)) 0 (nodes wd);
  let prox_res := (fun h => h.2.1) <$> halves in
  '(mat_term, z_new) ← w_project prox_res (projection_baseline c);
  let halves' := (fun h => (h.1, h.2.2)) <$> halves in
  if anderson P then round_accel P c z_new mat_term halves'
  else round_plain P c z_new mat_term halves'.

(** Line 280: [k >= max_iter or resid[k-1] <= eps_stop*resid[0]]. *)
Definition finished (P : params) (c : coord) : res bool :=
  if decide (max_iter P ≤ Z.of_nat (c_k c)) then Ok true
  else
    rk ← index (c_resid c) (c_k c - 1)%nat;
    r0 ← index (c_resid c) 0;
    Ok (fle rk (fmul (eps_stop P) r0)).

(** The [while not finished] loop.  [None] only when the fuel runs out. *)
Fixpoint loop (fuel : nat) (P : params) (wd : world) : option (res world) :=
  match round P wd with
  | Ok wd' =>
      match finished P (co wd') with
      | Ok true => Some (Ok wd')
      | Ok false =>
          match fuel with
          | O => None
          | S fuel' => loop fuel' P wd'
          end
      | Raise e => Some (Raise e)
      | Block => Some Block
      end
  | Raise e => Some (Raise e)
  | Block => Some Block
  end.

(** The returned dictionary, but for the wall-clock [solve_time]. *)
Record result : Type := {
  zvals : gmap Z ndarray;
  residuals : list float;
  num_iters : nat
}.

(** What the coordinator has done to a worker process: [Started] is a
    process that it has not terminated, whether that process still runs
    or has died on an exception of its own. *)
Inductive proc : Type :=
  | Started
  | Terminated.

(** How a call of [consensus] ends, and the processes it leaves. *)
Inductive outcome : Type :=
  | Returned (r : result)
  | Raised (e : exn)
  | Blocked
  | OutOfFuel.

(** Line 181: later problems overwrite earlier entries of the same id. *)
Definition all_variables (p_list : list (gmap Z shape)) : gmap Z shape :=
  foldl (fun acc p => p ∪ acc) ∅ p_list.

Definition initial_world (p_list : list (gmap Z shape)) (max_iter : Z)
    : world :=
  {| co := {| c_z := zeros <$> all_variables p_list;
              c_s := ∅;
              c_k := 0;
              c_resid := replicate (Z.to_nat max_iter) f0;
              c_s_diff := [] |};
     nodes := (fun p => Some {| w_v := prox_step p; w_y_diff := [] |})
                <$> p_list |}.

Definition run_params (p_list : list (gmap Z shape)) (max_iter : Z)
    (eps_stop : float) (anderson : bool) (m_accel : Z) : params :=
  {| var_all := all_variables p_list; max_iter := max_iter;
     eps_stop := eps_stop; anderson := anderson;
     m_accel := Z.to_nat m_accel |}.

(** [consensus(p_list, max_iter, eps_stop, anderson, m_accel)].  The
    step sizes only reach the local solver. *)
Definition consensus (p_list : list (gmap Z shape)) (max_iter : Z)
    (eps_stop : float) (anderson : bool) (m_accel : Z)
    : outcome * list proc :=
  if decide (m_accel < 0) then (Raised ValueError_m_accel, [])
  else
    let procs := replicate (length p_list) Started in
    if decide (max_iter < 0) then (Raised ValueError_negative_dim, procs)
    else
      let P := run_params p_list max_iter eps_stop anderson m_accel in
      match loop (Z.to_nat max_iter) P (initial_world p_list max_iter) with
      | Some (Ok wd) =>
          let k := c_k (co wd) in
          (Returned {| zvals := c_z (co wd);
                       residuals := take k (c_resid (co wd));
                       num_iters := k |},
           replicate (length p_list) Terminated)
      | Some (Raise e) => (Raised e, procs)
      | Some Block => (Blocked, procs)
      | None => (OutOfFuel, procs)
      end.

(** *** Vocabulary for the statements *)

(** The system after [n] passes through the body of the loop. *)
Fixpoint after_rounds (n : nat) (P : params) (wd : world) : res world :=
  match n with
  | O => Ok wd
  | S n' => wd' ← round P wd; after_rounds n' P wd'
  end.

(** The dual value [y] that node [i] holds for [key]. *)
Definition dual_of (wd : world) (i : nat) (key : Z) : option ndarray :=
  match nodes wd !! i with
  | Some (Some w) => var_y <$> w_v w !! key
  | _ => None
  end.

(** The history of node [i]. *)
Definition window_of (wd : world) (i : nat) : option (list (gmap Z ndarray)) :=
  match nodes wd !! i with
  | Some (Some w) => Some (w_y_diff w)
  | _ => None
  end.

(** Length of a history window at the start of round [k]. *)
Definition window_len (m k : nat) : nat :=
  match k with
  | O => O
  | S j => (m `min` j + 1)%nat
  end.

(** The windows as they stand when round [k] starts. *)
Definition windows_at (m k : nat) (wd : world) : Prop :=
  c_k (co wd) = k ∧
  length (c_s_diff (co wd)) = window_len m k ∧
  ∀ i hist, window_of wd i = Some hist → length hist = window_len m k.

(** The workers as [consensus] starts them. *)
Definition initial_workers (p_list : list (gmap Z shape)) : list worker :=
  (fun p => {| w_v := prox_step p; w_y_diff := [] |}) <$> p_list.

(** The test of line 280, on the recorded residuals, once [n] rounds
    are done. *)
Definition stops_at (P : params) (resid : list float) (n : nat) : Prop :=
  max_iter P ≤ Z.of_nat n ∨
  ∃ rn r0, resid !! (n - 1)%nat = Some rn ∧ resid !! 0%nat = Some r0 ∧
           fle rn (fmul (eps_stop P) r0) = true.

(** The mixer returns one weight per snapshot of the common window. *)
Definition mixer_sized : Prop :=
  ∀ (windows : list (list (gmap Z ndarray))) (n : nat),
    Forall (fun w => length w = n) windows →
    windows ≠ [] →
    length (aa_weights windows) = n.

(** No local solve reports an infeasible or unbounded problem. *)
Definition solves_fine : Prop :=
  ∀ i k v, INF_OR_UNB (solve i k v).1 = false.

(** *** Well-formed states of the loop *)

Definition window_wf (P : params) (k : nat) (keys : gset Z)
    (hist : list (gmap Z ndarray)) : Prop :=
  anderson P = true →
  length hist = window_len (m_accel P) k ∧
  Forall (fun d => dom d = keys) hist.

(** The key sets of the nodes: none is empty, each lies within the
    coordinator's, and together they cover it. *)
Definition doms_wf (P : params) (doms : list (gset Z)) : Prop :=
  doms ≠ [] ∧
  Forall (fun D => D ≠ ∅ ∧ D ⊆ dom (var_all P)) doms ∧
  dom (var_all P) ⊆ ⋃ doms.

(** All workers are alive, node [i] holds the keys [doms !! i], the
    coordinator holds all keys, and the windows have their length. *)
Definition world_wf (P : params) (doms : list (gset Z)) (wd : world) : Prop :=
  dom (c_z (co wd)) = dom (var_all P) ∧
  window_wf P (c_k (co wd)) (dom (var_all P)) (c_s_diff (co wd)) ∧
  ∃ ws, nodes wd = Some <$> ws ∧
        (fun w => dom (w_v w)) <$> ws = doms ∧
        Forall (fun w => window_wf P (c_k (co wd)) (dom (w_v w)) (w_y_diff w)) ws.
End Model.

(** ** An exact interpretation, for concrete runs

    Floats are rationals kept in lowest terms and every array is
    zero-dimensional.  The Euclidean norm is rounded down to sixteen
    decimal places.  The interpretation only serves to run the engine on
    concrete inputs; the general theorems do not depend on it. *)

Module Exact.
Definition qadd (a b : Q) : Q := Qred (Qplus a b).
Definition qsub (a b : Q) : Q := Qred (Qminus a b).
Definition qmul (a b : Q) : Q := Qred (Qmult a b).
Definition qdiv (a b : Q) : Q := Qred (Qdiv a b).

Definition qnorm2 (v : list Q) : Q :=
  let sq := foldl (fun acc x => qadd acc (qmul x x)) 0%Q v in
  Qred (Qmake (Z.sqrt (Qnum sq * 10 ^ 32 / Zpos (Qden sq))) (10 ^ 16)).

#[export] Instance numpy_Q : Numpy := {|
  float := Q;
  ndarray := Q;
  shape := unit;
  f0 := 0%Q;
  f1 := 1%Q;
  f2 := 2%Q;
  fadd := qadd;
  fmul := qmul;
  fle := Qle_bool;
  zeros := fun _ => 0%Q;
  shape_of := fun _ => tt;
  of_float := fun c => c;
  add := qadd;
  sub := qsub;
  scale := qmul;
  divide := qdiv;
  sum_axis0 := foldl qadd 0%Q;
  flatten := fun a => [a];
  norm2 := qnorm2
|}.

(** The minimiser of [(x - a)^2 + (1/2)(x - y)^2], i.e. the proximal
    step of the objective [(x - a)^2] with step size [rho = 1]. *)
Definition prox_quadratic (a y : Q) : Q :=
  qdiv (qadd (qmul 2 a) y) 3.

(** A mixer that puts all the weight on the newest snapshot: one
    feasible point of the weight problem, and the only one when the
    window has a single entry. *)
Definition newest_only (windows : list (list (gmap Z Q))) : list Q :=
  match windows with
  | w :: _ =>
      match length w with
      | O => []
      | S n => replicate n 0%Q ++ [1%Q]
      end
  | [] => []
  end.

(** Node [i] minimises [(x - a_i)^2] over each of its variables, [a_i]
    being entry [i] of [targets], and reports the status [st]. *)
Definition quadratics (st : status) (targets : list Q) : External := {|
  solve := fun i _ v =>
    (st, fun key => prox_quadratic (nth i targets 0%Q)
                      (from_option var_y 0%Q (v !! key)));
  aa_weights := newest_only
|}.

(** One scalar variable with id 1. *)
Definition one_var : gmap Z unit := {[ 1 := tt ]}.

(** Two nodes report the same key: half-steps 3 and 5 against the
    baseline 1. *)
Definition shared_reports : list (status * gmap Z Q) :=
  [(OPTIMAL, {[ 1 := 3%Q ]}); (OPTIMAL, {[ 1 := 5%Q ]})].
Definition shared_baseline : gmap Z Q := {[ 1 := 1%Q ]}.

(** Two nodes that hold one key each of a coordinator tracking both. *)
Definition split_reports : list (status * gmap Z Q) :=
  [(OPTIMAL, {[ 1 := 1%Q ]}); (OPTIMAL, {[ 2 := 1%Q ]})].
Definition split_baseline : gmap Z Q := {[ 1 := 0%Q; 2 := 0%Q ]}.

(** A single report that misses key 2. *)
Definition short_reports : list (status * gmap Z Q) :=
  [(OPTIMAL, {[ 1 := 1%Q ]})].

(** One node minimising [(x - 3)^2]. *)
Definition one_node : External := quadratics OPTIMAL [3%Q].

(** Two nodes minimising [(x - 3)^2] and [(x - 6)^2] over the same
    variable; every value of the first round is an integer. *)
Definition two_nodes : External := quadratics OPTIMAL [3%Q; 6%Q].

(** The same two nodes with a solver that reports infeasibility. *)
Definition two_nodes_infeasible : External :=
  quadratics INFEASIBLE [3%Q; 6%Q].

(** The default tolerance [1e-6]. *)
Definition eps_default : Q := (1 # 1000000)%Q.

(** The value of a computation that returned. *)
Definition returned {A} (fallback : A) (r : res A) : A :=
  match r with
  | Ok a => a
  | _ => fallback
  end.

Definition is_ok {A} (r : res A) : bool :=
  match r with
  | Ok _ => true
  | _ => false
  end.

(** One node, acceleration on, after round 0. *)
Definition lone_params : params := run_params [one_var] 2 eps_default true 0.
Definition lone_start : world := initial_world [one_var] 2.
Definition lone_round0 : world :=
  returned lone_start (round (EX := one_node) lone_params lone_start).

(** The same run after round 1, and the reports that the coordinator
    gathered in that round. *)
Definition lone_round1 : world :=
  returned lone_start (round (EX := one_node) lone_params lone_round0).
Definition lone_halves1
    : list (worker * ((status * gmap Z Q) * gmap Z Q)) :=
  returned []
    (recv_all (gather_step (EX := one_node) (c_k (co lone_round0))) 0
       (nodes lone_round0)).
Definition lone_reports1 : list (status * gmap Z Q) :=
  (fun h => h.2.1) <$> lone_halves1.

(** Two nodes without acceleration, after rounds 0 and 1. *)
Definition pair_params : params :=
  run_params [one_var; one_var] 3 eps_default false 5.
Definition pair_start : world := initial_world [one_var; one_var] 3.

(** Two nodes with acceleration and [m_accel = 1], after rounds 0 to 2. *)
Definition accel_params : params :=
  run_params [one_var; one_var] 5 eps_default true 1.
Definition accel_start : world := initial_world [one_var; one_var] 5.
Definition accel_round2 : world :=
  returned accel_start
    (after_rounds (EX := two_nodes) 3 accel_params accel_start).

(** The first round with [m_accel = 0], with and without acceleration. *)
Definition first_start : world := initial_world [one_var; one_var] 1.
Definition first_accel : world :=
  returned first_start
    (round (EX := two_nodes)
       (run_params [one_var; one_var] 1 eps_default true 0) first_start).
Definition first_plain : world :=
  returned first_start
    (round (EX := two_nodes)
       (run_params [one_var; one_var] 1 eps_default false 0) first_start).
End Exact.

(** ** Further vocabulary *)

Section Further.
Context `{NP : Numpy} `{EX : !External}.

(** The record that lines 155-160 leave for one key: [x = z + mat_term],
    [z = z_new] and [y = y + (x - x_half)]. *)
Definition plain_update (r : vrec) (mt zn xh : ndarray) : vrec :=
  let x := add (var_z r) mt in
  {| var_x := Some x; var_z := zn; var_y := add (var_y r) (sub x xh) |}.

(** The record that lines 125-127 leave for one key. *)
Definition accel_update (r : vrec) (mt zn : ndarray) : vrec :=
  {| var_x := Some (add (var_z r) mt); var_z := zn; var_y := var_y r |}.


(** Whether a call of [consensus] returned, and what. *)
Definition has_returned (o : outcome * list proc) : bool :=
  match o.1 with
  | Returned _ => true
  | _ => false
  end.

Definition result_of (fallback : result) (o : outcome * list proc) : result :=
  match o.1 with
  | Returned r => r
  | _ => fallback
  end.

(** The worker behind pipe [i], when it is alive. *)
Definition is_alive (wd : world) (i : nat) : bool :=
  match nodes wd !! i with
  | Some (Some _) => true
  | _ => false
  end.

Definition node_at (fallback : worker) (wd : world) (i : nat) : worker :=
  match nodes wd !! i with
  | Some (Some w) => w
  | _ => fallback
  end.

(** The workers that are alive, in node order. *)
Definition live_nodes (wd : world) : list worker := omap id (nodes wd).

Definition all_alive (wd : world) : bool :=
  forallb (fun o : option worker =>
             match o with Some _ => true | None => false end) (nodes wd).
End Further.

(** ** The test helpers ([tests/base_test.py])

    [almost places a b] stands for [unittest]'s [assertAlmostEqual] not
    raising, and [flatten_F] for [np.asarray(mat).flatten('F').tolist()]. *)

Section TestHelpers.
Context `{NP : Numpy}.
Variable almost : nat -> float -> float -> bool.
Variable flatten_F : ndarray -> list float.

(** What the helpers are called with: a scalar, a matrix or array, or a
    plain list. *)
Inductive items : Type :=
  | Scalar (x : float)
  | Matrix (mat : ndarray)
  | Items (l : list float).

(** How a test method ends. *)
Inductive verdict : Type :=
  | Passed
  | AssertionError (i : nat)   (* raised by [assertAlmostEqual] at index [i] *)
  | Errored (e : exn).

Definition mat_to_list (mat : items) : items :=
  match mat with
  | Matrix m => Items (flatten_F m)
  | _ => mat
  end.

(** Lines 27-34: a scalar becomes a one-element list. *)
Definition as_list (a : items) : list float :=
  match a with
  | Scalar x => [x]
  | _ =>
      match mat_to_list a with
      | Items l => l
      | _ => []
      end
  end.

(** Lines 35-36: [for i in range(i0, i0 + n)]. *)
Fixpoint items_loop (places : nat) (a b : list float) (i0 n : nat) : verdict :=
  match n with
  | O => Passed
  | S n' =>
      match a !! i0, b !! i0 with
      | Some x, Some y =>
          if almost places x y then items_loop places a b (S i0) n'
          else AssertionError i0
      | _, _ => Errored IndexError
      end
  end.

Definition assertItemsAlmostEqual (a b : items) (places : nat) : verdict :=
  let a := as_list a in
  let b := as_list b in
  items_loop places a b 0 (length a).
End TestHelpers.

Module ExactMore.
Import Exact.

(** The reports of [shared_reports] with the status [SOLVER_ERROR]. *)
Definition failed_reports : list (status * gmap Z Q) :=
  [(SOLVER_ERROR, {[ 1 := 3%Q ]}); (OPTIMAL_INACCURATE, {[ 1 := 5%Q ]})].

(** A worker with the single variable 1 in its initial state, one
    message of the coordinator, and what the accelerated branch makes of
    them with the weight 1. *)
Definition lone_worker : worker (NP := numpy_Q) :=
  {| w_v := prox_step one_var; w_y_diff := [] |}.
Definition lone_mat_term : gmap Z Q := {[ 1 := 2%Q ]}.
Definition lone_z_new : gmap Z Q := {[ 1 := 3%Q ]}.
Definition lone_x_half : gmap Z Q := {[ 1 := 1%Q ]}.
Definition lone_sent : worker * (list (gmap Z Q) * list Q) :=
  returned (lone_worker, ([], []))
    (worker_accel_send 0 0 lone_mat_term lone_z_new lone_x_half lone_worker).
Definition lone_mixed : worker :=
  returned lone_worker (worker_accel_recv 0 0 [1%Q] lone_sent.1).

(** The record of a variable before the first round. *)
Definition fresh_record : vrec (NP := numpy_Q) :=
  {| var_x := None; var_z := 0%Q; var_y := 0%Q |}.

(** Two nodes whose solver reports infeasibility from round 1 on, and
    their state after round 0. *)
Definition failing_later : External := {|
  solve := fun i k v =>
    (match k with O => OPTIMAL | S _ => INFEASIBLE end,
     fun key => prox_quadratic (nth i [3%Q; 6%Q] 0%Q)
                  (from_option var_y 0%Q (v !! key)));
  aa_weights := newest_only
|}.
Definition late_round0 : world :=
  returned pair_start
    (after_rounds (EX := failing_later) 1 pair_params pair_start).
Definition late_node0 : worker := node_at lone_worker late_round0 0.

(** A problem without variables. *)
Definition no_var : gmap Z unit := ∅.

(** A run of two nodes without acceleration, and its result. *)
Definition pair_run : outcome * list proc :=
  consensus (EX := two_nodes) [one_var; one_var] 3 eps_default false 5.
Definition no_result : result (NP := numpy_Q) :=
  {| zvals := ∅; residuals := []; num_iters := 0 |}.
Definition pair_result : result := result_of no_result pair_run.

End ExactMore.

(** * Properties *)

(** ** The result monad *)

Lemma bind_Ok {A B} (m : res A) (f : A → res B) b :
  m ≫= f = Ok b ↔ ∃ a, m = Ok a ∧ f a = Ok b.
Proof.
  destruct m; cbn; split; try done; try (by intros (? & ? & ?)); eauto.
  by intros (? & [= <-] & ?).
Qed.

Lemma bind_of_Ok {A B} (a : A) (f : A → res B) : Ok a ≫= f = f a.
Proof. done. Qed.

Lemma bind_of_Raise {A B} e (f : A → res B) : Raise e ≫= f = Raise e.
Proof. done. Qed.

Lemma foldM_cons {A B} (f : A → B → res A) b l a :
  foldM f (b :: l) a = f a b ≫= foldM f l.
Proof. done. Qed.

(** ** The projection step *)

Section ProjectionFacts.
Context `{NP : Numpy}.
#[local] Existing Instance float_inhabited.

Implicit Types (s_half : gmap Z ndarray) (acc : accum).
Implicit Types (prox_res : list (status * gmap Z ndarray)).

Lemma getitem_ok {V} (d : gmap Z V) k v : getitem d k = Ok v ↔ d !! k = Some v.
Proof. unfold getitem. destruct (d !! k); split; congruence. Qed.

Lemma key_step_cases s_half acc kv :
  (∃ sv, s_half !! kv.1 = Some sv ∧
     key_step s_half acc kv =
       Ok (<[kv.1 := (acc.1 !!! kv.1) ++ [sub kv.2 sv]]> acc.1,
           <[kv.1 := fadd (acc.2 !!! kv.1) f1]> acc.2)) ∨
  (s_half !! kv.1 = None ∧ key_step s_half acc kv = Raise KeyError).
Proof.
  unfold key_step, getitem. destruct (s_half !! kv.1) as [sv|]; [left|right].
  - by exists sv.
  - done.
Qed.

(** The inner loop over the keys of one report. *)
Lemma key_fold_spec s_half (l : list (Z * ndarray)) acc acc' :
  NoDup l.*1 →
  foldM (key_step s_half) l acc = Ok acc' →
  (∀ k, k ∈ l.*1 → is_Some (s_half !! k)) ∧
  (∀ k, acc'.1 !! k =
        match (list_to_map l : gmap Z ndarray) !! k with
        | Some yv => (fun sv => acc.1 !!! k ++ [sub yv sv]) <$> s_half !! k
        | None => acc.1 !! k
        end) ∧
  (∀ k, acc'.2 !! k =
        match (list_to_map l : gmap Z ndarray) !! k with
        | Some _ => Some (fadd (acc.2 !!! k) f1)
        | None => acc.2 !! k
        end).
Proof.
  revert acc. induction l as [|[k0 v0] l IH]; intros acc Hnd Hf.
  - injection Hf as <-. split_and!; [set_solver | done | done].
  - rewrite fmap_cons in Hnd. apply NoDup_cons in Hnd as [Hk0 Hnd].
    rewrite foldM_cons in Hf. apply bind_Ok in Hf as (acc1 & Hstep & Hf).
    destruct (key_step_cases s_half acc (k0, v0)) as [(sv & Hs & Hst)|[_ Hst]];
      rewrite Hst in Hstep; [|done].
    injection Hstep as <-. cbn [fst snd] in *.
    destruct (IH _ Hnd Hf) as (Hin & H1 & H2). clear IH.
    assert ((list_to_map l : gmap Z ndarray) !! k0 = None) as Hl0
      by by apply not_elem_of_list_to_map_1.
    split_and!.
    + intros k. rewrite fmap_cons. intros [->|?]%elem_of_cons; eauto.
    + intros k. rewrite H1. cbn [fst snd list_to_map foldr uncurry].
      destruct (decide (k = k0)) as [->|Hne].
      * rewrite Hl0, !lookup_insert_eq, Hs. done.
      * rewrite (lookup_insert_ne _ k0 k) by done.
        rewrite (lookup_total_insert_ne _ k0 k) by done.
        rewrite lookup_insert_ne by done. done.
    + intros k. rewrite H2. cbn [fst snd list_to_map foldr uncurry].
      destruct (decide (k = k0)) as [->|Hne].
      * rewrite Hl0, !lookup_insert_eq. done.
      * rewrite (lookup_insert_ne _ k0 k) by done.
        rewrite (lookup_total_insert_ne _ k0 k) by done.
        rewrite lookup_insert_ne by done. done.
Qed.

Lemma key_fold_result s_half (l : list (Z * ndarray)) acc :
  match foldM (key_step s_half) l acc with
  | Ok _ => True
  | Raise e => e = KeyError ∧ ∃ k, k ∈ l.*1 ∧ s_half !! k = None
  | Block => False
  end.
Proof.
  revert acc. induction l as [|[k0 v0] l IH]; intros acc; [done|].
  rewrite foldM_cons.
  destruct (key_step_cases s_half acc (k0, v0)) as [(sv & Hs & ->)|[Hs ->]].
  - rewrite bind_of_Ok.
    match goal with |- context [foldM _ l ?a] => specialize (IH a) end.
    destruct (foldM _ l _); [done| |done].
    destruct IH as (-> & k & ? & ?). split; [done|]. exists k.
    rewrite fmap_cons. set_solver.
  - rewrite bind_of_Raise. split; [done|]. exists k0.
    rewrite fmap_cons. set_solver.
Qed.

Lemma reported_keys_cons r prox_res :
  reported_keys (r :: prox_res) = dom r.2 ∪ reported_keys prox_res.
Proof. done. Qed.

Lemma diffs_of_cons k sv r prox_res :
  diffs_of k sv (r :: prox_res) =
    match r.2 !! k with
    | Some yv => sub yv sv :: diffs_of k sv prox_res
    | None => diffs_of k sv prox_res
    end.
Proof. unfold diffs_of. cbn. by destruct (r.2 !! k). Qed.

(** The outer loop over the reports. *)
Lemma node_fold_spec s_half prox_res acc acc' :
  foldM (node_step s_half) prox_res acc = Ok acc' →
  Forall (fun r => INF_OR_UNB r.1 = false) prox_res ∧
  reported_keys prox_res ⊆ dom s_half ∧
  dom acc'.1 = dom acc.1 ∪ reported_keys prox_res ∧
  (∀ k sv, s_half !! k = Some sv →
     acc'.1 !!! k = acc.1 !!! k ++ diffs_of k sv prox_res ∧
     acc'.2 !!! k = Nat.iter (length (diffs_of k sv prox_res))
                      (fun c => fadd c f1) (acc.2 !!! k)).
Proof.
  revert acc. induction prox_res as [|[st y] l IH]; intros acc Hf.
  - cbn [foldM] in Hf. injection Hf as <-. unfold reported_keys. cbn.
    split_and!; [done | set_solver | set_solver |].
    intros k sv _. by rewrite app_nil_r.
  - rewrite foldM_cons in Hf. apply bind_Ok in Hf as (acc1 & Hk & Hf).
    unfold node_step in Hk. cbn [fst snd] in Hk.
    destruct (INF_OR_UNB st) eqn:Hst; [done|].
    apply key_fold_spec in Hk as (Hin & H1 & H2);
      [|apply NoDup_fst_map_to_list].
    setoid_rewrite list_to_map_to_list in H1.
    setoid_rewrite list_to_map_to_list in H2.
    destruct (IH _ Hf) as (Hall & Hsub & Hdom & Hval). clear IH.
    assert (dom y ⊆ dom s_half) as Hy.
    { intros k [yv Hyv]%elem_of_dom. apply elem_of_dom, Hin.
      apply list_elem_of_fmap. exists (k, yv). split; [done|].
      by apply elem_of_map_to_list. }
    assert (dom acc1.1 = dom acc.1 ∪ dom y) as Hd1.
    { apply set_eq. intros k. rewrite elem_of_union, !elem_of_dom, H1.
      destruct (y !! k) as [yv|] eqn:Hyk.
      - assert (is_Some (s_half !! k)) as [sv ->].
        { apply elem_of_dom, Hy, elem_of_dom. eauto. }
        simpl. split; eauto.
      - split; [eauto|]. intros [?|[? ?]]; done. }
    split_and!.
    + constructor; done.
    + rewrite reported_keys_cons. set_solver.
    + rewrite reported_keys_cons, Hdom, Hd1. set_solver.
    + intros k sv Hs. destruct (Hval k sv Hs) as [-> ->].
      rewrite diffs_of_cons. cbn [snd].
      rewrite !lookup_total_alt, H1, H2, Hs.
      destruct (y !! k) as [yv|]; cbn [fmap option_fmap option_map default].
      * unfold id. rewrite <-!lookup_total_alt, <-app_assoc. split; [done|].
        cbn [length]. by rewrite Nat.iter_succ_r.
      * done.
Qed.

Lemma node_fold_result s_half prox_res acc :
  match foldM (node_step s_half) prox_res acc with
  | Ok _ => True
  | Raise e =>
      (e = KeyError ∧ ¬ reported_keys prox_res ⊆ dom s_half) ∨
      (e = RuntimeError_inf_unb ∧ Exists (fun r => INF_OR_UNB r.1 = true) prox_res)
  | Block => False
  end.
Proof.
  revert acc. induction prox_res as [|[st y] l IH]; intros acc; [done|].
  rewrite foldM_cons.
  assert (node_step s_half acc (st, y) =
          if INF_OR_UNB st then Raise RuntimeError_inf_unb
          else foldM (key_step s_half) (map_to_list y) acc) as -> by done.
  destruct (INF_OR_UNB st) eqn:Hst.
  { rewrite bind_of_Raise. right. split; [done|]. by constructor. }
  pose proof (key_fold_result s_half (map_to_list y) acc) as Hk.
  destruct (foldM (key_step s_half) (map_to_list y) acc) as [acc1|e|];
    [| |done].
  - rewrite bind_of_Ok. specialize (IH acc1).
    destruct (foldM _ l acc1); [done| |done].
    destruct IH as [[-> Hn]|[-> Hex]]; [left|right]; split; try done.
    + rewrite reported_keys_cons. set_solver.
    + by constructor 2.
  - rewrite bind_of_Raise.
    destruct Hk as (-> & k & Hin & Hnone). left. split; [done|].
    intros Hsub. apply not_elem_of_dom in Hnone. apply Hnone, Hsub.
    rewrite reported_keys_cons, elem_of_union. left.
    apply list_elem_of_fmap in Hin as ([k' yv] & -> & Hin).
    apply elem_of_map_to_list in Hin. apply elem_of_dom. eauto.
Qed.

(** When the projection returns, and what it returns. *)
Lemma w_project_ok prox_res s_half mat_term z_new :
  w_project prox_res s_half = Ok (mat_term, z_new) →
  Forall (fun r => INF_OR_UNB r.1 = false) prox_res ∧
  reported_keys prox_res = dom s_half ∧
  dom mat_term = dom s_half ∧ dom z_new = dom s_half.
Proof.
  unfold w_project. intros Hw. apply bind_Ok in Hw as (acc & Hf & Hw).
  apply node_fold_spec in Hf as (Hall & Hsub & Hdom & _).
  destruct (decide _) as [Heq|]; [|done]. injection Hw as <- <-.
  rewrite !dom_fmap_L.
  assert (dom (map_imap (fun k sv => Some (project_key acc k sv)) s_half)
          = dom s_half) as ->.
  { apply set_eq. intros k. rewrite !elem_of_dom, map_lookup_imap.
    destruct (s_half !! k); simpl; split; intros [? ?]; eauto; done. }
  split_and!; try done. rewrite Heq, Hdom. set_solver.
Qed.

Lemma w_project_returns prox_res s_half :
  Forall (fun r => INF_OR_UNB r.1 = false) prox_res →
  reported_keys prox_res = dom s_half →
  ∃ mat_term z_new, w_project prox_res s_half = Ok (mat_term, z_new).
Proof.
  intros Hall Heq. unfold w_project.
  pose proof (node_fold_result s_half prox_res (∅, ∅)) as Hr.
  destruct (foldM _ prox_res _) as [acc|e|] eqn:Hf; [| |done].
  - apply node_fold_spec in Hf as (_ & _ & Hdom & _). rewrite bind_of_Ok.
    rewrite decide_True; [eauto|]. rewrite Hdom, Heq. set_solver.
  - destruct Hr as [[_ Hn]|[_ Hex]].
    + destruct Hn. by rewrite Heq.
    + apply Exists_exists in Hex as (r & Hin & Hbad).
      rewrite Forall_forall in Hall. specialize (Hall r Hin). congruence.
Qed.
(** The two values that the projection computes at a key. *)
Lemma w_project_at prox_res s_half mat_term z_new (k : Z) (sv : ndarray) :
  w_project prox_res s_half = Ok (mat_term, z_new) →
  s_half !! k = Some sv →
  mat_term !! k
    = Some (divide (sum_axis0 (diffs_of k sv prox_res))
              (fadd f1 (float_of_count (length (diffs_of k sv prox_res))))) ∧
  z_new !! k
    = Some (sub (add sv (sum_axis0 (diffs_of k sv prox_res)))
              (scale (float_of_count (length (diffs_of k sv prox_res)))
                 (divide (sum_axis0 (diffs_of k sv prox_res))
                    (fadd f1
                       (float_of_count (length (diffs_of k sv prox_res))))))).
Proof.
  intros Hw Hs. unfold w_project in Hw.
  apply bind_Ok in Hw as (acc & Hf & Hw).
  apply node_fold_spec in Hf as (_ & _ & _ & Hval).
  destruct (Hval k sv Hs) as [Hd Hc]. clear Hval.
  change ((∅, ∅).1 : gmap Z (list ndarray)) with (∅ : gmap Z (list ndarray)) in Hd.
  change ((∅, ∅).2 : gmap Z float) with (∅ : gmap Z float) in Hc.
  rewrite lookup_total_empty in Hd. rewrite lookup_total_empty in Hc.
  cbn [app] in Hd.
  change (inhabitant : float) with f0 in Hc.
  destruct (decide _); [|done]. injection Hw as <- <-.
  rewrite !lookup_fmap, map_lookup_imap, Hs. cbn.
  unfold project_key. cbn [fst snd]. rewrite Hd, Hc. done.
Qed.
End ProjectionFacts.

Section ProjectionClaims.
Context `{NP : Numpy}.
#[local] Existing Instance float_inhabited.

(** C1.  Whenever the projection step returns, at every key [k] of the
    baseline, with [diffs] the list of [y_half_i[k] - s_half[k]] over the
    nodes that report [k] and [n] their count (as the float reached by
    counting in steps of 1.0), [mat_term[k] = (sum of diffs) / (1 + n)] and
    [z_new[k] = s_half[k] + (sum of diffs) - n * mat_term[k]]. *)
Theorem C1_projection_formula (prox_res : list (status * gmap Z ndarray))
    (s_half mat_term z_new : gmap Z ndarray) (k : Z) (sv : ndarray) :
  w_project prox_res s_half = Ok (mat_term, z_new) →
  s_half !! k = Some sv →
  let diffs := diffs_of k sv prox_res in
  let n := float_of_count (length diffs) in
  let sum_diffs := sum_axis0 diffs in
  mat_term !! k = Some (divide sum_diffs (fadd f1 n)) ∧
  z_new !! k =
    Some (sub (add sv sum_diffs) (scale n (divide sum_diffs (fadd f1 n)))).
Proof.
  intros Hw Hs diffs n sum_diffs. unfold w_project in Hw.
  apply bind_Ok in Hw as (acc & Hf & Hw).
  apply node_fold_spec in Hf as (_ & _ & _ & Hval).
  destruct (Hval k sv Hs) as [Hd Hc]. clear Hval.
  change ((∅, ∅).1 : gmap Z (list ndarray)) with (∅ : gmap Z (list ndarray)) in Hd.
  change ((∅, ∅).2 : gmap Z float) with (∅ : gmap Z float) in Hc.
  rewrite lookup_total_empty in Hd. rewrite lookup_total_empty in Hc.
  cbn [app] in Hd.
  change (inhabitant : float) with f0 in Hc.
  destruct (decide _); [|done]. injection Hw as <- <-.
  rewrite !lookup_fmap, map_lookup_imap, Hs. cbn.
  unfold project_key. cbn [fst snd]. rewrite Hd, Hc. done.
Qed.

(** C5 (as the code has it).  If the union of the key sets reported by the
    workers differs from the key set of the baseline, the projection
    raises and returns nothing: [KeyError] when a worker reports a key the
    coordinator does not track, the mismatch [RuntimeError] when a tracked
    key is reported by no worker, unless an infeasible or unbounded
    status is met first. *)
Theorem C5_union_mismatch_raises (prox_res : list (status * gmap Z ndarray))
    (s_half : gmap Z ndarray) :
  reported_keys prox_res ≠ dom s_half →
  ∃ e, w_project prox_res s_half = Raise e ∧
    ((e = KeyError ∧ ¬ reported_keys prox_res ⊆ dom s_half) ∨
     (e = RuntimeError_mismatch ∧ reported_keys prox_res ⊆ dom s_half) ∨
     (e = RuntimeError_inf_unb ∧
        Exists (fun r => INF_OR_UNB r.1 = true) prox_res)).
Proof.
  intros Hne. unfold w_project.
  pose proof (node_fold_result s_half prox_res (∅, ∅)) as Hr.
  destruct (foldM _ prox_res _) as [acc|e|] eqn:Hf; [| |done].
  - apply node_fold_spec in Hf as (_ & Hsub & Hdom & _).
    rewrite bind_of_Ok, decide_False.
    + exists RuntimeError_mismatch. eauto.
    + rewrite Hdom. cbn [fst]. rewrite dom_empty_L, (left_id_L ∅ (∪)). done.
  - rewrite bind_of_Raise. exists e. split; [done|].
    destruct Hr as [[-> ?]|[-> ?]]; eauto.
Qed.
End ProjectionClaims.

Import Exact.

Lemma C1_projection_formula_witness :
  w_project shared_reports shared_baseline
    = Ok ({[ 1 := 2%Q ]}, {[ 1 := 3%Q ]}) ∧
  (({[ 1 := 2%Q ]} : gmap Z Q) !! 1 = Some (qdiv 6 (qadd 1 2)) ∧
   ({[ 1 := 3%Q ]} : gmap Z Q) !! 1
     = Some (qsub (qadd 1 6) (qmul 2 (qdiv 6 (qadd 1 2))))).
Proof.
  split; [vm_compute; reflexivity|].
  apply (C1_projection_formula (NP := numpy_Q) shared_reports shared_baseline
           {[ 1 := 2%Q ]} {[ 1 := 3%Q ]} 1 1%Q);
    vm_compute; reflexivity.
Defined.

(** C5, as stated, fails: each of the two workers reports a key set that
    differs from the coordinator's, and the projection is computed. *)
Lemma C5_counterexample :
  Forall (fun r => dom r.2 ≠ dom split_baseline) split_reports ∧
  w_project split_reports split_baseline
    = Ok ({[ 1 := (1 # 2)%Q; 2 := (1 # 2)%Q ]},
          {[ 1 := (1 # 2)%Q; 2 := (1 # 2)%Q ]}).
Proof.
  split; [|vm_compute; reflexivity].
  repeat constructor; cbn; intros H; vm_compute in H; discriminate.
Qed.

Lemma C5_union_mismatch_raises_witness :
  reported_keys short_reports ≠ dom split_baseline ∧
  ∃ e, w_project short_reports split_baseline = Raise e ∧
    ((e = KeyError ∧ ¬ reported_keys short_reports ⊆ dom split_baseline) ∨
     (e = RuntimeError_mismatch ∧
        reported_keys short_reports ⊆ dom split_baseline) ∨
     (e = RuntimeError_inf_unb ∧
        Exists (fun r => INF_OR_UNB r.1 = true) short_reports)).
Proof.
  assert (reported_keys short_reports ≠ dom split_baseline) as Hne.
  { intros H. vm_compute in H. discriminate. }
  split; [exact Hne|].
  exact (C5_union_mismatch_raises (NP := numpy_Q) short_reports split_baseline Hne).
Defined.

(** ** Loops over keys and pipes *)

Section Loops.
Context `{NP : Numpy} `{EX : !External}.

Lemma foldM_prefix_inv {A B} (I : list B → A → Prop) (f : A → B → res A)
    l a a' :
  foldM f l a = Ok a' →
  I [] a →
  (∀ pre b post a a1, l = pre ++ b :: post →
     I pre a → f a b = Ok a1 → I (pre ++ [b]) a1) →
  I l a'.
Proof.
  revert I a. induction l as [|b l IH]; intros I a Hf H0 Hstep.
  - cbn in Hf. by injection Hf as <-.
  - rewrite foldM_cons in Hf. apply bind_Ok in Hf as (a1 & Hb & Hf).
    apply (IH (fun pre => I (b :: pre)) a1 Hf).
    + apply (Hstep [] b l a a1); done.
    + intros pre b' post a2 a3 -> Hi Hb'.
      apply (Hstep (b :: pre) b' post a2 a3); done.
Qed.

Lemma foldM_prefix_ok {A B} (I : list B → A → Prop) (f : A → B → res A)
    l a :
  I [] a →
  (∀ pre b post a, l = pre ++ b :: post →
     I pre a → ∃ a1, f a b = Ok a1 ∧ I (pre ++ [b]) a1) →
  ∃ a', foldM f l a = Ok a' ∧ I l a'.
Proof.
  revert I a. induction l as [|b l IH]; intros I a H0 Hstep.
  - by exists a.
  - destruct (Hstep [] b l a) as (a1 & Hb & Hi); [done..|].
    rewrite foldM_cons, Hb, bind_of_Ok.
    apply (IH (fun pre => I (b :: pre)) a1 Hi).
    intros pre b' post a2 -> Hi2.
    apply (Hstep (b :: pre) b' post a2); done.
Qed.

(** The keys visited by [for_keys]. *)
Lemma keys_split {V} (d : gmap Z V) pre key post :
  (map_to_list d).*1 = pre ++ key :: post →
  key ∈ dom d ∧ (key ∉ pre) ∧ (∀ x, x ∈ pre → x ∈ dom d).
Proof.
  intros Hl. pose proof (NoDup_fst_map_to_list d) as Hnd.
  assert (∀ x, x ∈ (map_to_list d).*1 → x ∈ dom d) as Hin.
  { intros x ([x' v] & -> & Hx)%list_elem_of_fmap.
    apply elem_of_map_to_list in Hx. apply elem_of_dom. eauto. }
  rewrite Hl in Hnd, Hin. apply NoDup_app in Hnd as (_ & Hdis & _).
  split_and!.
  - apply Hin. set_solver.
  - intros Hp. apply (Hdis key Hp). set_solver.
  - intros x Hx. apply Hin. set_solver.
Qed.

Lemma keys_dom {V} (d : gmap Z V) :
  list_to_set (map_to_list d).*1 = dom d.
Proof.
  apply set_eq. intros x. rewrite elem_of_list_to_set, elem_of_dom. split.
  - intros ([x' v] & -> & Hx)%list_elem_of_fmap.
    apply elem_of_map_to_list in Hx. eauto.
  - intros [v Hv]. apply list_elem_of_fmap. exists (x, v). split; [done|].
    by apply elem_of_map_to_list.
Qed.

Lemma keys_nonempty {V} (d : gmap Z V) :
  dom d ≠ ∅ → (map_to_list d).*1 ≠ [].
Proof.
  intros Hne Hnil. apply Hne. rewrite <-keys_dom, Hnil. done.
Qed.

Lemma getitem_dom {V} (d : gmap Z V) k :
  k ∈ dom d → ∃ v, getitem d k = Ok v ∧ d !! k = Some v.
Proof.
  intros [v Hv]%elem_of_dom. exists v. split; [|done]. by apply getitem_ok.
Qed.

Lemma index_ok {A} (l : list A) j a : index l j = Ok a ↔ l !! j = Some a.
Proof. unfold index. destruct (l !! j); split; congruence. Qed.

Lemma index_lt {A} (l : list A) j :
  (j < length l)%nat → ∃ a, index l j = Ok a ∧ l !! j = Some a.
Proof.
  intros [a Ha]%lookup_lt_is_Some_2. exists a. split; [|done].
  by apply index_ok.
Qed.

Lemma concatenate_ok parts :
  parts ≠ [] → concatenate parts = Ok (concat parts).
Proof. by destruct parts. Qed.

Lemma setitem_ok {A} (l l' : list A) j a :
  setitem l j a = Ok l' ↔ (j < length l)%nat ∧ l' = <[j := a]> l.
Proof.
  unfold setitem. destruct (decide _); split; try done.
  - by intros [= <-].
  - by intros [_ ->].
  - by intros [? _].
Qed.

Lemma setitem_out {A} (l : list A) j a :
  ¬ (j < length l)%nat → setitem l j a = Raise IndexError.
Proof. unfold setitem. intros ?. by rewrite decide_False. Qed.

(** What arrives on the pipes. *)
Lemma recv_all_inv {A B} (step : nat → A → res B) i ws bs :
  recv_all step i ws = Ok bs →
  length bs = length ws ∧
  ∀ n b, bs !! n = Some b →
    ∃ w, ws !! n = Some (Some w) ∧ step (i + n)%nat w = Ok b.
Proof.
  revert i bs. induction ws as [|[w|] ws IH]; intros i bs Hr; cbn in Hr.
  - injection Hr as <-. done.
  - destruct (step i w) as [b| |] eqn:Hs; [|by destruct ws..].
    apply bind_Ok in Hr as (bs' & Hr & [= <-]).
    destruct (IH _ _ Hr) as [Hlen Hn]. split; [cbn; lia|].
    intros [|n] b' Hb; cbn in Hb.
    + injection Hb as <-. exists w. by rewrite Nat.add_0_r.
    + destruct (Hn n b' Hb) as (w' & ? & ?). exists w'.
      by rewrite Nat.add_succ_r.
  - by destruct ws.
Qed.

Lemma recv_all_ok {A B} (step : nat → A → res B) i ws :
  (∀ n w, ws !! n = Some w → ∃ b, step (i + n)%nat w = Ok b) →
  ∃ bs, recv_all step i (Some <$> ws) = Ok bs.
Proof.
  revert i. induction ws as [|w ws IH]; intros i Hs; [by exists []|].
  destruct (Hs 0%nat w) as [b Hb]; [done|]. rewrite Nat.add_0_r in Hb.
  destruct (IH (S i)) as [bs Hbs].
  { intros n w' Hn. destruct (Hs (S n) w' Hn) as [b' Hb'].
    exists b'. by rewrite Nat.add_succ_r in Hb'. }
  exists (b :: bs). cbn. rewrite Hb. fold (@fmap list _ _ _ (@Some A) ws).
  by rewrite Hbs.
Qed.

(** A worker that is dead, or dies before it sends, ends the gathering:
    in [EOFError], or in a wait without end when it is the last one and
    all the others have sent. *)
Lemma recv_all_dead {A B} (step : nat → A → res B) i ws n o :
  ws !! n = Some o →
  (∀ w, o = Some w → ∀ b, step (i + n)%nat w ≠ Ok b) →
  (recv_all step i ws = Raise EOFError ∨ recv_all step i ws = Block) ∧
  ((S n < length ws)%nat → recv_all step i ws = Raise EOFError) ∧
  ((∀ j, (j < n)%nat →
      ∃ w b, ws !! j = Some (Some w) ∧ step (i + j)%nat w = Ok b) →
   S n = length ws → recv_all step i ws = Block).
Proof.
  revert i n. induction ws as [|o0 ws IH]; intros i n Hn Hf; [done|].
  cbn [recv_all]. destruct n as [|n].
  - cbn in Hn. injection Hn as ->. rewrite Nat.add_0_r in Hf.
    assert (∀ b, (match o with Some w => step i w | None => Block end)
                 ≠ Ok b) as Hno.
    { intros b. destruct o as [w|]; [by apply Hf|done]. }
    destruct (match o with Some w => step i w | None => Block end) as [b| |];
      [by destruct (Hno b)| |].
    all: destruct ws as [|o1 ws]; cbn [length].
    all: split_and!; [by (left + right)|intros; first [done|lia]
                     |intros; first [done|lia]].
  - cbn in Hn. rewrite Nat.add_succ_r in Hf.
    destruct (IH (S i) n Hn Hf) as (Hd & He & Hb).
    assert (ws ≠ []) as Hne by (by destruct ws).
    destruct (match o0 with Some w => step i w | None => Block end)
      as [b| |] eqn:Ho.
    + split_and!.
      * destruct Hd as [-> | ->]; [by left|by right].
      * cbn [length]. intros Hl. rewrite He by lia. done.
      * cbn [length]. intros Hall Hl. rewrite Hb; [done| |lia].
        intros j Hj. destruct (Hall (S j)) as (w & b' & Hw & Hs); [lia|].
        exists w, b'. split; [done|]. by rewrite Nat.add_succ_r in Hs.
    + destruct ws as [|o1 ws]; [done|].
      split_and!; [by left|done|].
      intros Hall _. destruct (Hall 0%nat) as (w & b' & Hw & Hs); [lia|].
      cbn in Hw. injection Hw as ->. rewrite Nat.add_0_r in Hs.
      by rewrite Hs in Ho.
    + destruct ws as [|o1 ws]; [done|].
      split_and!; [by left|done|].
      intros Hall _. destruct (Hall 0%nat) as (w & b' & Hw & Hs); [lia|].
      cbn in Hw. injection Hw as ->. rewrite Nat.add_0_r in Hs.
      by rewrite Hs in Ho.
Qed.

(** The window update. *)
Lemma push_window_length {A} (m k : nat) (d : A) hist :
  length hist = window_len m k →
  length (push_window (m `min` k) d hist) = window_len m (S k).
Proof.
  intros Hl. unfold push_window. rewrite length_app. cbn [length].
  destruct (decide _) as [Hlt|Hge].
  - rewrite length_drop, length_app. cbn [length window_len].
    destruct k as [|j]; cbn [window_len] in Hl; lia.
  - rewrite length_app. cbn [length window_len].
    destruct k as [|j]; cbn [window_len] in Hl; lia.
Qed.

Lemma push_window_evicts {A} (m k : nat) (d : A) hist :
  length hist = window_len m k →
  push_window (m `min` k) d hist
    = drop (if decide (m < k)%nat then 1 else 0) hist ++ [d].
Proof.
  intros Hl. unfold push_window. rewrite length_app. cbn [length].
  destruct k as [|j]; cbn [window_len] in Hl.
  - destruct hist; [|done]. rewrite decide_False by (cbn; lia).
    rewrite (decide_False (P := (m < 0)%nat)) by lia. done.
  - destruct (decide (m < S j)%nat).
    + rewrite decide_True by lia. destruct hist; [cbn in Hl; lia|]. done.
    + rewrite decide_False by lia. done.
Qed.

Lemma push_window_Forall {A} (Q : A → Prop) m_k (d : A) hist :
  Forall Q hist → Q d → Forall Q (push_window m_k d hist).
Proof.
  intros Hh Hd. unfold push_window.
  assert (Forall Q (hist ++ [d])) by (apply Forall_app; auto).
  destruct (decide _); [by apply Forall_drop|done].
Qed.
End Loops.

(** ** One round of a worker *)

Section Workers.
Context `{NP : Numpy} `{EX : !External}.

Implicit Types (mat_term z_new x_half : gmap Z ndarray) (w : worker).

Lemma update_xz_returns mat_term z_new key r :
  key ∈ dom mat_term → key ∈ dom z_new →
  ∃ x r', update_xz mat_term z_new key r = Ok (x, r').
Proof.
  intros (m & Hm & _)%getitem_dom (z & Hz & _)%getitem_dom.
  unfold update_xz. rewrite Hm, bind_of_Ok, Hz, bind_of_Ok. eauto.
Qed.

Lemma dom_insert_in {V} (d : gmap Z V) key v :
  key ∈ dom d → dom (<[key := v]> d) = dom d.
Proof. intros Hk. rewrite dom_insert_L. set_solver. Qed.

Lemma worker_half_dom i k w st y_half x_half :
  half_step i k w = ((st, y_half), x_half) →
  st = (solve i k (w_v w)).1 ∧
  dom y_half = dom (w_v w) ∧ dom x_half = dom (w_v w).
Proof.
  unfold half_step. destruct (solve i k (w_v w)) as [st' xs].
  intros [= <- <- <-]. split; [done|].
  split; apply set_eq; intros key; rewrite !elem_of_dom, map_lookup_imap;
    destruct (w_v w !! key); cbn; split; intros [? ?]; eauto; done.
Qed.

Lemma worker_plain_returns mat_term z_new x_half w :
  dom (w_v w) ≠ ∅ →
  dom (w_v w) ⊆ dom mat_term →
  dom (w_v w) ⊆ dom z_new →
  dom (w_v w) ⊆ dom x_half →
  ∃ w' y_res, worker_plain mat_term z_new x_half w = Ok (w', y_res) ∧
    dom (w_v w') = dom (w_v w) ∧ w_y_diff w' = w_y_diff w.
Proof.
  intros Hne Hm Hz Hx. unfold worker_plain, for_keys.
  match goal with |- context [foldM ?ff ?ll ?aa] =>
    destruct (foldM_prefix_ok
      (fun pre (a : gmap Z vrec * list (list float)) =>
         dom a.1 = dom (w_v w) ∧ length a.2 = length pre) ff ll aa)
      as ([v y_res] & -> & Hv & Hlen)
  end.
  - done.
  - intros pre key post [v y_res] Hl [Hv Hlen]. cbn [fst snd] in *.
    apply keys_split in Hl as (Hk & _ & _).
    destruct (getitem_dom v key) as (r & -> & _); [by rewrite Hv|].
    rewrite bind_of_Ok.
    destruct (update_xz_returns mat_term z_new key r) as (x & r' & ->);
      [auto..|].
    rewrite bind_of_Ok.
    destruct (getitem_dom x_half key) as (xh & -> & _); [auto|].
    rewrite bind_of_Ok. eexists. split; [done|]. cbn [fst snd]. split.
    + rewrite dom_insert_in; [done|]. by rewrite Hv.
    + rewrite !length_app. cbn. lia.
  - cbn [fst snd] in *. rewrite bind_of_Ok.
    rewrite concatenate_ok, bind_of_Ok.
    + eexists _, _. split; [done|]. done.
    + intros ->. apply keys_nonempty in Hne. destruct (_.*1); done.
Qed.

Lemma worker_accel_send_returns m k mat_term z_new x_half w :
  dom (w_v w) ≠ ∅ →
  dom (w_v w) ⊆ dom mat_term →
  dom (w_v w) ⊆ dom z_new →
  dom (w_v w) ⊆ dom x_half →
  ∃ w' diff y_res,
    worker_accel_send m k mat_term z_new x_half w
      = Ok (w', (w_y_diff w', y_res)) ∧
    dom (w_v w') = dom (w_v w) ∧ dom diff = dom (w_v w) ∧
    w_y_diff w' = push_window (m `min` k) diff (w_y_diff w).
Proof.
  intros Hne Hm Hz Hx. unfold worker_accel_send, for_keys.
  match goal with |- context [foldM ?ff ?ll ?aa] =>
    destruct (foldM_prefix_ok
      (fun pre (a : gmap Z vrec * gmap Z ndarray * list (list float)) =>
         dom a.1.1 = dom (w_v w) ∧ dom a.1.2 = list_to_set pre ∧
         length a.2 = length pre) ff ll aa)
      as ([[v diff] y_res] & -> & Hv & Hd & Hlen)
  end.
  - cbn. rewrite dom_empty_L. done.
  - intros pre key post [[v diff] y_res] Hl (Hv & Hd & Hlen).
    cbn [fst snd] in *.
    apply keys_split in Hl as (Hk & _ & _).
    destruct (getitem_dom v key) as (r & -> & _); [by rewrite Hv|].
    rewrite bind_of_Ok.
    destruct (update_xz_returns mat_term z_new key r) as (x & r' & ->);
      [auto..|].
    rewrite bind_of_Ok.
    destruct (getitem_dom x_half key) as (xh & -> & _); [auto|].
    rewrite bind_of_Ok. eexists. split; [done|]. cbn [fst snd]. split_and!.
    + rewrite dom_insert_in; [done|]. by rewrite Hv.
    + rewrite dom_insert_L, Hd, list_to_set_app_L. cbn. set_solver.
    + rewrite !length_app. cbn. lia.
  - cbn [fst snd] in *. rewrite bind_of_Ok.
    rewrite concatenate_ok, bind_of_Ok.
    + exists {| w_v := v;
                w_y_diff := push_window (m `min` k) diff (w_y_diff w) |},
             diff, (concat y_res).
      cbn. split_and!; try done. by rewrite Hd, keys_dom.
    + intros ->. apply keys_nonempty in Hne. destruct (_.*1); done.
Qed.

Lemma worker_accel_send_inv m k mat_term z_new x_half w w' y_diff y_res :
  worker_accel_send m k mat_term z_new x_half w = Ok (w', (y_diff, y_res)) →
  w_y_diff w' = y_diff ∧
  ∃ diff, y_diff = push_window (m `min` k) diff (w_y_diff w).
Proof.
  unfold worker_accel_send. intros H.
  apply bind_Ok in H as ([[v diff] yr] & _ & H).
  apply bind_Ok in H as (yr' & _ & H). injection H as <- <- <-.
  split; [done|]. by exists diff.
Qed.

Lemma weighted_returns m_k alpha (hist : list (gmap Z ndarray)) key :
  length hist = (m_k + 1)%nat →
  Forall (fun d => key ∈ dom d) hist →
  (m_k + 1 ≤ length alpha)%nat →
  ∃ val, weighted m_k alpha hist key = Ok val.
Proof.
  intros Hlen Hall Hal. unfold weighted.
  destruct (index_lt hist 0) as (d0 & -> & Hd0); [lia|]. rewrite bind_of_Ok.
  rewrite Forall_lookup in Hall.
  destruct (getitem_dom d0 key) as (a0 & -> & _); [by eapply Hall|].
  rewrite bind_of_Ok.
  match goal with |- context [foldM ?ff ?ll ?aa] =>
    destruct (foldM_prefix_ok (fun _ (_ : ndarray) => True) ff ll aa)
      as (val & -> & _)
  end; [done| |by eauto].
  intros pre j post val Hl _.
  assert (j < m_k + 1)%nat as Hj.
  { assert (j ∈ seq 0 (m_k + 1)) as Hin by (rewrite Hl; set_solver).
    apply elem_of_seq in Hin. lia. }
  destruct (index_lt alpha j) as (a & -> & _); [lia|]. rewrite bind_of_Ok.
  destruct (index_lt hist j) as (d & -> & Hd); [lia|]. rewrite bind_of_Ok.
  destruct (getitem_dom d key) as (dk & -> & _); [by eapply Hall|].
  rewrite bind_of_Ok. eauto.
Qed.

Lemma worker_accel_recv_returns m k alpha w :
  length (w_y_diff w) = (m `min` k + 1)%nat →
  Forall (fun d => dom d = dom (w_v w)) (w_y_diff w) →
  (m `min` k + 1 ≤ length alpha)%nat →
  ∃ w', worker_accel_recv m k alpha w = Ok w' ∧
    dom (w_v w') = dom (w_v w) ∧ w_y_diff w' = w_y_diff w.
Proof.
  intros Hlen Hall Hal. unfold worker_accel_recv, for_keys.
  match goal with |- context [foldM ?ff ?ll ?aa] =>
    destruct (foldM_prefix_ok
      (fun _ (v : gmap Z vrec) => dom v = dom (w_v w)) ff ll aa)
      as (v & -> & Hv)
  end.
  - done.
  - intros pre key post v Hl Hv.
    apply keys_split in Hl as (Hk & _ & _).
    destruct (getitem_dom v key) as (r & -> & _); [by rewrite Hv|].
    rewrite bind_of_Ok.
    destruct (weighted_returns (m `min` k) alpha (w_y_diff w) key)
      as (val & ->); [done| |done|].
    { eapply Forall_impl; [exact Hall|]. intros d ->. done. }
    rewrite bind_of_Ok. eexists. split; [done|].
    rewrite dom_insert_in; [done|]. by rewrite Hv.
  - rewrite bind_of_Ok. eexists. split; [done|]. done.
Qed.

Lemma worker_accel_recv_inv m k alpha w w' :
  worker_accel_recv m k alpha w = Ok w' → w_y_diff w' = w_y_diff w.
Proof.
  unfold worker_accel_recv. intros H.
  apply bind_Ok in H as (v & _ & H). by injection H as <-.
Qed.
End Workers.

(** ** One round of the whole system *)

Section Rounds.
Context `{NP : Numpy} `{EX : !External}.

Implicit Types (P : params) (c : coord) (wd : world) (doms : list (gset Z)).

Lemma recv_all_Forall2 {A B} (R : A → B → Prop) (step : nat → A → res B)
    i ws :
  (∀ n a, ws !! n = Some a → ∃ b, step (i + n)%nat a = Ok b ∧ R a b) →
  ∃ bs, recv_all step i (Some <$> ws) = Ok bs ∧ Forall2 R ws bs.
Proof.
  revert i. induction ws as [|w ws IH]; intros i Hs.
  - exists []. split; [done|constructor].
  - destruct (Hs 0%nat w) as (b & Hb & HR); [done|].
    rewrite Nat.add_0_r in Hb.
    destruct (IH (S i)) as (bs & Hbs & HF).
    { intros n w' Hn. destruct (Hs (S n) w' Hn) as (b' & Hb' & ?).
      exists b'. by rewrite Nat.add_succ_r in Hb'. }
    exists (b :: bs). split; [|by constructor].
    rewrite fmap_cons. cbn [recv_all]. by rewrite Hb, Hbs.
Qed.

(** A worker sends its half-step unless its solve was infeasible or
    unbounded and it has a variable. *)
Lemma gather_step_ok k i w b :
  gather_step k i w = Ok b →
  b = (w, half_step i k w) ∧
  ¬ (INF_OR_UNB (solve i k (w_v w)).1 = true ∧ dom (w_v w) ≠ ∅).
Proof.
  unfold gather_step, worker_half. destruct (decide _) as [|Hn]; [done|].
  rewrite bind_of_Ok. by intros [= <-].
Qed.

Lemma gather_step_sends k i w :
  ¬ (INF_OR_UNB (solve i k (w_v w)).1 = true ∧ dom (w_v w) ≠ ∅) →
  gather_step k i w = Ok (w, half_step i k w).
Proof.
  intros Hn. unfold gather_step, worker_half. by rewrite decide_False.
Qed.

Lemma gather_step_dies k i w :
  INF_OR_UNB (solve i k (w_v w)).1 = true → dom (w_v w) ≠ ∅ →
  gather_step k i w = Raise TypeError_none.
Proof.
  intros Hs Hd. unfold gather_step, worker_half. by rewrite decide_True.
Qed.

(** The half-steps gathered at the start of a round. *)
Lemma gather_ok k (ws : list worker) :
  solves_fine →
  ∃ halves,
    recv_all (gather_step k) 0 (Some <$> ws)
      = Ok halves ∧
    length halves = length ws ∧
    ∀ n h, halves !! n = Some h →
      ws !! n = Some h.1 ∧ h.2 = half_step n k h.1.
Proof.
  intros Hfine.
  destruct (recv_all_ok (gather_step k) 0 ws) as [halves Hh].
  { intros n w _. eexists. apply gather_step_sends. intros [Hs _].
    by rewrite Hfine in Hs. }
  exists halves. split; [done|].
  apply recv_all_inv in Hh as [Hlen Hn]. rewrite length_fmap in Hlen.
  split; [done|]. intros n h Hnh.
  destruct (Hn n h Hnh) as (w & Hw & [-> _]%gather_step_ok).
  rewrite list_lookup_fmap in Hw. cbn.
  destruct (ws !! n); cbn in Hw; by simplify_eq.
Qed.

Lemma gathered_reports k (ws : list worker) halves :
  length halves = length ws →
  (∀ n h, halves !! n = Some h →
     ws !! n = Some h.1 ∧ h.2 = half_step n k h.1) →
  reported_keys ((fun h => h.2.1) <$> halves)
    = ⋃ ((fun w => dom (w_v w)) <$> ws) ∧
  Forall2 (fun w h' => h'.1 = w ∧ dom h'.2 = dom (w_v w)) ws
    ((fun h => (h.1, h.2.2)) <$> halves) ∧
  (solves_fine →
     Forall (fun r => INF_OR_UNB r.1 = false) ((fun h => h.2.1) <$> halves)).
Proof.
  intros Hlen Hn.
  assert (Forall2 (fun w h => h.1 = w ∧ ∃ n, h.2 = half_step n k w)
            ws halves) as HF.
  { apply Forall2_same_length_lookup. split; [done|].
    intros n w h Hw Hh. destruct (Hn n h Hh) as [Hw' ?].
    split; [congruence|]. exists n. congruence. }
  clear Hlen Hn. induction HF as [|w h ws halves [<- [n Hh]] HF IH].
  - split_and!; [done|constructor|constructor].
  - destruct IH as (IH1 & IH2 & IH3).
    destruct h as [w [[st y_half] x_half]]. cbn [fst snd] in *.
    symmetry in Hh. apply worker_half_dom in Hh as (Hst & Hy & Hx).
    split_and!.
    + rewrite !fmap_cons, reported_keys_cons. cbn [fst snd].
      rewrite IH1, Hy. done.
    + rewrite fmap_cons. constructor; [done|apply IH2].
    + intros Hfine. rewrite fmap_cons. constructor; [|by apply IH3].
      cbn. rewrite Hst. apply Hfine.
Qed.

Lemma doms_nonempty P doms : doms_wf P doms → dom (var_all P) ≠ ∅.
Proof.
  intros (Hne & Hall & _). destruct doms as [|D doms]; [done|].
  apply Forall_cons in Hall as [[HD Hsub] _]. set_solver.
Qed.

Lemma Forall2_fmap_eq {A B C} (f : A → C) (g : B → C) l l' :
  Forall2 (fun a b => g b = f a) l l' → g <$> l' = f <$> l.
Proof. induction 1; [done|]. rewrite !fmap_cons. congruence. Qed.

(** Without acceleration: the round reaches the assignment to
    [resid[k]], and once that is done it completes. *)
Lemma round_plain_shape P doms c z_new mat_term
    (ws : list worker) (halves' : list (worker * gmap Z ndarray)) :
  anderson P = false →
  doms_wf P doms →
  dom (c_z c) = dom (var_all P) →
  dom z_new = dom (var_all P) →
  dom mat_term = dom (var_all P) →
  (fun w => dom (w_v w)) <$> ws = doms →
  Forall2 (fun w h' => h'.1 = w ∧ dom h'.2 = dom (w_v w)) ws halves' →
  ∃ v rest,
    round_plain P c z_new mat_term halves'
      = setitem (c_resid c) (c_k c) v ≫= rest ∧
    ∀ resid, ∃ wd', rest resid = Ok wd' ∧
      world_wf P doms wd' ∧
      c_k (co wd') = S (c_k c) ∧ c_resid (co wd') = resid.
Proof.
  intros Hand Hdoms Hz Hzn Hmt Hws HF. unfold round_plain, for_keys.
  pose proof (doms_nonempty _ _ Hdoms) as Hne.
  match goal with |- context [foldM ?ff ?ll ?aa] =>
    destruct (foldM_prefix_ok
      (fun pre (a : gmap Z ndarray * list (list float)) =>
         length a.2 = length pre) ff ll aa)
      as ([s s_res] & -> & Hlen)
  end.
  { done. }
  { intros pre key post [s s_res] Hl Hlen. cbn [fst snd] in *.
    apply keys_split in Hl as (Hk & _ & _).
    destruct (getitem_dom z_new key) as (zn & -> & _); [by rewrite Hzn|].
    rewrite bind_of_Ok.
    destruct (getitem_dom (c_z c) key) as (zo & -> & _); [by rewrite Hz|].
    rewrite bind_of_Ok. eexists. split; [done|]. cbn.
    rewrite !length_app. cbn. lia. }
  cbn [fst snd] in Hlen. rewrite bind_of_Ok, concatenate_ok, bind_of_Ok.
  2:{ intros ->. apply keys_nonempty in Hne. destruct (_.*1); done. }
  destruct (recv_all_Forall2
    (fun (h' : worker * gmap Z ndarray) (b : worker * list float) =>
       dom (w_v b.1) = dom (w_v h'.1) ∧ w_y_diff b.1 = w_y_diff h'.1)
    (fun _ '(w, x_half) => worker_plain mat_term z_new x_half w) 0 halves')
    as (sent & -> & Hsent).
  { intros n [w x_half] Hn.
    destruct (Forall2_lookup_r _ _ _ _ _ HF Hn) as (w0 & Hw0 & <- & Hx).
    cbn [fst snd] in *.
    assert (dom (w_v w) ∈ doms) as Hin.
    { rewrite <-Hws. apply list_elem_of_fmap. exists w. split; [done|].
      by eapply list_elem_of_lookup_2. }
    destruct Hdoms as (_ & Hall & _). rewrite Forall_forall in Hall.
    destruct (Hall _ Hin) as [Hwne Hsub].
    destruct (worker_plain_returns mat_term z_new x_half w)
      as (w' & y_res & Hw' & ? & ?);
      [done|by rewrite Hmt|by rewrite Hzn|by rewrite Hx|].
    exists (w', y_res). done. }
  rewrite bind_of_Ok, concatenate_ok, bind_of_Ok by (by destruct (sent.*2)).
  eexists _, _. split; [reflexivity|]. intros resid. eexists.
  split; [reflexivity|]. cbn. split; [|done]. split_and!; [done| |].
  - intros Ha. congruence.
  - exists sent.*1. split_and!; [done| |].
    + rewrite <-Hws, <-list_fmap_compose.
      transitivity ((fun h' : worker * gmap Z ndarray => dom (w_v h'.1))
                      <$> halves').
      * apply Forall2_fmap_eq. eapply Forall2_impl; [exact Hsent|].
        intros ?? [? ?]. done.
      * apply Forall2_fmap_eq. eapply Forall2_impl; [exact HF|].
        intros ?? [-> ?]. done.
    + apply Forall_forall. intros ?? Ha. congruence.
Qed.
Lemma settle_Forall2 {A} (R : A → A → Prop) (step : A → res A) (l : list A) :
  (∀ a, a ∈ l → ∃ a', step a = Ok a' ∧ R a a') →
  ∃ l', settle step (Some <$> l) = Some <$> l' ∧ Forall2 R l l'.
Proof.
  induction l as [|a l IH]; intros Hs.
  - exists []. split; [done|constructor].
  - destruct (Hs a) as (a' & Ha & HR); [set_solver|].
    destruct IH as (l' & Hl' & HF); [intros; apply Hs; set_solver|].
    exists (a' :: l'). split; [|by constructor].
    unfold settle in *. rewrite !fmap_cons, Ha, Hl'. done.
Qed.

(** With acceleration: the same, provided the mixer returns enough
    weights for what follows the assignment. *)
Lemma round_accel_shape P doms c z_new mat_term
    (ws : list worker) (halves' : list (worker * gmap Z ndarray)) :
  anderson P = true →
  doms_wf P doms →
  dom (c_z c) = dom (var_all P) →
  dom z_new = dom (var_all P) →
  dom mat_term = dom (var_all P) →
  (fun w => dom (w_v w)) <$> ws = doms →
  Forall2 (fun w h' => h'.1 = w ∧ dom h'.2 = dom (w_v w)) ws halves' →
  window_wf P (c_k c) (dom (var_all P)) (c_s_diff c) →
  Forall (fun w => window_wf P (c_k c) (dom (w_v w)) (w_y_diff w)) ws →
  ∃ v rest,
    round_accel P c z_new mat_term halves'
      = setitem (c_resid c) (c_k c) v ≫= rest ∧
    (mixer_sized →
     ∀ resid, ∃ wd', rest resid = Ok wd' ∧
       world_wf P doms wd' ∧
       c_k (co wd') = S (c_k c) ∧ c_resid (co wd') = resid).
Proof.
  intros Hand Hdoms Hz Hzn Hmt Hws HF Hcw Hww. unfold round_accel, for_keys.
  pose proof (doms_nonempty _ _ Hdoms) as Hne.
  destruct (Hcw Hand) as [Hclen Hcdom].
  set (m := m_accel P) in *. set (k := c_k c) in *.
  destruct (recv_all_Forall2
    (fun (h' : worker * gmap Z ndarray)
         (b : worker * (list (gmap Z ndarray) * list float)) =>
       dom (w_v b.1) = dom (w_v h'.1) ∧ b.2.1 = w_y_diff b.1 ∧
       length (w_y_diff b.1) = window_len m (S k) ∧
       Forall (fun d => dom d = dom (w_v b.1)) (w_y_diff b.1))
    (fun _ '(w, x_half) => worker_accel_send m k mat_term z_new x_half w)
    0 halves')
    as (y_hist & -> & Hhist).
  { intros n [w x_half] Hn.
    destruct (Forall2_lookup_r _ _ _ _ _ HF Hn) as (w0 & Hw0 & <- & Hx).
    cbn [fst snd] in *.
    assert (dom (w_v w) ∈ doms) as Hin.
    { rewrite <-Hws. apply list_elem_of_fmap. exists w. split; [done|].
      by eapply list_elem_of_lookup_2. }
    destruct Hdoms as (_ & Hall & _). rewrite Forall_forall in Hall.
    destruct (Hall _ Hin) as [Hwne Hsub].
    rewrite Forall_forall in Hww.
    destruct (Hww w (list_elem_of_lookup_2 _ _ _ Hw0) Hand) as [Hwl Hwd].
    destruct (worker_accel_send_returns m k mat_term z_new x_half w)
      as (w' & diff & y_res & Hw' & Hv & Hd & Hpush);
      [done|by rewrite Hmt|by rewrite Hzn|by rewrite Hx|].
    exists (w', (w_y_diff w', y_res)). split; [done|]. cbn [fst snd].
    split_and!; [done|done| |].
    - rewrite Hpush. by apply push_window_length.
    - rewrite Hpush, Hv. apply push_window_Forall; [done|done]. }
  rewrite bind_of_Ok.
  assert (y_hist ≠ []) as Hyne.
  { intros ->. apply Forall2_nil_inv_r in Hhist as ->.
    apply Forall2_nil_inv_r in HF as ->.
    destruct Hdoms as (Hd & _). by rewrite <-Hws in Hd. }
  assert ((match y_hist with [] => Raise ValueError_unpack | _ => Ok () end)
          = Ok ()) as -> by (by destruct y_hist).
  rewrite bind_of_Ok.
  match goal with |- context [foldM ?ff ?ll (∅, [])] =>
    destruct (foldM_prefix_ok
      (fun pre (a : gmap Z ndarray * list (list float)) =>
         dom a.1 = list_to_set pre ∧ length a.2 = length pre) ff ll (∅, []))
      as ([diff s_res] & -> & Hd & Hlen)
  end.
  { cbn. by rewrite dom_empty_L. }
  { intros pre key post [diff s_res] Hl [Hd Hlen]. cbn [fst snd] in *.
    apply keys_split in Hl as (Hk & _ & _).
    destruct (getitem_dom (c_z c) key) as (zo & -> & _); [by rewrite Hz|].
    rewrite bind_of_Ok.
    destruct (getitem_dom z_new key) as (zn & -> & _); [by rewrite Hzn|].
    rewrite bind_of_Ok. eexists. split; [done|]. cbn. split.
    - rewrite dom_insert_L, Hd, list_to_set_app_L. cbn. set_solver.
    - rewrite !length_app. cbn. lia. }
  cbn [fst snd] in Hd, Hlen. rewrite keys_dom in Hd.
  rewrite bind_of_Ok, concatenate_ok, bind_of_Ok.
  2:{ intros ->. apply keys_nonempty in Hne. destruct (_.*1); done. }
  rewrite concatenate_ok, bind_of_Ok by (by destruct (y_hist.*2.*2)).
  set (s_diff := push_window (m `min` k) diff (c_s_diff c)).
  assert (length s_diff = window_len m (S k)) as Hslen
    by by apply push_window_length.
  assert (Forall (fun d => dom d = dom (var_all P)) s_diff) as Hsdom
    by by apply push_window_Forall.
  eexists _, _. split; [reflexivity|]. intros Hmix resid.
  set (alpha := aa_weights (y_hist.*2.*1 ++ [s_diff])).
  assert (length alpha = window_len m (S k)) as Hal.
  { apply Hmix; [|by destruct (y_hist.*2.*1)].
    apply Forall_app. split; [|by constructor].
    apply Forall_fmap, Forall_fmap, Forall_forall. intros b Hb.
    apply list_elem_of_lookup in Hb as [n Hb].
    destruct (Forall2_lookup_r _ _ _ _ _ Hhist Hb) as (? & _ & _ & Hb1 & ? & _).
    cbn. by rewrite Hb1. }
  cbn [window_len] in Hal, Hslen.
  match goal with |- context [foldM ?ff ?ll (c_s c)] =>
    destruct (foldM_prefix_ok (fun _ (_ : gmap Z ndarray) => True)
                ff ll (c_s c)) as (s & -> & _)
  end.
  { done. }
  { intros pre key post s Hl _.
    apply keys_split in Hl as (Hk & _ & _).
    destruct (weighted_returns (m `min` k) alpha s_diff key) as (val & ->);
      [done| |lia|].
    { eapply Forall_impl; [exact Hsdom|]. intros d ->. done. }
    rewrite bind_of_Ok. eauto. }
  rewrite bind_of_Ok.
  destruct (settle_Forall2
    (fun w w' => dom (w_v w') = dom (w_v w) ∧ w_y_diff w' = w_y_diff w)
    (worker_accel_recv m k alpha) y_hist.*1) as (ws' & -> & Hws').
  { intros w' Hin. apply list_elem_of_fmap in Hin as (b & -> & Hb).
    apply list_elem_of_lookup in Hb as [n Hb].
    destruct (Forall2_lookup_r _ _ _ _ _ Hhist Hb)
      as (? & _ & _ & _ & Hl & Hf).
    apply worker_accel_recv_returns; [done|done|lia]. }
  eexists. split; [reflexivity|]. cbn. split; [|done].
  split_and!; [done|done|].
  exists ws'. split_and!; [done| |].
  - rewrite <-Hws.
    transitivity ((fun w => dom (w_v w)) <$> y_hist.*1).
    { apply Forall2_fmap_eq. eapply Forall2_impl; [exact Hws'|].
      intros ?? [? ?]. done. }
    rewrite <-list_fmap_compose.
    transitivity ((fun h' : worker * gmap Z ndarray => dom (w_v h'.1))
                    <$> halves').
    { apply Forall2_fmap_eq. eapply Forall2_impl; [exact Hhist|].
      intros ?? (? & _). done. }
    apply Forall2_fmap_eq. eapply Forall2_impl; [exact HF|].
    intros ?? [-> ?]. done.
  - apply Forall_forall. intros w' Hin _.
    apply list_elem_of_lookup in Hin as [n Hn].
    destruct (Forall2_lookup_r _ _ _ _ _ Hws' Hn) as (w1 & Hw1 & Hdw & Hyw).
    rewrite list_lookup_fmap in Hw1.
    destruct (y_hist !! n) as [b|] eqn:Hb; [|done]. injection Hw1 as <-.
    destruct (Forall2_lookup_r _ _ _ _ _ Hhist Hb)
      as (? & _ & _ & _ & Hl & Hf).
    rewrite Hyw, Hdw. done.
Qed.
Lemma doms_union P doms : doms_wf P doms → ⋃ doms = dom (var_all P).
Proof.
  intros (_ & Hall & Hcov). apply set_eq. intros key. split; [|apply Hcov].
  intros (D & HD & Hk)%elem_of_union_list.
  rewrite Forall_forall in Hall. destruct (Hall D HD) as [_ Hsub]. auto.
Qed.

(** Every round of a well-formed system reaches the assignment to
    [resid[k]]; when that succeeds the round completes and the system
    stays well formed. *)
Lemma round_shape P doms wd :
  world_wf P doms wd → doms_wf P doms → solves_fine →
  ∃ v rest,
    round P wd = setitem (c_resid (co wd)) (c_k (co wd)) v ≫= rest ∧
    ((anderson P = true → mixer_sized) →
     ∀ resid, ∃ wd', rest resid = Ok wd' ∧
       world_wf P doms wd' ∧
       c_k (co wd') = S (c_k (co wd)) ∧ c_resid (co wd') = resid).
Proof.
  intros (Hz & Hcw & ws & Hn & Hws & Hww) Hdoms Hfine. unfold round.
  rewrite Hn.
  destruct (gather_ok (c_k (co wd)) ws Hfine) as (halves & -> & Hlen & Hh).
  rewrite bind_of_Ok.
  destruct (gathered_reports _ _ _ Hlen Hh) as (Hrep & HF & Hst).
  destruct (w_project_returns ((fun h => h.2.1) <$> halves)
              (projection_baseline (co wd))) as (mat_term & z_new & Hw).
  { by apply Hst. }
  { rewrite Hrep, Hws. unfold projection_baseline.
    rewrite Hz. by apply doms_union. }
  rewrite Hw, bind_of_Ok.
  apply w_project_ok in Hw as (_ & _ & Hmt & Hzn).
  unfold projection_baseline in Hmt, Hzn. rewrite Hz in Hmt, Hzn.
  destruct (anderson P) eqn:Hand.
  - destruct (round_accel_shape P doms (co wd) z_new mat_term ws _
                Hand Hdoms Hz Hzn Hmt Hws HF Hcw Hww)
      as (v & rest & Heq & Hrest).
    exists v, rest. split; [done|]. intros Hmix. apply Hrest. by apply Hmix.
  - destruct (round_plain_shape P doms (co wd) z_new mat_term ws _
                Hand Hdoms Hz Hzn Hmt Hws HF)
      as (v & rest & Heq & Hrest).
    exists v, rest. split; [done|]. intros _. apply Hrest.
Qed.

Lemma round_ok P doms wd :
  world_wf P doms wd → doms_wf P doms → solves_fine →
  (anderson P = true → mixer_sized) →
  (c_k (co wd) < length (c_resid (co wd)))%nat →
  ∃ wd' v, round P wd = Ok wd' ∧
    world_wf P doms wd' ∧
    c_k (co wd') = S (c_k (co wd)) ∧
    c_resid (co wd') = <[c_k (co wd) := v]> (c_resid (co wd)).
Proof.
  intros Hwf Hdoms Hfine Hmix Hlt.
  destruct (round_shape P doms wd Hwf Hdoms Hfine)
    as (v & rest & -> & Hrest).
  destruct (Hrest Hmix (<[c_k (co wd) := v]> (c_resid (co wd))))
    as (wd' & Hr & ? & ? & ?).
  exists wd', v. split; [|done].
  unfold setitem. rewrite decide_True by done. by rewrite bind_of_Ok.
Qed.

Lemma round_index_error P doms wd :
  world_wf P doms wd → doms_wf P doms → solves_fine →
  ¬ (c_k (co wd) < length (c_resid (co wd)))%nat →
  round P wd = Raise IndexError.
Proof.
  intros Hwf Hdoms Hfine Hge.
  destruct (round_shape P doms wd Hwf Hdoms Hfine) as (v & rest & -> & _).
  by rewrite setitem_out.
Qed.
End Rounds.

(** ** What a completed round has done *)

Section RoundInversion.
Context `{NP : Numpy} `{EX : !External}.

Implicit Types (P : params) (c : coord) (wd : world).

Lemma settle_lookup {A} (step : A → res A) (ws : list (option A)) i a' :
  settle step ws !! i = Some (Some a') →
  ∃ a, ws !! i = Some (Some a) ∧ step a = Ok a'.
Proof.
  unfold settle. rewrite list_lookup_fmap.
  destruct (ws !! i) as [[a|]|]; cbn; try done.
  destruct (step a) eqn:Hs; try done. intros [= <-]. eauto.
Qed.

(** The part of a round that both branches share. *)
Lemma round_inv P wd wd' :
  round P wd = Ok wd' →
  ∃ halves mat_term z_new,
    recv_all (gather_step (c_k (co wd))) 0 (nodes wd)
      = Ok halves ∧
    w_project ((fun h => h.2.1) <$> halves) (projection_baseline (co wd))
      = Ok (mat_term, z_new) ∧
    (if anderson P
     then round_accel P (co wd) z_new mat_term
            ((fun h => (h.1, h.2.2)) <$> halves)
     else round_plain P (co wd) z_new mat_term
            ((fun h => (h.1, h.2.2)) <$> halves)) = Ok wd'.
Proof.
  unfold round. intros H. apply bind_Ok in H as (halves & Hh & H).
  apply bind_Ok in H as ([mat_term z_new] & Hw & H). eauto 10.
Qed.

Lemma round_plain_inv P c z_new mat_term halves' wd' :
  round_plain P c z_new mat_term halves' = Ok wd' →
  c_z (co wd') = z_new ∧ c_k (co wd') = S (c_k c) ∧
  c_s_diff (co wd') = c_s_diff c ∧
  (c_k c < length (c_resid c))%nat ∧
  (∃ v, c_resid (co wd') = <[c_k c := v]> (c_resid c)) ∧
  (∀ key, key ∈ dom (var_all P) →
     ∃ zn zo, z_new !! key = Some zn ∧ c_z c !! key = Some zo ∧
       c_s (co wd') !! key = Some (add (s_get (c_s c) key) (sub zn zo))).
Proof.
  intros H. unfold round_plain, for_keys in H.
  apply bind_Ok in H as ([s s_res] & Hs & H).
  apply bind_Ok in H as (s_res' & _ & H).
  apply bind_Ok in H as (sent & _ & H).
  apply bind_Ok in H as (v_res & _ & H).
  apply bind_Ok in H as (resid & Hr & H). injection H as <-. cbn.
  apply setitem_ok in Hr as [Hlt ->]. split_and!; try done; [by eexists|].
  intros key0 Hk0.
  refine (proj1 (foldM_prefix_inv
    (fun pre (a : gmap Z ndarray * list (list float)) =>
       ∀ key,
         (key ∈ pre → ∃ zn zo, z_new !! key = Some zn ∧
            c_z c !! key = Some zo ∧
            a.1 !! key = Some (add (s_get (c_s c) key) (sub zn zo))) ∧
         (key ∉ pre → a.1 !! key = c_s c !! key)) _ _ _ _ Hs _ _ key0) _).
  - intros key. split; [set_solver|done].
  - intros pre key post [s0 r0] a1 Hl Hi Hb. cbn [fst snd] in *.
    apply keys_split in Hl as (_ & Hnin & _).
    apply bind_Ok in Hb as (zn & Hzn%getitem_ok & Hb).
    apply bind_Ok in Hb as (zo & Hzo%getitem_ok & Hb). injection Hb as <-.
    cbn [fst snd]. intros key'. destruct (decide (key' = key)) as [->|Hne].
    + rewrite lookup_insert_eq. split; [|set_solver]. intros _.
      exists zn, zo. split_and!; [done..|].
      unfold s_get. by rewrite (proj2 (Hi key) Hnin).
    + rewrite lookup_insert_ne by done. destruct (Hi key') as [Hi1 Hi2].
      split; [intros ?; apply Hi1|intros ?; apply Hi2]; set_solver.
  - rewrite <-keys_dom in Hk0. by apply elem_of_list_to_set in Hk0.
Qed.

Lemma round_accel_inv P c z_new mat_term halves' wd' :
  round_accel P c z_new mat_term halves' = Ok wd' →
  c_z (co wd') = z_new ∧ c_k (co wd') = S (c_k c) ∧
  (c_k c < length (c_resid c))%nat ∧
  (∃ v, c_resid (co wd') = <[c_k c := v]> (c_resid c)) ∧
  (∃ d, c_s_diff (co wd') = push_window (m_accel P `min` c_k c) d (c_s_diff c)) ∧
  (∀ i w', nodes wd' !! i = Some (Some w') →
     ∃ h' d, halves' !! i = Some h' ∧
       w_y_diff w' = push_window (m_accel P `min` c_k c) d (w_y_diff h'.1)) ∧
  (∃ alpha, ∀ key, key ∈ dom (var_all P) →
     ∃ val, weighted (m_accel P `min` c_k c) alpha (c_s_diff (co wd')) key = Ok val ∧
       c_s (co wd') !! key = Some val).
Proof.
  intros H. unfold round_accel, for_keys in H.
  apply bind_Ok in H as (y_hist & Hy & H).
  apply bind_Ok in H as (_ & _ & H).
  apply bind_Ok in H as ([diff s_res] & _ & H).
  apply bind_Ok in H as (s_res' & _ & H).
  apply bind_Ok in H as (v_res & _ & H).
  apply bind_Ok in H as (resid & Hr & H).
  apply bind_Ok in H as (s & Hs & H). injection H as <-. cbn.
  apply setitem_ok in Hr as [Hlt ->].
  split_and!; try done; [by eexists|by eexists| |].
  - intros i w' Hw'. apply settle_lookup in Hw' as (w1 & Hw1 & Hrecv).
    apply worker_accel_recv_inv in Hrecv.
    rewrite !list_lookup_fmap in Hw1.
    destruct (y_hist !! i) as [[w1' [yd yr]]|] eqn:Hb; [|done].
    cbn in Hw1. injection Hw1 as ->.
    apply recv_all_inv in Hy as [_ Hy].
    destruct (Hy i _ Hb) as ([w0 xh] & Hh & Hsend).
    rewrite list_lookup_fmap in Hh.
    destruct (halves' !! i) as [h'|] eqn:Hh'; [|done].
    cbn in Hh. injection Hh as ->.
    apply worker_accel_send_inv in Hsend as [Hyd [d Hd]].
    exists (w0, xh), d. split; [done|]. cbn. congruence.
  - set (s_diff := push_window (m_accel P `min` c_k c) diff (c_s_diff c)) in *.
    set (alpha := aa_weights (y_hist.*2.*1 ++ [s_diff])) in *.
    exists alpha. intros key Hk.
    refine (foldM_prefix_inv
      (fun pre (a : gmap Z ndarray) =>
         ∀ key, key ∈ pre →
           ∃ val, weighted (m_accel P `min` c_k c) alpha s_diff key = Ok val ∧
             a !! key = Some val)
      _ _ _ _ Hs _ _ key _).
    + intros ? Hin. by apply elem_of_nil in Hin.
    + intros pre key0 post s0 a1 Hl Hi Hb.
      apply bind_Ok in Hb as (val & Hval & Hb). injection Hb as <-.
      intros key' Hin. destruct (decide (key' = key0)) as [->|Hne].
      * rewrite lookup_insert_eq. eauto.
      * rewrite lookup_insert_ne by done. apply Hi. set_solver.
    + rewrite <-keys_dom in Hk. by apply elem_of_list_to_set in Hk.
Qed.

Lemma gathered_lookup k (ws : list (option worker)) halves i h :
  recv_all (gather_step k) 0 ws = Ok halves →
  halves !! i = Some h →
  ws !! i = Some (Some h.1).
Proof.
  intros Hr Hh. apply recv_all_inv in Hr as [_ Hr].
  destruct (Hr i h Hh) as (w & Hw & [-> _]%gather_step_ok). done.
Qed.
End RoundInversion.

(** ** The loop and the entry point *)

Section Runs.
Context `{NP : Numpy} `{EX : !External}.

Implicit Types (P : params) (wd : world) (p_list : list (gmap Z shape)).

Lemma loop_unfold fuel P wd :
  loop fuel P wd =
    match round P wd with
    | Ok wd' =>
        match finished P (co wd') with
        | Ok true => Some (Ok wd')
        | Ok false =>
            match fuel with
            | O => None
            | S fuel' => loop fuel' P wd'
            end
        | Raise e => Some (Raise e)
        | Block => Some Block
        end
    | Raise e => Some (Raise e)
    | Block => Some Block
    end.
Proof. by destruct fuel. Qed.

Lemma loop_raise fuel P wd e :
  round P wd = Raise e → loop fuel P wd = Some (Raise e).
Proof. intros H. by rewrite loop_unfold, H. Qed.

Lemma loop_block fuel P wd : round P wd = Block → loop fuel P wd = Some Block.
Proof. intros H. by rewrite loop_unfold, H. Qed.

(** A round in which the worker behind some pipe is dead, or dies before
    it sends its half-step. *)
Lemma round_dead P wd n o :
  nodes wd !! n = Some o →
  (∀ w, o = Some w → ∀ b, gather_step (c_k (co wd)) n w ≠ Ok b) →
  (round P wd = Raise EOFError ∨ round P wd = Block) ∧
  ((S n < length (nodes wd))%nat → round P wd = Raise EOFError) ∧
  ((∀ j, (j < n)%nat →
      ∃ w b, nodes wd !! j = Some (Some w) ∧
        gather_step (c_k (co wd)) j w = Ok b) →
   S n = length (nodes wd) → round P wd = Block).
Proof.
  intros Hn Hf.
  destruct (recv_all_dead (gather_step (c_k (co wd))) 0 (nodes wd) n o Hn Hf)
    as (Hd & He & Hb).
  unfold round. split_and!.
  - destruct Hd as [-> | ->]; [by left|by right].
  - intros Hl. by rewrite He.
  - intros Hall Hl. by rewrite Hb.
Qed.

Lemma loop_first_round fuel P wd wd' :
  loop fuel P wd = Some (Ok wd') → ∃ wd1, round P wd = Ok wd1.
Proof. rewrite loop_unfold. destruct (round P wd); [eauto|done..]. Qed.

Lemma round_in_bounds P wd wd' :
  round P wd = Ok wd' →
  (c_k (co wd) < length (c_resid (co wd)))%nat ∧
  c_k (co wd') = S (c_k (co wd)).
Proof.
  intros (halves & mt & zn & _ & _ & H)%round_inv.
  destruct (anderson P).
  - apply round_accel_inv in H as (_ & ? & ? & _). done.
  - apply round_plain_inv in H as (_ & ? & _ & ? & _). done.
Qed.

(** From a well-formed state with rounds left, the loop returns, at
    the first count at which the stopping test holds. *)
Lemma loop_returns P doms fuel wd :
  doms_wf P doms → solves_fine → (anderson P = true → mixer_sized) →
  world_wf P doms wd →
  length (c_resid (co wd)) = Z.to_nat (max_iter P) →
  Z.of_nat (c_k (co wd)) < max_iter P →
  (Z.to_nat (max_iter P) ≤ fuel + c_k (co wd) + 1)%nat →
  ∃ wd', loop fuel P wd = Some (Ok wd') ∧
    (c_k (co wd) < c_k (co wd'))%nat ∧
    Z.of_nat (c_k (co wd')) ≤ max_iter P ∧
    length (c_resid (co wd')) = Z.to_nat (max_iter P) ∧
    dom (c_z (co wd')) = dom (var_all P) ∧
    (∀ i, (i < c_k (co wd))%nat →
       c_resid (co wd') !! i = c_resid (co wd) !! i) ∧
    stops_at P (c_resid (co wd')) (c_k (co wd')) ∧
    (∀ j, (c_k (co wd) < j < c_k (co wd'))%nat →
       ¬ stops_at P (c_resid (co wd')) j).
Proof.
  intros Hdoms Hfine Hmix. revert wd.
  induction fuel as [|fuel IH]; intros wd Hwf Hlen Hk Hfuel.
  all: destruct (round_ok P doms wd Hwf Hdoms Hfine Hmix)
         as (wd1 & v & Hr & Hwf1 & Hk1 & Hres1); [lia|].
  all: rewrite loop_unfold, Hr; unfold finished; rewrite Hk1.
  all: assert (length (c_resid (co wd1)) = Z.to_nat (max_iter P)) as Hlen1
         by (by rewrite Hres1, length_insert).
  all: assert (∀ i, (i < c_k (co wd))%nat →
                 c_resid (co wd1) !! i = c_resid (co wd) !! i) as Hpre1
         by (intros i Hi; rewrite Hres1;
             apply list_lookup_insert_ne; lia).
  all: assert (c_resid (co wd1) !! c_k (co wd) = Some v) as Hv
         by (rewrite Hres1; apply list_lookup_insert_eq; lia).
  all: destruct (decide (max_iter P ≤ Z.of_nat (S (c_k (co wd)))))
         as [Hmax|Hmax].
  1,3: exists wd1; rewrite Hk1; split; [done|];
       split_and!; [lia|lia|done|apply Hwf1|done|by left|intros; lia].
  all: replace (S (c_k (co wd)) - 1)%nat with (c_k (co wd)) by lia.
  all: destruct (index_lt (c_resid (co wd1)) (c_k (co wd)))
         as (rk & -> & Hrk); [lia|]; rewrite bind_of_Ok.
  all: destruct (index_lt (c_resid (co wd1)) 0)
         as (r0 & -> & Hr0); [lia|]; rewrite bind_of_Ok.
  all: destruct (fle rk (fmul (eps_stop P) r0)) eqn:Hfle.
  1,3: exists wd1; rewrite Hk1; split; [done|];
       split_and!; [lia|lia|done|apply Hwf1|done| |intros; lia];
       right; exists rk, r0;
       replace (S (c_k (co wd)) - 1)%nat with (c_k (co wd)) by lia; done.
  - lia.
  - destruct (IH wd1 Hwf1 Hlen1) as (wd' & Hl & Hlt & Hle & Hlen' & Hz'
                                     & Hpre & Hstop & Hnot); [lia|lia|].
    rewrite Hk1 in Hlt, Hpre, Hnot.
    exists wd'. split; [done|].
    split_and!; [lia|done|done|done| |done|].
    + intros i Hi. rewrite Hpre by lia. by apply Hpre1.
    + intros j Hj. destruct (decide (j = S (c_k (co wd)))) as [->|Hne].
      * intros [?|(rn & r0' & Hrn & Hr0' & Ht)]; [lia|].
        replace (S (c_k (co wd)) - 1)%nat with (c_k (co wd)) in Hrn by lia.
        rewrite Hpre in Hrn, Hr0' by lia. congruence.
      * apply Hnot. lia.
Qed.

(** The state before the first round. *)
Lemma foldl_variables_dom p_list (acc : gmap Z shape) :
  dom (foldl (fun acc p => p ∪ acc) acc p_list) = dom acc ∪ ⋃ (dom <$> p_list).
Proof.
  revert acc. induction p_list as [|p l IH]; intros acc; cbn.
  - set_solver.
  - rewrite IH, dom_union_L. set_solver.
Qed.

Lemma all_variables_dom p_list :
  dom (all_variables p_list) = ⋃ (dom <$> p_list).
Proof.
  unfold all_variables. rewrite foldl_variables_dom, dom_empty_L. set_solver.
Qed.

Lemma prox_step_dom (p : gmap Z shape) : dom (prox_step p) = dom p.
Proof. unfold prox_step. by rewrite dom_fmap_L. Qed.

Lemma initial_nodes p_list max_iter :
  nodes (initial_world p_list max_iter) = Some <$> initial_workers p_list.
Proof. unfold initial_workers. cbn. by rewrite <-list_fmap_compose. Qed.

Lemma initial_workers_doms p_list :
  (fun w => dom (w_v w)) <$> initial_workers p_list = dom <$> p_list.
Proof.
  unfold initial_workers. rewrite <-list_fmap_compose.
  apply list_fmap_ext. intros _ p _. cbn. apply prox_step_dom.
Qed.

Lemma initial_world_wf p_list max_iter eps a m :
  world_wf (run_params p_list max_iter eps a m) (dom <$> p_list)
    (initial_world p_list max_iter).
Proof.
  split_and!.
  - cbn. by rewrite dom_fmap_L.
  - intros _. cbn. split; [done|constructor].
  - exists (initial_workers p_list). split_and!.
    + apply initial_nodes.
    + apply initial_workers_doms.
    + apply Forall_forall. intros w Hw _. unfold initial_workers in Hw.
      apply list_elem_of_fmap in Hw as (p & -> & _). cbn.
      split; [done|constructor].
Qed.

Lemma initial_doms_wf p_list max_iter eps a m :
  p_list ≠ [] → Forall (fun p => p ≠ ∅) p_list →
  doms_wf (run_params p_list max_iter eps a m) (dom <$> p_list).
Proof.
  intros Hne Hall. split_and!.
  - by destruct p_list.
  - apply Forall_fmap, Forall_forall. intros p Hp. cbn. split.
    + rewrite Forall_forall in Hall. intros He%dom_empty_iff_L.
      by apply (Hall p).
    + rewrite all_variables_dom. intros key Hk.
      apply elem_of_union_list. exists (dom p). split; [|done].
      apply list_elem_of_fmap. eauto.
  - cbn. by rewrite all_variables_dom.
Qed.
End Runs.

(** ** The history windows along a run *)

Section Windows.
Context `{NP : Numpy} `{EX : !External}.

Implicit Types (P : params) (wd : world).

Lemma window_of_Some wd i hist :
  window_of wd i = Some hist ↔
  ∃ w, nodes wd !! i = Some (Some w) ∧ w_y_diff w = hist.
Proof.
  unfold window_of. destruct (nodes wd !! i) as [[w|]|]; split.
  all: try done; try (by intros (? & ? & ?)).
  - intros [= <-]. eauto.
  - intros (w' & [= <-] & <-). done.
Qed.

Lemma round_windows P wd wd' :
  anderson P = true →
  round P wd = Ok wd' →
  (∃ d, c_s_diff (co wd')
        = push_window (m_accel P `min` c_k (co wd)) d (c_s_diff (co wd))) ∧
  ∀ i hist', window_of wd' i = Some hist' →
    ∃ hist d, window_of wd i = Some hist ∧
      hist' = push_window (m_accel P `min` c_k (co wd)) d hist.
Proof.
  intros Hand (halves & mt & zn & Hh & _ & H)%round_inv. rewrite Hand in H.
  apply round_accel_inv in H as (_ & _ & _ & _ & Hs & Hn & _).
  split; [done|]. intros i hist' (w' & Hw' & <-)%window_of_Some.
  destruct (Hn i w' Hw') as (h' & d & Hh' & Hpush).
  rewrite list_lookup_fmap in Hh'.
  destruct (halves !! i) as [h|] eqn:Hhi; [|done]. injection Hh' as <-.
  exists (w_y_diff h.1), d. split; [|done].
  apply window_of_Some. exists h.1. split; [|done].
  by eapply gathered_lookup.
Qed.

Lemma round_windows_at P wd wd' k :
  anderson P = true →
  windows_at (m_accel P) k wd →
  round P wd = Ok wd' →
  windows_at (m_accel P) (S k) wd'.
Proof.
  intros Hand (Hk & Hc & Hw) Hr.
  destruct (round_windows P wd wd' Hand Hr) as [[d Hd] Hn].
  apply round_in_bounds in Hr as [_ Hk']. rewrite Hk in *.
  split_and!; [done| |].
  - rewrite Hd. by apply push_window_length.
  - intros i hist' Hi. destruct (Hn i hist' Hi) as (hist & d' & Hi0 & ->).
    apply push_window_length. by eapply Hw.
Qed.

Lemma after_rounds_windows P n k0 wd0 wd :
  anderson P = true →
  windows_at (m_accel P) k0 wd0 →
  after_rounds n P wd0 = Ok wd →
  windows_at (m_accel P) (k0 + n) wd.
Proof.
  intros Hand. revert k0 wd0. induction n as [|n IH]; intros k0 wd0 H0 Ha.
  - cbn in Ha. injection Ha as <-. by rewrite Nat.add_0_r.
  - cbn [after_rounds] in Ha. apply bind_Ok in Ha as (wd1 & Hr & Ha).
    rewrite Nat.add_succ_r. apply (IH (S k0) wd1); [|done].
    by eapply round_windows_at.
Qed.

Lemma initial_windows p_list max_iter m :
  windows_at m 0 (initial_world p_list max_iter).
Proof.
  split_and!; [done|done|].
  intros i hist (w & Hw & <-)%window_of_Some. cbn in Hw.
  rewrite list_lookup_fmap in Hw.
  destruct (p_list !! i); cbn in Hw; [|done]. by injection Hw as <-.
Qed.
End Windows.

(** ** The claims about whole runs *)

Section RunClaims.
Context `{NP : Numpy} `{EX : !External}.

Implicit Types (p_list : list (gmap Z shape)).

(** C2 (what the code does).  At every round the differences of the
    projection are taken against the coordinator's [z], not against the
    split [s].  The reports are the half-steps gathered in this round,
    the projection is called on them with [z], its second result becomes
    the next [z], and at every key the new [z] is
    [z + sum - n * (sum / (1 + n))] with [sum] the sum of the differences
    [y_half_i[key] - z[key]] and [n] their count.  The baseline is the
    zero array at round 0.  The split is only written: without
    acceleration [s' = s + (z_new - z)], with acceleration [s] is
    overwritten by the weighted sum of the coordinator's window. *)
Theorem C2_baseline_is_z p_list max_iter eps a m (n : nat) (wd wd' : world) :
  after_rounds n (run_params p_list max_iter eps a m)
    (initial_world p_list max_iter) = Ok wd →
  round (run_params p_list max_iter eps a m) wd = Ok wd' →
  ∃ halves mat_term,
    recv_all (gather_step (c_k (co wd))) 0 (nodes wd) = Ok halves ∧
    w_project ((fun h => h.2.1) <$> halves) (c_z (co wd))
      = Ok (mat_term, c_z (co wd')) ∧
    (∀ key zo, c_z (co wd) !! key = Some zo →
       c_z (co wd') !! key
         = Some (sub (add zo (sum_axis0
                        (diffs_of key zo ((fun h => h.2.1) <$> halves))))
                   (scale (float_of_count
                             (length (diffs_of key zo
                                        ((fun h => h.2.1) <$> halves))))
                      (divide
                         (sum_axis0
                            (diffs_of key zo ((fun h => h.2.1) <$> halves)))
                         (fadd f1
                            (float_of_count
                               (length (diffs_of key zo
                                          ((fun h => h.2.1) <$> halves))))))))) ∧
    (n = 0%nat → c_z (co wd) = zeros <$> all_variables p_list) ∧
    (a = false → ∀ key, key ∈ dom (all_variables p_list) →
       ∃ zn zo, c_z (co wd') !! key = Some zn ∧
         c_z (co wd) !! key = Some zo ∧
         c_s (co wd') !! key
           = Some (add (s_get (c_s (co wd)) key) (sub zn zo))) ∧
    (a = true → ∃ alpha, ∀ key, key ∈ dom (all_variables p_list) →
       ∃ val,
         weighted (Z.to_nat m `min` c_k (co wd)) alpha (c_s_diff (co wd')) key
           = Ok val ∧
         c_s (co wd') !! key = Some val).
Proof.
  intros Ha Hr.
  pose proof Hr as (halves & mt & zn & Hg & Hw & H)%round_inv.
  unfold projection_baseline in Hw. cbn [anderson run_params] in H.
  assert (c_z (co wd') = zn) as Hz.
  { destruct a.
    - by apply round_accel_inv in H as (? & _).
    - by apply round_plain_inv in H as (? & _). }
  exists halves, mt. rewrite Hz. split_and!; [done|done| | | |].
  - intros key zo Hzo. by destruct (w_project_at _ _ _ _ key zo Hw Hzo).
  - intros ->. cbn in Ha. by injection Ha as <-.
  - intros ->. apply round_plain_inv in H as (_ & _ & _ & _ & _ & Hs).
    exact Hs.
  - intros ->. apply round_accel_inv in H as (_ & _ & _ & _ & _ & _ & Hs).
    exact Hs.
Qed.

(** C3 (as the code has it).  When [max_iter >= 1], [m_accel >= 0], there
    is at least one node and every node has a variable, no local solve
    reports an infeasible or unbounded problem, and (with acceleration)
    the mixer returns one weight per snapshot, the run returns normally
    with all workers terminated, after [n] rounds with
    [1 <= n <= max_iter]; [n] is the first count at which
    [n >= max_iter] or [resid[n-1] <= eps_stop * resid[0]] holds, and the
    result carries exactly the first [n] residuals and [n] itself. *)
Theorem C3_loop_terminates p_list max_iter eps a m :
  1 ≤ max_iter → 0 ≤ m →
  p_list ≠ [] → Forall (fun p => p ≠ ∅) p_list →
  solves_fine → (a = true → mixer_sized) →
  ∃ r, consensus p_list max_iter eps a m
         = (Returned r, replicate (length p_list) Terminated) ∧
    (1 ≤ num_iters r)%nat ∧ Z.of_nat (num_iters r) ≤ max_iter ∧
    length (residuals r) = num_iters r ∧
    dom (zvals r) = dom (all_variables p_list) ∧
    stops_at (run_params p_list max_iter eps a m) (residuals r) (num_iters r) ∧
    ∀ j, (1 ≤ j < num_iters r)%nat →
      ¬ stops_at (run_params p_list max_iter eps a m) (residuals r) j.
Proof.
  intros Hmax Hm Hne Hall Hfine Hmix. unfold consensus.
  rewrite !decide_False by lia.
  set (P := run_params p_list max_iter eps a m).
  destruct (loop_returns P (dom <$> p_list) (Z.to_nat max_iter)
              (initial_world p_list max_iter))
    as (wd & -> & Hlt & Hle & Hlen & Hz & _ & Hstop & Hnot).
  { by apply initial_doms_wf. }
  { done. }
  { done. }
  { apply initial_world_wf. }
  { cbn. by rewrite length_replicate. }
  { cbn. lia. }
  { cbn. lia. }
  subst P. cbn in Hle, Hlen, Hz.
  eexists. split; [reflexivity|]. cbn [num_iters residuals zvals].
  set (n := c_k (co wd)) in *.
  split_and!; [lia|done|rewrite length_take; lia|done| |].
  - destruct Hstop as [?|(rn & r0 & Hrn & Hr0 & Ht)]; [by left|right].
    exists rn, r0. rewrite !lookup_take_lt by lia. done.
  - intros j Hj Hs. apply (Hnot j); [cbn; lia|].
    destruct Hs as [?|(rn & r0 & Hrn & Hr0 & Ht)]; [by left|right].
    exists rn, r0. rewrite !lookup_take_lt in Hrn, Hr0 by lia. done.
Qed.

(** How the entry point ends when its first round raises or blocks. *)
Lemma consensus_first_raise p_list max_iter eps a m e :
  0 ≤ m → 0 ≤ max_iter →
  round (run_params p_list max_iter eps a m) (initial_world p_list max_iter)
    = Raise e →
  consensus p_list max_iter eps a m
    = (Raised e, replicate (length p_list) Started).
Proof.
  intros Hm Hmax Hr. unfold consensus. rewrite !decide_False by lia.
  by rewrite (loop_raise _ _ _ e).
Qed.

Lemma consensus_first_block p_list max_iter eps a m :
  0 ≤ m → 0 ≤ max_iter →
  round (run_params p_list max_iter eps a m) (initial_world p_list max_iter)
    = Block →
  consensus p_list max_iter eps a m
    = (Blocked, replicate (length p_list) Started).
Proof.
  intros Hm Hmax Hr. unfold consensus. rewrite !decide_False by lia.
  by rewrite loop_block.
Qed.

(** C6 (what the code does).  When the local solve of a node that has a
    variable reports an infeasible or unbounded problem in the first
    round, that worker dies at line 112 before it sends, so the guard of
    [w_project] is never reached and no [RuntimeError] is raised.  The
    entry point ends in [EOFError], or waits without end; it ends in
    [EOFError] whenever the node is not the last one, and waits when it
    is the last one and the solves of the earlier nodes are fine.  In all
    cases no worker has been terminated. *)
Theorem C6_infeasible_solve_kills_worker p_list max_iter eps a m
    (i : nat) (p : gmap Z shape) :
  0 ≤ m → 0 ≤ max_iter →
  p_list !! i = Some p → p ≠ ∅ →
  INF_OR_UNB (solve i 0 (prox_step p)).1 = true →
  (consensus p_list max_iter eps a m
     = (Raised EOFError, replicate (length p_list) Started) ∨
   consensus p_list max_iter eps a m
     = (Blocked, replicate (length p_list) Started)) ∧
  ((S i < length p_list)%nat →
   consensus p_list max_iter eps a m
     = (Raised EOFError, replicate (length p_list) Started)) ∧
  ((∀ j q, (j < i)%nat → p_list !! j = Some q →
      INF_OR_UNB (solve j 0 (prox_step q)).1 = false) →
   S i = length p_list →
   consensus p_list max_iter eps a m
     = (Blocked, replicate (length p_list) Started)).
Proof.
  intros Hm Hmax Hp Hne Hbad.
  set (P := run_params p_list max_iter eps a m).
  set (w0 := {| w_v := prox_step p; w_y_diff := [] |}).
  destruct (round_dead P (initial_world p_list max_iter) i (Some w0))
    as (Hd & He & Hb).
  { cbn. by rewrite list_lookup_fmap, Hp. }
  { intros w [= <-] b Hs. rewrite gather_step_dies in Hs; [done|done|].
    cbn. rewrite prox_step_dom. intros Hd. by apply dom_empty_iff_L in Hd. }
  cbn [initial_world nodes] in He, Hb. rewrite length_fmap in He, Hb.
  split_and!.
  - destruct Hd as [Hd|Hd]; [left|right].
    + by apply consensus_first_raise.
    + by apply consensus_first_block.
  - intros Hl. apply consensus_first_raise; [done|done|]. by apply He.
  - intros Hall Hl. apply consensus_first_block; [done|done|].
    apply Hb; [|done]. intros j Hj.
    assert (is_Some (p_list !! j)) as [q Hq].
    { apply lookup_lt_is_Some. lia. }
    exists {| w_v := prox_step q; w_y_diff := [] |}. eexists. split.
    + by rewrite list_lookup_fmap, Hq.
    + apply gather_step_sends. intros [Hs _]. cbn in Hs.
      by rewrite (Hall j q Hj Hq) in Hs.
Qed.

(** C8.  In an accelerated run, once the history update of round [k] is
    done the coordinator's window and the window of every live worker
    have length [min(m_accel, k) + 1]; and the next round appends its
    entry at the end after dropping the oldest one exactly when the
    window was full ([m_accel <= k]). *)
Theorem C8_window_length p_list max_iter eps m (k : nat) (wd : world) :
  after_rounds (S k) (run_params p_list max_iter eps true m)
    (initial_world p_list max_iter) = Ok wd →
  (length (c_s_diff (co wd)) = (Z.to_nat m `min` k + 1)%nat ∧
   ∀ i hist, window_of wd i = Some hist →
     length hist = (Z.to_nat m `min` k + 1)%nat) ∧
  ∀ wd', round (run_params p_list max_iter eps true m) wd = Ok wd' →
    (∃ d, c_s_diff (co wd')
          = drop (if decide (Z.to_nat m ≤ k)%nat then 1 else 0)%nat
              (c_s_diff (co wd)) ++ [d]) ∧
    ∀ i hist', window_of wd' i = Some hist' →
      ∃ hist d, window_of wd i = Some hist ∧
        hist' = drop (if decide (Z.to_nat m ≤ k)%nat then 1 else 0)%nat hist
                  ++ [d].
Proof.
  intros Ha. set (P := run_params p_list max_iter eps true m) in *.
  pose proof (after_rounds_windows P (S k) 0 _ wd eq_refl
                (initial_windows p_list max_iter _) Ha) as (Hk & Hc & Hw).
  subst P. cbn in Hk, Hc, Hw.
  split; [done|]. intros wd' Hr.
  destruct (round_windows (run_params p_list max_iter eps true m) wd wd'
              eq_refl Hr) as [[d Hd] Hn].
  rewrite Hk in Hd, Hn. cbn in Hd, Hn.
  assert (∀ A (d : A) hist, length hist = window_len (Z.to_nat m) (S k) →
            push_window (Z.to_nat m `min` S k) d hist
            = drop (if decide (Z.to_nat m ≤ k)%nat then 1 else 0)%nat hist
                ++ [d]) as Hev.
  { intros A d0 hist Hl. rewrite push_window_evicts by done.
    destruct (decide (Z.to_nat m < S k)%nat), (decide (Z.to_nat m ≤ k)%nat);
      try lia; done. }
  split.
  - exists d. rewrite Hd. by apply Hev.
  - intros i hist' Hi. destruct (Hn i hist' Hi) as (hist & d' & Hi0 & ->).
    exists hist, d'. split; [done|]. apply Hev. cbn. by apply (Hw i).
Qed.

(** C9.  With a negative [m_accel] (in particular [m_accel = -1] and
    [anderson = True]) the entry point raises the [ValueError] and no
    worker process exists: none was created or started. *)
Theorem C9_negative_m_accel p_list max_iter eps a m :
  m < 0 →
  consensus p_list max_iter eps a m = (Raised ValueError_m_accel, []).
Proof. intros Hm. unfold consensus. by rewrite decide_True. Qed.

(** C10.  With [max_iter = 0] (and solves that succeed on nodes that each
    have a variable) the entry point starts its workers and then fails
    with an [IndexError] at [resid[0]], leaving them running; more
    generally it returns normally only if [max_iter >= 1]. *)
Theorem C10_max_iter_zero p_list eps a m :
  0 ≤ m →
  p_list ≠ [] → Forall (fun p => p ≠ ∅) p_list →
  solves_fine →
  consensus p_list 0 eps a m
    = (Raised IndexError, replicate (length p_list) Started) ∧
  ∀ max_iter r procs,
    consensus p_list max_iter eps a m = (Returned r, procs) → 1 ≤ max_iter.
Proof.
  intros Hm Hne Hall Hfine. split.
  - unfold consensus. rewrite !decide_False by lia.
    rewrite (loop_raise _ _ _ IndexError); [done|].
    apply (round_index_error _ (dom <$> p_list)).
    + apply initial_world_wf.
    + by apply initial_doms_wf.
    + done.
    + cbn. rewrite length_replicate. lia.
  - intros max_iter r procs. unfold consensus. rewrite decide_False by lia.
    destruct (decide (max_iter < 0)); [done|].
    destruct (loop _ _ _) as [[wd|e|]|] eqn:Hl; try done. intros _.
    apply loop_first_round in Hl as [wd1 Hr].
    apply round_in_bounds in Hr as [Hlt _]. cbn in Hlt.
    rewrite length_replicate in Hlt. lia.
Qed.
End RunClaims.

(** ** Concrete runs *)

Lemma returned_ok {A} (fallback : A) (r : res A) :
  is_ok r = true → r = Ok (returned fallback r).
Proof. by destruct r. Qed.

Lemma newest_only_sized : mixer_sized (NP := numpy_Q) (EX := two_nodes).
Proof.
  intros windows n Hall Hne. destruct windows as [|w ws]; [done|].
  apply Forall_cons in Hall as [<- _]. cbn.
  destruct w as [|d w]; [reflexivity|]. cbn.
  rewrite length_app, length_replicate. cbn. lia.
Qed.

Lemma one_var_nonempty : Forall (fun p : gmap Z unit => p ≠ ∅) [one_var; one_var].
Proof. repeat constructor; intros H; vm_compute in H; discriminate. Qed.

Lemma lone_round1_ok :
  round (NP := numpy_Q) (EX := one_node) lone_params lone_round0
    = Ok lone_round1.
Proof. apply returned_ok. vm_compute; reflexivity. Qed.

(** C2 on a run where [s] and [z] differ.  One node minimising
    [(x - 3)^2], acceleration on: after round 0 the coordinator holds
    [z = 2] and [s = -2] at key 1.  Round 1 projects the gathered report
    against [z] and gets [z_new = 3]; against [s] the same report gives
    [z_new = 1]. *)
Lemma C2_baseline_is_z_witness :
  (∃ halves mat_term,
     recv_all (gather_step (EX := one_node) (c_k (co lone_round0))) 0
       (nodes lone_round0) = Ok halves ∧
     w_project ((fun h => h.2.1) <$> halves) (c_z (co lone_round0))
       = Ok (mat_term, c_z (co lone_round1))) ∧
  c_z (co lone_round0) !! 1 = Some 2%Q ∧
  c_s (co lone_round0) !! 1 = Some (-2)%Q ∧
  c_z (co lone_round1) !! 1 = Some 3%Q ∧
  w_project lone_reports1 (c_z (co lone_round0))
    = Ok ({[ 1 := 1%Q ]}, {[ 1 := 3%Q ]}) ∧
  w_project lone_reports1 (c_s (co lone_round0))
    = Ok ({[ 1 := 3%Q ]}, {[ 1 := 1%Q ]}).
Proof.
  destruct (C2_baseline_is_z (NP := numpy_Q) (EX := one_node)
              [one_var] 2 eps_default true 0 1 lone_round0 lone_round1)
    as (halves & mt & Hg & Hw & _).
  - apply returned_ok. vm_compute; reflexivity.
  - exact lone_round1_ok.
  - split; [by exists halves, mt|].
    split_and!; vm_compute; reflexivity.
Defined.

(** C3, as stated, fails.  With [max_iter = 0] every local solve
    returns an optimal point, and the run raises [IndexError] in its
    first round instead of returning.  And when every local solve
    returns with the status [INFEASIBLE], the workers die on the values
    [None] that it leaves and the run ends in [EOFError] on the first
    pipe. *)
Lemma C3_counterexample :
  consensus (NP := numpy_Q) (EX := two_nodes_infeasible)
    [one_var; one_var] 5 eps_default false 5
    = (Raised EOFError, [Started; Started]) ∧
  consensus (NP := numpy_Q) (EX := two_nodes)
    [one_var; one_var] 0 eps_default false 5
    = (Raised IndexError, [Started; Started]).
Proof. split; reflexivity. Qed.

Lemma C3_loop_terminates_witness :
  ∃ r, consensus (NP := numpy_Q) (EX := two_nodes)
         [one_var; one_var] 3 eps_default true 5
         = (Returned r, replicate (length [one_var; one_var]) Terminated) ∧
    (1 ≤ num_iters r)%nat ∧ Z.of_nat (num_iters r) ≤ 3 ∧
    length (residuals r) = num_iters r ∧
    dom (zvals r) = dom (all_variables [one_var; one_var]) ∧
    stops_at (run_params [one_var; one_var] 3 eps_default true 5)
      (residuals r) (num_iters r) ∧
    ∀ j, (1 ≤ j < num_iters r)%nat →
      ¬ stops_at (run_params [one_var; one_var] 3 eps_default true 5)
          (residuals r) j.
Proof.
  apply (C3_loop_terminates (NP := numpy_Q) (EX := two_nodes)
           [one_var; one_var] 3 eps_default true 5).
  - lia.
  - lia.
  - done.
  - exact one_var_nonempty.
  - intros i k v. reflexivity.
  - intros _. exact newest_only_sized.
Defined.

(** C4: with [m_accel = 0] the two branches part in the very first
    round.  From the same state and the same half-steps, node 0 ends the
    round with the dual [y = -2] in the weighted branch (the only weight
    being 1) and with [y = 2] in the additive branch. *)
Theorem C4_m_accel_zero_differs :
  round (NP := numpy_Q) (EX := two_nodes)
    (run_params [one_var; one_var] 1 eps_default true 0) first_start
    = Ok first_accel ∧
  round (NP := numpy_Q) (EX := two_nodes)
    (run_params [one_var; one_var] 1 eps_default false 0) first_start
    = Ok first_plain ∧
  dual_of first_accel 0 1 = Some (-2)%Q ∧
  dual_of first_plain 0 1 = Some 2%Q.
Proof.
  split; [apply returned_ok|split; [apply returned_ok|split]];
    vm_compute; reflexivity.
Qed.

Lemma C6_infeasible_solve_kills_worker_witness :
  consensus (NP := numpy_Q) (EX := two_nodes_infeasible)
    [one_var; one_var] 100 eps_default false 5
    = (Raised EOFError, replicate (length [one_var; one_var]) Started).
Proof.
  destruct (C6_infeasible_solve_kills_worker (NP := numpy_Q)
              (EX := two_nodes_infeasible) [one_var; one_var] 100
              eps_default false 5 0 one_var) as (_ & He & _).
  - lia.
  - lia.
  - reflexivity.
  - exact (Forall_inv one_var_nonempty).
  - reflexivity.
  - apply He. cbn. lia.
Defined.

Lemma C8_window_length_witness :
  (length (c_s_diff (co accel_round2)) = (Z.to_nat 1 `min` 2 + 1)%nat ∧
   ∀ i hist, window_of accel_round2 i = Some hist →
     length hist = (Z.to_nat 1 `min` 2 + 1)%nat) ∧
  ∀ wd', round (NP := numpy_Q) (EX := two_nodes)
           (run_params [one_var; one_var] 5 eps_default true 1) accel_round2
         = Ok wd' →
    (∃ d, c_s_diff (co wd')
          = drop (if decide (Z.to_nat 1 ≤ 2)%nat then 1 else 0)%nat
              (c_s_diff (co accel_round2)) ++ [d]) ∧
    ∀ i hist', window_of wd' i = Some hist' →
      ∃ hist d, window_of accel_round2 i = Some hist ∧
        hist' = drop (if decide (Z.to_nat 1 ≤ 2)%nat then 1 else 0)%nat hist
                  ++ [d].
Proof.
  apply (C8_window_length (NP := numpy_Q) (EX := two_nodes)
           [one_var; one_var] 5 eps_default 1 2 accel_round2).
  apply returned_ok. vm_compute; reflexivity.
Defined.

Lemma C9_negative_m_accel_witness :
  consensus (NP := numpy_Q) (EX := two_nodes)
    [one_var; one_var] 100 eps_default true (-1)
    = (Raised ValueError_m_accel, []).
Proof.
  apply (C9_negative_m_accel (NP := numpy_Q) (EX := two_nodes)). lia.
Defined.

Lemma C10_max_iter_zero_witness :
  consensus (NP := numpy_Q) (EX := two_nodes)
    [one_var; one_var] 0 eps_default true 5
    = (Raised IndexError, replicate (length [one_var; one_var]) Started) ∧
  ∀ max_iter r procs,
    consensus (NP := numpy_Q) (EX := two_nodes)
      [one_var; one_var] max_iter eps_default true 5 = (Returned r, procs) →
    1 ≤ max_iter.
Proof.
  apply (C10_max_iter_zero (NP := numpy_Q) (EX := two_nodes)
           [one_var; one_var] eps_default true 5).
  - lia.
  - done.
  - exact one_var_nonempty.
  - intros i k v. reflexivity.
Defined.

(** * Further properties *)

Import ExactMore.

(** ** What a worker's round computes *)

Section WorkerValues.
Context `{NP : Numpy} `{EX : !External}.

Implicit Types (mat_term z_new x_half : gmap Z ndarray) (w : worker).

Lemma update_xz_inv mat_term z_new key r x r' :
  update_xz mat_term z_new key r = Ok (x, r') →
  ∃ mt zn, mat_term !! key = Some mt ∧ z_new !! key = Some zn ∧
    x = add (var_z r) mt ∧ r' = accel_update r mt zn.
Proof.
  unfold update_xz. intros H.
  apply bind_Ok in H as (mt & Hm%getitem_ok & H).
  apply bind_Ok in H as (zn & Hz%getitem_ok & H). injection H as <- <-.
  by exists mt, zn.
Qed.

Lemma concatenate_ok_inv parts v : concatenate parts = Ok v → parts ≠ [].
Proof. by destruct parts. Qed.

Lemma keys_elem {V} (d : gmap Z V) key :
  key ∈ (map_to_list d).*1 ↔ key ∈ dom d.
Proof. by rewrite <-keys_dom, elem_of_list_to_set. Qed.

(** A map that was rewritten at each key of [v0] has the keys of [v0]. *)
Lemma rewritten_dom {V W} (v0 : gmap Z V) (v : gmap Z W) (keys : list Z) :
  (∀ key, key ∈ keys ↔ key ∈ dom v0) →
  (∀ key, key ∈ keys → is_Some (v !! key)) →
  (∀ key, key ∉ keys → v !! key = None) →
  dom v = dom v0.
Proof.
  intros Hk Hin Hout. apply set_eq. intros key. rewrite <-Hk, elem_of_dom.
  split.
  - intros Hs. destruct (decide (key ∈ keys)) as [|Hn]; [done|].
    rewrite (Hout key Hn) in Hs. by destruct Hs.
  - apply Hin.
Qed.

Lemma worker_plain_values mat_term z_new x_half w w' y_res :
  worker_plain mat_term z_new x_half w = Ok (w', y_res) →
  dom (w_v w) ≠ ∅ ∧
  w_y_diff w' = w_y_diff w ∧
  (∀ key, w_v w !! key = None → w_v w' !! key = None) ∧
  ∀ key r, w_v w !! key = Some r →
    ∃ mt zn xh, mat_term !! key = Some mt ∧ z_new !! key = Some zn ∧
      x_half !! key = Some xh ∧
      w_v w' !! key = Some (plain_update r mt zn xh).
Proof.
  intros H. unfold worker_plain, for_keys in H.
  apply bind_Ok in H as ([v yr] & Hf & H).
  apply bind_Ok in H as (yr' & Hc & H). injection H as <- <-. cbn [w_v w_y_diff].
  apply concatenate_ok_inv in Hc as Hne.
  assert (length yr = length (map_to_list (w_v w)).*1 ∧
          ∀ key,
            (key ∈ (map_to_list (w_v w)).*1 →
               ∃ r mt zn xh, w_v w !! key = Some r ∧
                 mat_term !! key = Some mt ∧ z_new !! key = Some zn ∧
                 x_half !! key = Some xh ∧
                 v !! key = Some (plain_update r mt zn xh)) ∧
            (key ∉ (map_to_list (w_v w)).*1 → v !! key = w_v w !! key))
    as [Hlen Hv].
  { refine (foldM_prefix_inv
      (fun pre (a : gmap Z vrec * list (list float)) =>
         length a.2 = length pre ∧
         ∀ key,
           (key ∈ pre →
              ∃ r mt zn xh, w_v w !! key = Some r ∧
                mat_term !! key = Some mt ∧ z_new !! key = Some zn ∧
                x_half !! key = Some xh ∧
                a.1 !! key = Some (plain_update r mt zn xh)) ∧
           (key ∉ pre → a.1 !! key = w_v w !! key)) _ _ _ _ Hf _ _).
    - split; [done|]. intros key. split; [|done].
      intros Hin. by apply elem_of_nil in Hin.
    - intros pre key post [v1 yr1] a1 Hl [Hlen Hi] Hb. cbn [fst snd] in *.
      apply keys_split in Hl as (_ & Hnin & _).
      apply bind_Ok in Hb as (r & Hr%getitem_ok & Hb).
      apply bind_Ok in Hb as ([x r'] & Hu & Hb).
      apply bind_Ok in Hb as (xh & Hx%getitem_ok & Hb). injection Hb as <-.
      apply update_xz_inv in Hu as (mt & zn & Hm & Hz & -> & ->).
      cbn [fst snd]. split; [rewrite !length_app; cbn; lia|].
      rewrite (proj2 (Hi key) Hnin) in Hr.
      intros key'. destruct (decide (key' = key)) as [->|Hne'].
      + rewrite lookup_insert_eq. split; [|set_solver]. intros _.
        exists r, mt, zn, xh. done.
      + rewrite lookup_insert_ne by done. destruct (Hi key') as [Hi1 Hi2].
        split; [intros ?; apply Hi1|intros ?; apply Hi2]; set_solver. }
  split_and!.
  - intros He. apply Hne. apply dom_empty_iff_L in He.
    rewrite He, map_to_list_empty in Hlen. by destruct yr.
  - done.
  - intros key Hk. rewrite (proj2 (Hv key)); [done|].
    rewrite keys_elem. by apply not_elem_of_dom.
  - intros key r Hr. destruct (proj1 (Hv key)) as (r0 & mt & zn & xh & ? & ?).
    { rewrite keys_elem. apply elem_of_dom. eauto. }
    exists mt, zn, xh. naive_solver.
Qed.
Lemma worker_accel_send_values m k mat_term z_new x_half w w1 y_diff y_res :
  worker_accel_send m k mat_term z_new x_half w = Ok (w1, (y_diff, y_res)) →
  dom (w_v w) ≠ ∅ ∧
  y_diff = w_y_diff w1 ∧
  ∃ diff,
    w_y_diff w1 = push_window (m `min` k) diff (w_y_diff w) ∧
    (∀ key, w_v w !! key = None →
       w_v w1 !! key = None ∧ diff !! key = None) ∧
    ∀ key r, w_v w !! key = Some r →
      ∃ mt zn xh, mat_term !! key = Some mt ∧ z_new !! key = Some zn ∧
        x_half !! key = Some xh ∧
        w_v w1 !! key = Some (accel_update r mt zn) ∧
        diff !! key = Some (sub xh (add (var_z r) mt)).
Proof.
  intros H. unfold worker_accel_send, for_keys in H.
  apply bind_Ok in H as ([[v diff] yr] & Hf & H).
  apply bind_Ok in H as (yr' & Hc & H). injection H as <- <- <-.
  cbn [w_v w_y_diff].
  apply concatenate_ok_inv in Hc as Hne.
  assert (length yr = length (map_to_list (w_v w)).*1 ∧
          ∀ key,
            (key ∈ (map_to_list (w_v w)).*1 →
               ∃ r mt zn xh, w_v w !! key = Some r ∧
                 mat_term !! key = Some mt ∧ z_new !! key = Some zn ∧
                 x_half !! key = Some xh ∧
                 v !! key = Some (accel_update r mt zn) ∧
                 diff !! key = Some (sub xh (add (var_z r) mt))) ∧
            (key ∉ (map_to_list (w_v w)).*1 →
               v !! key = w_v w !! key ∧ diff !! key = None))
    as [Hlen Hv].
  { refine (foldM_prefix_inv
      (fun pre (a : gmap Z vrec * gmap Z ndarray * list (list float)) =>
         length a.2 = length pre ∧
         ∀ key,
           (key ∈ pre →
              ∃ r mt zn xh, w_v w !! key = Some r ∧
                mat_term !! key = Some mt ∧ z_new !! key = Some zn ∧
                x_half !! key = Some xh ∧
                a.1.1 !! key = Some (accel_update r mt zn) ∧
                a.1.2 !! key = Some (sub xh (add (var_z r) mt))) ∧
           (key ∉ pre →
              a.1.1 !! key = w_v w !! key ∧ a.1.2 !! key = None))
      _ _ _ _ Hf _ _).
    - split; [done|]. intros key. split; [|done].
      intros Hin. by apply elem_of_nil in Hin.
    - intros pre key post [[v1 d1] yr1] a1 Hl [Hlen Hi] Hb. cbn [fst snd] in *.
      apply keys_split in Hl as (_ & Hnin & _).
      apply bind_Ok in Hb as (r & Hr%getitem_ok & Hb).
      apply bind_Ok in Hb as ([x r'] & Hu & Hb).
      apply bind_Ok in Hb as (xh & Hx%getitem_ok & Hb). injection Hb as <-.
      apply update_xz_inv in Hu as (mt & zn & Hm & Hz & -> & ->).
      cbn [fst snd]. split; [rewrite !length_app; cbn; lia|].
      rewrite (proj1 (proj2 (Hi key) Hnin)) in Hr.
      intros key'. destruct (decide (key' = key)) as [->|Hne'].
      + rewrite !lookup_insert_eq. split; [|set_solver]. intros _.
        exists r, mt, zn, xh. done.
      + rewrite !lookup_insert_ne by done. destruct (Hi key') as [Hi1 Hi2].
        split; [intros ?; apply Hi1|intros ?; apply Hi2]; set_solver. }
  split_and!.
  - intros He. apply Hne. apply dom_empty_iff_L in He.
    rewrite He, map_to_list_empty in Hlen. by destruct yr.
  - done.
  - exists diff. split; [done|]. split.
    + intros key Hk. destruct (proj2 (Hv key)) as [-> ->]; [|done].
      rewrite keys_elem. by apply not_elem_of_dom.
    + intros key r Hr.
      destruct (proj1 (Hv key)) as (r0 & mt & zn & xh & ? & ?).
      { rewrite keys_elem. apply elem_of_dom. eauto. }
      exists mt, zn, xh. naive_solver.
Qed.

Lemma worker_accel_recv_values m k alpha w1 w2 :
  worker_accel_recv m k alpha w1 = Ok w2 →
  w_y_diff w2 = w_y_diff w1 ∧
  (∀ key, w_v w1 !! key = None → w_v w2 !! key = None) ∧
  ∀ key r, w_v w1 !! key = Some r →
    ∃ val, weighted (m `min` k) alpha (w_y_diff w1) key = Ok val ∧
      w_v w2 !! key
        = Some {| var_x := var_x r; var_z := var_z r; var_y := val |}.
Proof.
  intros H. unfold worker_accel_recv, for_keys in H.
  apply bind_Ok in H as (v & Hf & H). injection H as <-. cbn [w_v w_y_diff].
  assert (∀ key,
            (key ∈ (map_to_list (w_v w1)).*1 →
               ∃ r val, w_v w1 !! key = Some r ∧
                 weighted (m `min` k) alpha (w_y_diff w1) key = Ok val ∧
                 v !! key = Some {| var_x := var_x r; var_z := var_z r;
                                    var_y := val |}) ∧
            (key ∉ (map_to_list (w_v w1)).*1 → v !! key = w_v w1 !! key))
    as Hv.
  { refine (foldM_prefix_inv
      (fun pre (a : gmap Z vrec) =>
         ∀ key,
           (key ∈ pre →
              ∃ r val, w_v w1 !! key = Some r ∧
                weighted (m `min` k) alpha (w_y_diff w1) key = Ok val ∧
                a !! key = Some {| var_x := var_x r; var_z := var_z r;
                                   var_y := val |}) ∧
           (key ∉ pre → a !! key = w_v w1 !! key)) _ _ _ _ Hf _ _).
    - intros key. split; [|done]. intros Hin. by apply elem_of_nil in Hin.
    - intros pre key post v1 a1 Hl Hi Hb.
      apply keys_split in Hl as (_ & Hnin & _).
      apply bind_Ok in Hb as (r & Hr%getitem_ok & Hb).
      apply bind_Ok in Hb as (val & Hval & Hb). injection Hb as <-.
      rewrite (proj2 (Hi key) Hnin) in Hr.
      intros key'. destruct (decide (key' = key)) as [->|Hne'].
      + rewrite lookup_insert_eq. split; [|set_solver]. intros _.
        exists r, val. done.
      + rewrite lookup_insert_ne by done. destruct (Hi key') as [Hi1 Hi2].
        split; [intros ?; apply Hi1|intros ?; apply Hi2]; set_solver. }
  split_and!; [done| |].
  - intros key Hk. rewrite (proj2 (Hv key)); [done|].
    rewrite keys_elem. by apply not_elem_of_dom.
  - intros key r Hr. destruct (proj1 (Hv key)) as (r0 & val & ? & ? & ?).
    { rewrite keys_elem. apply elem_of_dom. eauto. }
    exists val. naive_solver.
Qed.
Lemma values_dom {V W} (v : gmap Z V) (v' : gmap Z W) :
  (∀ key, v !! key = None → v' !! key = None) →
  (∀ key r, v !! key = Some r → is_Some (v' !! key)) →
  dom v' = dom v.
Proof.
  intros Hn Hs. apply set_eq. intros key. rewrite !elem_of_dom.
  destruct (v !! key) as [r|] eqn:Hk.
  - split; [eauto|]. intros _. by eapply Hs.
  - rewrite (Hn key Hk). done.
Qed.

Lemma push_window_single {A} (d : A) hist :
  (length hist ≤ 1)%nat → push_window 0 d hist = [d].
Proof.
  intros Hl. unfold push_window. destruct hist as [|h [|h' hist]]; cbn in *.
  - done.
  - done.
  - lia.
Qed.

(** X1.  The branch without acceleration returns exactly when the worker
    has a variable and every variable has an entry in [mat_term], [z_new]
    and [x_half]; it then leaves [x = z + mat_term], [z = z_new] and
    [y = y + (x - x_half)] at every key, and the key set and the window
    as they were. *)
Theorem worker_plain_spec mat_term z_new x_half w :
  ((∃ w' y_res, worker_plain mat_term z_new x_half w = Ok (w', y_res)) ↔
   dom (w_v w) ≠ ∅ ∧ dom (w_v w) ⊆ dom mat_term ∧
   dom (w_v w) ⊆ dom z_new ∧ dom (w_v w) ⊆ dom x_half) ∧
  ∀ w' y_res, worker_plain mat_term z_new x_half w = Ok (w', y_res) →
    dom (w_v w') = dom (w_v w) ∧ w_y_diff w' = w_y_diff w ∧
    ∀ key r, w_v w !! key = Some r →
      ∃ mt zn xh, mat_term !! key = Some mt ∧ z_new !! key = Some zn ∧
        x_half !! key = Some xh ∧
        w_v w' !! key = Some (plain_update r mt zn xh).
Proof.
  split.
  - split.
    + intros (w' & y_res & H).
      apply worker_plain_values in H as (Hne & _ & _ & Hv).
      split; [done|].
      split_and!; intros key [r Hr]%elem_of_dom;
        destruct (Hv key r Hr) as (mt & zn & xh & ? & ? & ? & _);
        apply elem_of_dom; eauto.
    + intros (Hne & Hm & Hz & Hx).
      destruct (worker_plain_returns mat_term z_new x_half w Hne Hm Hz Hx)
        as (w' & y_res & H & _). eauto.
  - intros w' y_res H.
    apply worker_plain_values in H as (_ & Hy & Hn & Hv).
    split_and!; [|done|done].
    apply values_dom; [done|]. intros key r Hr.
    destruct (Hv key r Hr) as (? & ? & ? & _ & _ & _ & ->). eauto.
Qed.

(** X2.  A full round of the accelerated branch.  The worker leaves
    [x = z + mat_term] and [z = z_new] at every key, pushes the residual
    [x_half - x] onto its window, sends that window, and replaces [y] by
    the weighted sum over the pushed window; its key set is unchanged. *)
Theorem worker_accel_spec m k mat_term z_new x_half alpha w w1 y_diff y_res w2 :
  worker_accel_send m k mat_term z_new x_half w = Ok (w1, (y_diff, y_res)) →
  worker_accel_recv m k alpha w1 = Ok w2 →
  y_diff = w_y_diff w2 ∧ dom (w_v w2) = dom (w_v w) ∧
  ∃ diff,
    w_y_diff w2 = push_window (m `min` k) diff (w_y_diff w) ∧
    dom diff = dom (w_v w) ∧
    ∀ key r, w_v w !! key = Some r →
      ∃ mt zn xh val, mat_term !! key = Some mt ∧ z_new !! key = Some zn ∧
        x_half !! key = Some xh ∧
        diff !! key = Some (sub xh (add (var_z r) mt)) ∧
        weighted (m `min` k) alpha (w_y_diff w2) key = Ok val ∧
        w_v w2 !! key
          = Some {| var_x := Some (add (var_z r) mt); var_z := zn;
                    var_y := val |}.
Proof.
  intros Hs Hr.
  apply worker_accel_send_values in Hs as (_ & -> & diff & Hw & Hn & Hv).
  apply worker_accel_recv_values in Hr as (Hy & Hn2 & Hv2).
  rewrite Hy. split; [done|].
  assert (∀ key r, w_v w !! key = Some r →
            ∃ mt zn xh val, mat_term !! key = Some mt ∧
              z_new !! key = Some zn ∧ x_half !! key = Some xh ∧
              diff !! key = Some (sub xh (add (var_z r) mt)) ∧
              weighted (m `min` k) alpha (w_y_diff w1) key = Ok val ∧
              w_v w2 !! key
                = Some {| var_x := Some (add (var_z r) mt); var_z := zn;
                          var_y := val |}) as Hall.
  { intros key r Hk.
    destruct (Hv key r Hk) as (mt & zn & xh & ? & ? & ? & H1 & ?).
    destruct (Hv2 key _ H1) as (val & ? & ?).
    exists mt, zn, xh, val. done. }
  split.
  - apply values_dom.
    + intros key Hk. apply Hn2. by apply Hn.
    + intros key r Hk.
      destruct (Hall key r Hk) as (? & ? & ? & ? & _ & _ & _ & _ & _ & ->).
      eauto.
  - exists diff. split_and!; [done| |done].
    apply values_dom.
    + intros key Hk. by apply Hn.
    + intros key r Hk.
      destruct (Hall key r Hk) as (? & ? & ? & ? & _ & _ & _ & -> & _).
      eauto.
Qed.

(** X3.  With [m_accel = 0] the accelerated branch sets the dual to
    [zeros + alpha[0] * (x_half - x)] at every key: the previous [y] does
    not enter, where the branch without acceleration leaves
    [y + (x - x_half)]. *)
Theorem accel_m0_dual k mat_term z_new x_half alpha w w1 y_diff y_res w2 :
  (length (w_y_diff w) ≤ 1)%nat →
  worker_accel_send 0 k mat_term z_new x_half w = Ok (w1, (y_diff, y_res)) →
  worker_accel_recv 0 k alpha w1 = Ok w2 →
  ∀ key r, w_v w !! key = Some r →
    ∃ mt xh a0, mat_term !! key = Some mt ∧ x_half !! key = Some xh ∧
      alpha !! 0%nat = Some a0 ∧
      var_y <$> w_v w2 !! key
        = Some (add (zeros (shape_of (sub xh (add (var_z r) mt))))
                  (scale a0 (sub xh (add (var_z r) mt)))).
Proof.
  intros Hl Hs Hr key r Hk.
  apply worker_accel_send_values in Hs as (_ & _ & diff & Hw & _ & Hv).
  apply worker_accel_recv_values in Hr as (_ & _ & Hv2).
  destruct (Hv key r Hk) as (mt & zn & xh & Hm & _ & Hx & H1 & Hd).
  destruct (Hv2 key _ H1) as (val & Hval & ->).
  cbn [Nat.min] in Hw, Hval. rewrite push_window_single in Hw by done.
  rewrite Hw in Hval. unfold weighted in Hval. cbn in Hval.
  apply bind_Ok in Hval as (a0' & Ha0%getitem_ok & Hval).
  rewrite Hd in Ha0. injection Ha0 as <-.
  apply bind_Ok in Hval as (val1 & Hstep & Hval). cbn in Hval.
  injection Hval as <-.
  apply bind_Ok in Hstep as (a0 & Ha%index_ok & Hstep).
  apply bind_Ok in Hstep as (dk & Hdk%getitem_ok & Hstep).
  rewrite Hd in Hdk. injection Hdk as <-. injection Hstep as <-.
  exists mt, xh, a0. done.
Qed.
End WorkerValues.

(** ** The projection step, completed *)

Section ProjectionMore.
Context `{NP : Numpy}.
#[local] Existing Instance float_inhabited.

Implicit Types (s_half : gmap Z ndarray).
Implicit Types (prox_res : list (status * gmap Z ndarray)).

Lemma node_fold_status s_half prox_res prox_res' acc :
  Forall2 (fun r r' => r.2 = r'.2 ∧ INF_OR_UNB r.1 = INF_OR_UNB r'.1)
    prox_res prox_res' →
  foldM (node_step s_half) prox_res acc
    = foldM (node_step s_half) prox_res' acc.
Proof.
  intros HF. revert acc.
  induction HF as [|[st y] [st' y'] l l' [Hy Hs] _ IH]; intros acc; [done|].
  cbn [fst snd] in Hy, Hs. subst y'. rewrite !foldM_cons.
  assert (node_step s_half acc (st, y) = node_step s_half acc (st', y)) as ->.
  { unfold node_step. cbn [fst snd]. by rewrite Hs. }
  destruct (node_step s_half acc (st', y)); [|done..].
  rewrite !bind_of_Ok. apply IH.
Qed.

(** X4.  Every outcome of the projection step.  It returns when no status
    is infeasible or unbounded and the reported keys are exactly the
    baseline's, and the two dictionaries then have the baseline's keys; it
    raises the mismatch error when the statuses are fine and the reported
    keys are a proper part of the baseline's; otherwise it raises
    [KeyError] (some reported key is not tracked) or the infeasibility
    error (some status is infeasible or unbounded).  It raises nothing
    else. *)
Theorem w_project_outcome prox_res s_half :
  (∃ mat_term z_new,
     w_project prox_res s_half = Ok (mat_term, z_new) ∧
     Forall (fun r => INF_OR_UNB r.1 = false) prox_res ∧
     reported_keys prox_res = dom s_half ∧
     dom mat_term = dom s_half ∧ dom z_new = dom s_half) ∨
  (w_project prox_res s_half = Raise RuntimeError_mismatch ∧
     Forall (fun r => INF_OR_UNB r.1 = false) prox_res ∧
     reported_keys prox_res ⊆ dom s_half ∧
     reported_keys prox_res ≠ dom s_half) ∨
  (w_project prox_res s_half = Raise KeyError ∧
     ¬ reported_keys prox_res ⊆ dom s_half) ∨
  (w_project prox_res s_half = Raise RuntimeError_inf_unb ∧
     Exists (fun r => INF_OR_UNB r.1 = true) prox_res).
Proof.
  destruct (w_project prox_res s_half) as [[mt zn]|e|] eqn:Hw.
  - left. exists mt, zn. split; [done|]. by apply w_project_ok in Hw.
  - right. unfold w_project in Hw.
    pose proof (node_fold_result s_half prox_res (∅, ∅)) as Hr.
    destruct (foldM _ prox_res _) as [acc|e'|] eqn:Hf; [| |done].
    + rewrite bind_of_Ok in Hw.
      apply node_fold_spec in Hf as (Hall & Hsub & Hdom & _).
      destruct (decide _) as [|Hne]; [done|]. injection Hw as <-.
      left. split_and!; try done. intros Heq. apply Hne.
      rewrite Hdom, Heq. cbn [fst]. rewrite dom_empty_L. set_solver.
    + rewrite bind_of_Raise in Hw. injection Hw as <-. right.
      destruct Hr as [[-> ?]|[-> ?]]; [left|right]; done.
  - unfold w_project in Hw.
    pose proof (node_fold_result s_half prox_res (∅, ∅)) as Hr.
    destruct (foldM _ prox_res _) as [acc|e'|] eqn:Hf; [| |done].
    + rewrite bind_of_Ok in Hw. by destruct (decide _).
    + done.
Qed.

(** X5.  The projection looks at a status only to test it against
    [INF_OR_UNB].  Reports with the same values whose statuses agree on
    that test are projected alike, so a report with the status
    [SOLVER_ERROR] or [OPTIMAL_INACCURATE] is accepted like an optimal
    one. *)
Theorem w_project_status_blind prox_res prox_res' s_half :
  Forall2 (fun r r' => r.2 = r'.2 ∧ INF_OR_UNB r.1 = INF_OR_UNB r'.1)
    prox_res prox_res' →
  w_project prox_res s_half = w_project prox_res' s_half.
Proof.
  intros HF. unfold w_project.
  by rewrite (node_fold_status s_half prox_res prox_res' _ HF).
Qed.
End ProjectionMore.

(** ** Runs, without assumptions on the solver *)

Section RunsMore.
Context `{NP : Numpy} `{EX : !External}.

Implicit Types (P : params) (wd : world) (p_list : list (gmap Z shape)).

Lemma round_facts P wd wd' :
  round P wd = Ok wd' →
  c_k (co wd') = S (c_k (co wd)) ∧
  (c_k (co wd) < length (c_resid (co wd)))%nat ∧
  (∃ v, c_resid (co wd') = <[c_k (co wd) := v]> (c_resid (co wd))) ∧
  dom (c_z (co wd')) = dom (c_z (co wd)).
Proof.
  intros (halves & mt & zn & _ & Hw & H)%round_inv.
  apply w_project_ok in Hw as (_ & _ & _ & Hzn).
  unfold projection_baseline in Hzn.
  destruct (anderson P).
  - apply round_accel_inv in H as (-> & ? & ? & ? & _). done.
  - apply round_plain_inv in H as (-> & ? & _ & ? & ? & _). done.
Qed.

Lemma finished_true P c :
  finished P c = Ok true → stops_at P (c_resid c) (c_k c).
Proof.
  unfold finished, stops_at. destruct (decide _); [by left|].
  intros H. apply bind_Ok in H as (rk & Hrk%index_ok & H).
  apply bind_Ok in H as (r0 & Hr0%index_ok & H). injection H as H.
  right. by exists rk, r0.
Qed.

Lemma finished_false P c :
  finished P c = Ok false → ¬ stops_at P (c_resid c) (c_k c).
Proof.
  unfold finished, stops_at. destruct (decide _); [done|].
  intros H. apply bind_Ok in H as (rk & Hrk%index_ok & H).
  apply bind_Ok in H as (r0 & Hr0%index_ok & H). injection H as H.
  intros [?|(rk' & r0' & ? & ? & Ht)]; [done|]. congruence.
Qed.

(** What holds of the state in which the loop returns. *)
Lemma loop_inv P fuel wd wd' :
  loop fuel P wd = Some (Ok wd') →
  (c_k (co wd) < c_k (co wd'))%nat ∧
  (c_k (co wd') ≤ length (c_resid (co wd)))%nat ∧
  length (c_resid (co wd')) = length (c_resid (co wd)) ∧
  dom (c_z (co wd')) = dom (c_z (co wd)) ∧
  (∀ i, (i < c_k (co wd))%nat →
     c_resid (co wd') !! i = c_resid (co wd) !! i) ∧
  stops_at P (c_resid (co wd')) (c_k (co wd')) ∧
  ∀ j, (c_k (co wd) < j < c_k (co wd'))%nat →
    ¬ stops_at P (c_resid (co wd')) j.
Proof.
  revert wd. induction fuel as [|fuel IH]; intros wd Hl.
  all: rewrite loop_unfold in Hl.
  all: destruct (round P wd) as [wd1| |] eqn:Hr; [|done..].
  all: apply round_facts in Hr as (Hk1 & Hlt & [v Hres] & Hz).
  all: destruct (finished P (co wd1)) as [[|]| |] eqn:Hfin; try done.
  1,2: injection Hl as <-; apply finished_true in Hfin;
       rewrite Hk1 in *; rewrite Hres, length_insert;
       split_and!; [lia|lia|done|done| |by rewrite <-Hres|intros; lia];
       intros i Hi; apply list_lookup_insert_ne; lia.
  destruct (IH wd1 Hl) as (Hlt' & Hle' & Hlen' & Hz' & Hpre' & Hstop & Hnot).
  apply finished_false in Hfin.
  rewrite Hk1 in *. rewrite Hres, length_insert in Hle', Hlen'.
  split_and!; [lia|done|done|congruence| |done|].
  - intros i Hi. rewrite Hpre' by lia. rewrite Hres.
    apply list_lookup_insert_ne. lia.
  - intros j Hj. destruct (decide (j = S (c_k (co wd)))) as [->|Hne].
    + intros Hs. apply Hfin.
      destruct Hs as [?|(rn & r0 & Hrn & Hr0 & Ht)]; [by left|right].
      exists rn, r0. rewrite !Hpre' in Hrn, Hr0 by lia. done.
    + apply Hnot. lia.
Qed.

(** The loop makes a round for each unit of [max_iter] at most. *)
Lemma loop_fuel_enough P fuel wd :
  (Z.to_nat (max_iter P) ≤ fuel + c_k (co wd) + 1)%nat →
  ∃ o, loop fuel P wd = Some o.
Proof.
  revert wd. induction fuel as [|fuel IH]; intros wd Hf.
  all: rewrite loop_unfold.
  all: destruct (round P wd) as [wd1| |] eqn:Hr; [|eauto..].
  all: apply round_facts in Hr as (Hk1 & _).
  all: destruct (finished P (co wd1)) as [[|]| |] eqn:Hfin; [eauto| |eauto..].
  all: apply finished_false in Hfin.
  - destruct Hfin. left. lia.
  - apply IH. lia.
Qed.
Lemma returned_eq (fallback : result) (o : outcome * list proc) :
  has_returned o = true → o = (Returned (result_of fallback o), o.2).
Proof.
  destruct o as [[r|e| |] procs]; unfold has_returned, result_of; cbn; done.
Qed.

(** X6.  Whatever the solver and the mixer do, when the entry point
    returns, all workers have been terminated, the iteration count [n]
    satisfies [1 <= n <= max_iter], the residual sequence has exactly [n]
    entries, [zvals] has exactly the variables of the problems as keys,
    and [n] is the first count at which [n >= max_iter] or
    [resid[n-1] <= eps_stop * resid[0]] holds. *)
Theorem consensus_returned_shape p_list max_iter eps a m r procs :
  consensus p_list max_iter eps a m = (Returned r, procs) →
  procs = replicate (length p_list) Terminated ∧
  (1 ≤ num_iters r)%nat ∧ Z.of_nat (num_iters r) ≤ max_iter ∧
  length (residuals r) = num_iters r ∧
  dom (zvals r) = dom (all_variables p_list) ∧
  stops_at (run_params p_list max_iter eps a m) (residuals r) (num_iters r) ∧
  ∀ j, (1 ≤ j < num_iters r)%nat →
    ¬ stops_at (run_params p_list max_iter eps a m) (residuals r) j.
Proof.
  unfold consensus. destruct (decide (m < 0)); [done|].
  destruct (decide (max_iter < 0)); [done|].
  destruct (loop _ _ _) as [[wd| |]|] eqn:Hl; try done.
  intros [= <- <-]. cbn [num_iters residuals zvals].
  apply loop_inv in Hl as (Hlt & Hle & Hlen & Hz & _ & Hstop & Hnot).
  cbn in Hlt, Hle, Hlen, Hz, Hnot. rewrite length_replicate in Hle, Hlen.
  rewrite dom_fmap_L in Hz.
  set (nk := c_k (co wd)) in *.
  split_and!; [done|lia|lia|rewrite length_take; lia|done| |].
  - destruct Hstop as [?|(rn & r0 & Hrn & Hr0 & Ht)]; [by left|right].
    exists rn, r0. rewrite !lookup_take_lt by lia. done.
  - intros j Hj Hs. apply (Hnot j); [lia|].
    destruct Hs as [?|(rn & r0 & Hrn & Hr0 & Ht)]; [by left|right].
    exists rn, r0. rewrite !lookup_take_lt in Hrn, Hr0 by lia. done.
Qed.

(** X7.  Every call of the entry point ends in one of four ways.  With a
    negative [m_accel] it raises before any process exists; otherwise it
    returns with every worker terminated, or it raises or blocks with
    every worker started and none terminated.  The loop never makes more
    rounds than [max_iter] allows: the model's fuel is never exhausted. *)
Theorem consensus_outcome p_list max_iter eps a m :
  (m < 0 ∧
   consensus p_list max_iter eps a m = (Raised ValueError_m_accel, [])) ∨
  (0 ≤ m ∧
   ((∃ r, consensus p_list max_iter eps a m
          = (Returned r, replicate (length p_list) Terminated)) ∨
    (∃ e, consensus p_list max_iter eps a m
          = (Raised e, replicate (length p_list) Started)) ∨
    consensus p_list max_iter eps a m
      = (Blocked, replicate (length p_list) Started))).
Proof.
  unfold consensus. destruct (decide (m < 0)); [by left|].
  right. split; [lia|].
  destruct (decide (max_iter < 0)); [right; left; eauto|].
  destruct (loop_fuel_enough (run_params p_list max_iter eps a m)
              (Z.to_nat max_iter) (initial_world p_list max_iter))
    as [o ->]; [cbn; lia|].
  destruct o as [wd|e|]; eauto.
Qed.
End RunsMore.

(** ** What the nodes hold after a round *)

Section Agreement.
Context `{NP : Numpy} `{EX : !External}.

Implicit Types (P : params) (c : coord) (wd : world).
Implicit Types (p_list : list (gmap Z shape)).

Lemma round_plain_nodes P c z_new mat_term halves' wd' :
  round_plain P c z_new mat_term halves' = Ok wd' →
  ∀ i w', nodes wd' !! i = Some (Some w') →
    ∃ h' y_res, halves' !! i = Some h' ∧
      worker_plain mat_term z_new h'.2 h'.1 = Ok (w', y_res).
Proof.
  intros H. unfold round_plain, for_keys in H.
  apply bind_Ok in H as ([s s_res] & _ & H).
  apply bind_Ok in H as (s_res' & _ & H).
  apply bind_Ok in H as (sent & Hsent & H).
  apply bind_Ok in H as (v_res & _ & H).
  apply bind_Ok in H as (resid & _ & H). injection H as <-. cbn.
  intros i w' Hw'. rewrite !list_lookup_fmap in Hw'.
  destruct (sent !! i) as [[w1 yr]|] eqn:Hb; [|done].
  cbn in Hw'. injection Hw' as ->.
  apply recv_all_inv in Hsent as [_ Hy].
  destruct (Hy i _ Hb) as ([w0 xh] & Hh & Hsend).
  rewrite list_lookup_fmap in Hh.
  destruct (halves' !! i) as [h'|] eqn:Hh'; [|done].
  cbn in Hh. injection Hh as ->.
  exists (w0, xh), yr. done.
Qed.


Lemma after_rounds_last n P wd0 wd :
  after_rounds (S n) P wd0 = Ok wd →
  ∃ wd1, after_rounds n P wd0 = Ok wd1 ∧ round P wd1 = Ok wd.
Proof.
  revert wd0. induction n as [|n IH]; intros wd0 H.
  - cbn in H. apply bind_Ok in H as (wd1 & Hr & H). injection H as <-.
    by exists wd0.
  - cbn [after_rounds] in H. apply bind_Ok in H as (wd1 & Hr & H).
    apply IH in H as (wd2 & H2 & Hr2). exists wd2. split; [|done].
    cbn [after_rounds]. by rewrite Hr, bind_of_Ok.
Qed.



(** The half-step that reaches the projection from a live node is the
    one its solver produced in this round. *)
Lemma gathered_half k (ws : list (option worker)) halves i w :
  recv_all (gather_step k) 0 ws = Ok halves →
  ws !! i = Some (Some w) →
  halves !! i = Some (w, half_step i k w).
Proof.
  intros Hr Hw. apply recv_all_inv in Hr as [Hlen Hr].
  assert (is_Some (halves !! i)) as [h Hh].
  { apply lookup_lt_is_Some. rewrite Hlen. by eapply lookup_lt_Some. }
  destruct (Hr i h Hh) as (w0 & Hw0 & [-> _]%gather_step_ok).
  rewrite Hw in Hw0. by injection Hw0 as <-.
Qed.

Lemma round_plain_alive P c z_new mat_term halves' wd' i h' :
  round_plain P c z_new mat_term halves' = Ok wd' →
  halves' !! i = Some h' →
  ∃ w', nodes wd' !! i = Some (Some w').
Proof.
  intros H Hh. unfold round_plain, for_keys in H.
  apply bind_Ok in H as ([s s_res] & _ & H).
  apply bind_Ok in H as (s_res' & _ & H).
  apply bind_Ok in H as (sent & Hsent & H).
  apply bind_Ok in H as (v_res & _ & H).
  apply bind_Ok in H as (resid & _ & H). injection H as <-. cbn.
  apply recv_all_inv in Hsent as [Hlen _]. rewrite length_fmap in Hlen.
  assert (is_Some (sent !! i)) as [[w1 yr] Hs].
  { apply lookup_lt_is_Some. rewrite Hlen. by eapply lookup_lt_Some. }
  exists w1. by rewrite !list_lookup_fmap, Hs.
Qed.

(** X8.  The dual update of a round without acceleration, at the level of
    the run.  Every node that entered the round leaves it alive.  With
    [mat_term] the first result of the projection of this round's
    half-steps against the coordinator's [z], the node holds at each of
    its keys [x = z + mat_term[key]] (its own previous [z]), the
    coordinator's new [z], and [y + (x - x_half)], where [x_half] is
    what its solver returned in this round on the state the node
    entered with. *)
Theorem plain_round_dual P wd wd' i w key r :
  anderson P = false → round P wd = Ok wd' →
  nodes wd !! i = Some (Some w) → w_v w !! key = Some r →
  ∃ halves mat_term w' mt zn,
    recv_all (gather_step (c_k (co wd))) 0 (nodes wd) = Ok halves ∧
    w_project ((fun h => h.2.1) <$> halves) (c_z (co wd))
      = Ok (mat_term, c_z (co wd')) ∧
    mat_term !! key = Some mt ∧
    nodes wd' !! i = Some (Some w') ∧
    c_z (co wd') !! key = Some zn ∧
    w_v w' !! key
      = Some {| var_x := Some (add (var_z r) mt); var_z := zn;
                var_y := add (var_y r)
                           (sub (add (var_z r) mt)
                              ((solve i (c_k (co wd)) (w_v w)).2 key)) |}.
Proof.
  intros Hand (halves & mt & zn & Hrecv & Hproj & H)%round_inv Hw Hk.
  rewrite Hand in H. unfold projection_baseline in Hproj.
  pose proof (gathered_half _ _ _ _ _ Hrecv Hw) as Hh.
  assert (((fun h : worker * ((status * gmap Z ndarray) * gmap Z ndarray) =>
              (h.1, h.2.2)) <$> halves) !! i
          = Some (w, (half_step i (c_k (co wd)) w).2)) as Hh'.
  { by rewrite list_lookup_fmap, Hh. }
  destruct (round_plain_alive _ _ _ _ _ _ _ _ H Hh') as [w' Hw'].
  pose proof (round_plain_inv _ _ _ _ _ _ H) as (Hz & _).
  destruct (round_plain_nodes _ _ _ _ _ _ H i w' Hw') as (h' & yr & Hh2 & Hp).
  rewrite Hh' in Hh2. injection Hh2 as <-. cbn [fst snd] in Hp.
  apply worker_plain_values in Hp as (_ & _ & _ & Hv).
  destruct (Hv key r Hk) as (mt' & zn' & xh & Hmt & Hzn & Hxh & Hr').
  exists halves, mt, w', mt', zn'. rewrite Hz.
  split_and!; [done|done|done|done|done|].
  rewrite Hr'. unfold plain_update. cbn.
  repeat f_equal. unfold half_step in Hxh.
  destruct (solve i (c_k (co wd)) (w_v w)) as [st xs]. cbn in Hxh |- *.
  rewrite map_lookup_imap, Hk in Hxh. cbn in Hxh. by injection Hxh as <-.
Qed.


End Agreement.


(** ** What the coordinator's window holds *)

Section WindowContents.
Context `{NP : Numpy} `{EX : !External}.

Implicit Types (P : params) (c : coord) (wd : world).
Implicit Types (p_list : list (gmap Z shape)).

Lemma round_accel_window P c z_new mat_term halves' wd' :
  round_accel P c z_new mat_term halves' = Ok wd' →
  ∃ diff : gmap Z ndarray,
    c_s_diff (co wd') = push_window (m_accel P `min` c_k c) diff (c_s_diff c) ∧
    ∀ key, key ∈ dom (var_all P) →
      ∃ zo zn, c_z c !! key = Some zo ∧ z_new !! key = Some zn ∧
        diff !! key = Some (sub zo zn).
Proof.
  intros H. unfold round_accel, for_keys in H.
  apply bind_Ok in H as (y_hist & _ & H).
  apply bind_Ok in H as (_ & _ & H).
  apply bind_Ok in H as ([diff s_res] & Hd & H).
  apply bind_Ok in H as (s_res' & _ & H).
  apply bind_Ok in H as (v_res & _ & H).
  apply bind_Ok in H as (resid & _ & H).
  apply bind_Ok in H as (s & _ & H). injection H as <-. cbn.
  exists diff. split; [done|]. intros key0 Hk0.
  refine (foldM_prefix_inv
    (fun pre (acc : gmap Z ndarray * list (list float)) =>
       ∀ key, key ∈ pre →
         ∃ zo zn, c_z c !! key = Some zo ∧ z_new !! key = Some zn ∧
           acc.1 !! key = Some (sub zo zn)) _ _ _ _ Hd _ _ key0 _).
  - intros key Hin. by apply elem_of_nil in Hin.
  - intros pre key post [d0 r0] a1 Hl Hi Hb. cbn [fst snd] in *.
    apply bind_Ok in Hb as (zo & Hzo%getitem_ok & Hb).
    apply bind_Ok in Hb as (zn & Hzn%getitem_ok & Hb). injection Hb as <-.
    cbn [fst snd]. intros key' Hin.
    destruct (decide (key' = key)) as [->|Hne].
    + rewrite lookup_insert_eq. by exists zo, zn.
    + rewrite lookup_insert_ne by done. apply Hi. set_solver.
  - rewrite <-keys_dom in Hk0. by apply elem_of_list_to_set in Hk0.
Qed.

(** X10.  In an accelerated run the coordinator's window holds the
    residuals [z - z_new] of the most recent rounds, oldest first: after
    [n] rounds it has [min(m_accel, n - 1) + 1] entries (none when
    [n = 0]), and entry [j] is the residual of round
    [n - length + j]. *)
Theorem window_holds_last_rounds p_list max_iter eps m (n : nat) wd :
  after_rounds n (run_params p_list max_iter eps true m)
    (initial_world p_list max_iter) = Ok wd →
  length (c_s_diff (co wd)) = window_len (Z.to_nat m) n ∧
  ∀ j d, c_s_diff (co wd) !! j = Some d →
    ∃ wj wj',
      after_rounds (n - length (c_s_diff (co wd)) + j)
        (run_params p_list max_iter eps true m)
        (initial_world p_list max_iter) = Ok wj ∧
      round (run_params p_list max_iter eps true m) wj = Ok wj' ∧
      ∀ key, key ∈ dom (all_variables p_list) →
        ∃ zo zn, c_z (co wj) !! key = Some zo ∧
          c_z (co wj') !! key = Some zn ∧ d !! key = Some (sub zo zn).
Proof.
  set (P := run_params p_list max_iter eps true m).
  intros Ha. split.
  { pose proof (after_rounds_windows P n 0 _ wd eq_refl
                  (initial_windows p_list max_iter _) Ha) as (_ & Hl & _).
    exact Hl. }
  assert ((length (c_s_diff (co wd)) ≤ n)%nat ∧
          ∀ j d, c_s_diff (co wd) !! j = Some d →
            ∃ wj wj',
              after_rounds (n - length (c_s_diff (co wd)) + j) P
                (initial_world p_list max_iter) = Ok wj ∧
              round P wj = Ok wj' ∧
              ∀ key, key ∈ dom (all_variables p_list) →
                ∃ zo zn, c_z (co wj) !! key = Some zo ∧
                  c_z (co wj') !! key = Some zn ∧
                  d !! key = Some (sub zo zn)) as [_ H]; [|exact H].
  revert wd Ha. induction n as [|n IH]; intros wd Ha.
  - cbn in Ha. injection Ha as <-. cbn. split; [lia|]. intros j d Hj. done.
  - apply after_rounds_last in Ha as (wd1 & Ha1 & Hr).
    destruct (IH wd1 Ha1) as [Hlen1 Hall1].
    pose proof Hr as (halves & mt & zn & _ & _ & H)%round_inv.
    cbn [anderson P run_params] in H.
    pose proof (round_accel_inv _ _ _ _ _ _ H) as (Hz & _).
    apply round_accel_window in H as (diff & Hw & Hdiff).
    set (W1 := c_s_diff (co wd1)) in *.
    assert (∀ key, key ∈ dom (all_variables p_list) →
              ∃ zo zn', c_z (co wd1) !! key = Some zo ∧
                c_z (co wd) !! key = Some zn' ∧
                diff !! key = Some (sub zo zn')) as Hnew.
    { intros key Hk. rewrite Hz. by apply Hdiff. }
    unfold push_window in Hw. rewrite length_app in Hw. cbn in Hw.
    destruct (decide _) as [Hfull|Hroom].
    + assert (length (c_s_diff (co wd)) = length W1) as Hlen.
      { rewrite Hw, length_drop, length_app. cbn. lia. }
      split; [lia|]. intros j d Hj. rewrite Hw, lookup_drop in Hj.
      destruct (decide (1 + j < length W1)%nat) as [Hlt|Hge].
      * rewrite lookup_app_l in Hj by done.
        destruct (Hall1 _ _ Hj) as (wj & wj' & Hwj & ?).
        exists wj, wj'. split; [|done]. rewrite <-Hwj. f_equal. lia.
      * apply lookup_lt_Some in Hj as Hb. rewrite length_app in Hb.
        cbn in Hb. rewrite lookup_app_r in Hj by lia.
        replace (1 + j - length W1)%nat with 0%nat in Hj by lia.
        cbn in Hj. injection Hj as <-.
        exists wd1, wd. split; [|done]. rewrite <-Ha1. f_equal. lia.
    + assert (length (c_s_diff (co wd)) = S (length W1)) as Hlen.
      { rewrite Hw, length_app. cbn. lia. }
      split; [lia|]. intros j d Hj. rewrite Hw in Hj.
      destruct (decide (j < length W1)%nat) as [Hlt|Hge].
      * rewrite lookup_app_l in Hj by done.
        destruct (Hall1 _ _ Hj) as (wj & wj' & Hwj & ?).
        exists wj, wj'. split; [|done]. rewrite <-Hwj. f_equal. lia.
      * apply lookup_lt_Some in Hj as Hb. rewrite length_app in Hb.
        cbn in Hb. rewrite lookup_app_r in Hj by lia.
        replace (j - length W1)%nat with 0%nat in Hj by lia.
        cbn in Hj. injection Hj as <-.
        exists wd1, wd. split; [|done]. rewrite <-Ha1. f_equal. lia.
Qed.
End WindowContents.

(** ** The weights of an accelerated round *)

Section Weights.
Context `{NP : Numpy} `{EX : !External}.

Implicit Types (P : params) (c : coord) (wd : world).

Lemma round_accel_full P c z_new mat_term halves' wd' :
  round_accel P c z_new mat_term halves' = Ok wd' →
  ∃ y_hist,
    recv_all (fun _ '(w, x_half) =>
                worker_accel_send (m_accel P) (c_k c) mat_term z_new x_half w)
      0 (Some <$> halves') = Ok y_hist ∧
    nodes wd'
      = settle (worker_accel_recv (m_accel P) (c_k c)
                  (aa_weights (y_hist.*2.*1 ++ [c_s_diff (co wd')])))
          (Some <$> y_hist.*1) ∧
    ∀ key, key ∈ dom (var_all P) →
      ∃ val,
        weighted (m_accel P `min` c_k c)
          (aa_weights (y_hist.*2.*1 ++ [c_s_diff (co wd')]))
          (c_s_diff (co wd')) key = Ok val ∧
        c_s (co wd') !! key = Some val.
Proof.
  intros H. unfold round_accel, for_keys in H.
  apply bind_Ok in H as (y_hist & Hy & H).
  apply bind_Ok in H as (_ & _ & H).
  apply bind_Ok in H as ([diff s_res] & _ & H).
  apply bind_Ok in H as (s_res' & _ & H).
  apply bind_Ok in H as (v_res & _ & H).
  apply bind_Ok in H as (resid & _ & H).
  apply bind_Ok in H as (s & Hs & H). injection H as <-. cbn.
  exists y_hist. split; [done|]. split; [done|].
  set (s_diff := push_window (m_accel P `min` c_k c) diff (c_s_diff c)) in *.
  set (alpha := aa_weights (y_hist.*2.*1 ++ [s_diff])) in *.
  intros key Hk.
  refine (foldM_prefix_inv
    (fun pre (acc : gmap Z ndarray) =>
       ∀ key, key ∈ pre →
         ∃ val, weighted (m_accel P `min` c_k c) alpha s_diff key = Ok val ∧
           acc !! key = Some val)
    _ _ _ _ Hs _ _ key _).
  - intros ? Hin. by apply elem_of_nil in Hin.
  - intros pre key0 post s0 a1 Hl Hi Hb.
    apply bind_Ok in Hb as (val & Hval & Hb). injection Hb as <-.
    intros key' Hin. destruct (decide (key' = key0)) as [->|Hne].
    + rewrite lookup_insert_eq. eauto.
    + rewrite lookup_insert_ne by done. apply Hi. set_solver.
  - rewrite <-keys_dom in Hk. by apply elem_of_list_to_set in Hk.
Qed.

(** The weighted sum reads the weights [alpha[0]] to [alpha[m_k]]. *)
Lemma weighted_needs m_k alpha (hist : list (gmap Z ndarray)) key val :
  weighted m_k alpha hist key = Ok val → (m_k + 1 ≤ length alpha)%nat.
Proof.
  unfold weighted. intros H.
  apply bind_Ok in H as (d0 & _ & H). apply bind_Ok in H as (a0 & _ & H).
  assert (∀ j, j ∈ seq 0 (m_k + 1) → (j < length alpha)%nat) as Hall.
  { refine (foldM_prefix_inv
      (fun pre (_ : ndarray) => ∀ j, j ∈ pre → (j < length alpha)%nat)
      _ _ _ _ H _ _).
    - intros j Hin. by apply elem_of_nil in Hin.
    - intros pre j post acc a1 _ Hi Hb.
      apply bind_Ok in Hb as (a & Ha%index_ok & _).
      apply lookup_lt_Some in Ha.
      intros j' [Hin| ->%list_elem_of_singleton]%elem_of_app; [|done].
      by apply Hi. }
  specialize (Hall m_k). rewrite elem_of_seq in Hall. lia.
Qed.

Lemma settle_length {A} (step : A → res A) (ws : list (option A)) :
  length (settle step ws) = length ws.
Proof. unfold settle. by rewrite length_fmap. Qed.

(** X11.  The weights of an accelerated round.  When a round leaves every
    worker alive, the weights that all of them and the coordinator used
    are the mixer's answer to the windows as they stand at the end of the
    round: the workers' windows in node order, then the coordinator's.
    Every dual [y] and every [s] is the weighted sum of its own window
    under these same weights, and (when there is a variable at all) the
    mixer returned at least [min(m_accel, k) + 1] of them: with fewer,
    the round does not complete. *)
Theorem accel_round_weights P wd wd' (ws' : list worker) :
  anderson P = true → round P wd = Ok wd' →
  nodes wd' = Some <$> ws' →
  (∀ key, key ∈ dom (var_all P) →
     ∃ val,
       weighted (m_accel P `min` c_k (co wd))
         (aa_weights ((w_y_diff <$> ws') ++ [c_s_diff (co wd')]))
         (c_s_diff (co wd')) key = Ok val ∧
       c_s (co wd') !! key = Some val) ∧
  (∀ i w' key r', ws' !! i = Some w' → w_v w' !! key = Some r' →
     weighted (m_accel P `min` c_k (co wd))
       (aa_weights ((w_y_diff <$> ws') ++ [c_s_diff (co wd')]))
       (w_y_diff w') key = Ok (var_y r')) ∧
  (dom (var_all P) ≠ ∅ →
   (m_accel P `min` c_k (co wd) + 1
    ≤ length (aa_weights ((w_y_diff <$> ws') ++ [c_s_diff (co wd')])))%nat).
Proof.
  intros Hand (halves & mt & zn & _ & _ & H)%round_inv Hn.
  rewrite Hand in H.
  apply round_accel_full in H as (y_hist & Hy & Hnodes & Hs).
  rewrite Hn in Hnodes.
  assert (∀ i w', ws' !! i = Some w' →
            ∃ w1 yr, y_hist !! i = Some (w1, (w_y_diff w', yr)) ∧
              worker_accel_recv (m_accel P) (c_k (co wd))
                (aa_weights (y_hist.*2.*1 ++ [c_s_diff (co wd')])) w1
              = Ok w') as Hlive.
  { intros i w' Hw'.
    assert (settle (worker_accel_recv (m_accel P) (c_k (co wd))
                      (aa_weights (y_hist.*2.*1 ++ [c_s_diff (co wd')])))
              (Some <$> y_hist.*1) !! i = Some (Some w')) as Hset.
    { by rewrite <-Hnodes, list_lookup_fmap, Hw'. }
    apply settle_lookup in Hset as (w1 & Hw1 & Hrecv).
    rewrite !list_lookup_fmap in Hw1.
    destruct (y_hist !! i) as [[w1' [yd yr]]|] eqn:Hb; [|done].
    cbn in Hw1. injection Hw1 as ->.
    apply recv_all_inv in Hy as [_ Hy].
    destruct (Hy i _ Hb) as ([w0 xh] & _ & Hsend).
    apply worker_accel_send_values in Hsend as (_ & -> & _).
    pose proof (worker_accel_recv_values _ _ _ _ _ Hrecv) as (<- & _).
    exists w1, yr. done. }
  assert (w_y_diff <$> ws' = y_hist.*2.*1) as Hwin.
  { apply list_eq_same_length with (length ws').
    - rewrite !length_fmap.
      apply (f_equal length) in Hnodes.
      rewrite settle_length, !length_fmap in Hnodes. done.
    - by rewrite length_fmap.
    - intros i yd yd' Hi Hyd Hyd'. rewrite list_lookup_fmap in Hyd.
      destruct (ws' !! i) as [w'|] eqn:Hw'; [|done].
      cbn in Hyd. injection Hyd as <-.
      destruct (Hlive i w' Hw') as (w1 & yr & Hb & _).
      rewrite !list_lookup_fmap, Hb in Hyd'. cbn in Hyd'.
      by injection Hyd' as <-. }
  rewrite Hwin. split; [exact Hs|]. split.
  - intros i w' key r' Hw' Hr'.
    destruct (Hlive i w' Hw') as (w1 & yr & Hb & Hrecv).
    apply worker_accel_recv_values in Hrecv as (Hwd & Hnone & Hv).
    destruct (w_v w1 !! key) as [r|] eqn:Hk.
    2:{ rewrite (Hnone key Hk) in Hr'. done. }
    destruct (Hv key r Hk) as (val & Hval & Hw2).
    rewrite Hr' in Hw2. injection Hw2 as ->. cbn. by rewrite Hwd.
  - intros Hne. apply set_choose_L in Hne as [key Hk].
    destruct (Hs key Hk) as (val & Hval & _).
    by eapply weighted_needs.
Qed.
End Weights.

(** ** Problems without variables *)

Section EdgeRuns.
Context `{NP : Numpy} `{EX : !External}.

Implicit Types (P : params) (p_list : list (gmap Z shape)).

(** The first round up to the branch: all half-steps arrive and the
    projection returns. *)
Lemma first_round p_list max_iter eps a m :
  solves_fine →
  ∃ (halves' : list (worker * gmap Z ndarray)) mat_term z_new,
    round (run_params p_list max_iter eps a m) (initial_world p_list max_iter)
      = (if a
         then round_accel (run_params p_list max_iter eps a m)
                (co (initial_world p_list max_iter)) z_new mat_term halves'
         else round_plain (run_params p_list max_iter eps a m)
                (co (initial_world p_list max_iter)) z_new mat_term halves') ∧
    length halves' = length p_list ∧
    (∀ n h', halves' !! n = Some h' →
       ∃ p, p_list !! n = Some p ∧ w_v h'.1 = prox_step p ∧
         dom h'.2 = dom p) ∧
    dom mat_term = dom (all_variables p_list) ∧
    dom z_new = dom (all_variables p_list).
Proof.
  intros Hfine. unfold round. rewrite initial_nodes.
  destruct (gather_ok (c_k (co (initial_world p_list max_iter)))
              (initial_workers p_list) Hfine) as (halves & -> & Hlen & Hh).
  rewrite bind_of_Ok.
  destruct (gathered_reports _ _ _ Hlen Hh) as (Hrep & _ & Hst).
  destruct (w_project_returns ((fun h => h.2.1) <$> halves)
              (projection_baseline (co (initial_world p_list max_iter))))
    as (mt & zn & Hw).
  { by apply Hst. }
  { rewrite Hrep, initial_workers_doms. unfold projection_baseline. cbn.
    by rewrite dom_fmap_L, all_variables_dom. }
  rewrite Hw, bind_of_Ok. cbn [anderson run_params].
  apply w_project_ok in Hw as (_ & _ & Hmt & Hzn).
  unfold projection_baseline in Hmt, Hzn. cbn in Hmt, Hzn.
  rewrite dom_fmap_L in Hmt, Hzn.
  exists ((fun h => (h.1, h.2.2)) <$> halves), mt, zn.
  split_and!; [done| |  |done|done].
  - rewrite length_fmap, Hlen. unfold initial_workers. by rewrite length_fmap.
  - intros n h' Hn. rewrite list_lookup_fmap in Hn.
    destruct (halves !! n) as [h|] eqn:Hhn; [|done].
    cbn in Hn. injection Hn as <-. cbn [fst snd].
    destruct (Hh n h Hhn) as [Hw0 Hhalf].
    unfold initial_workers in Hw0. rewrite list_lookup_fmap in Hw0.
    destruct (p_list !! n) as [p|]; [|done].
    cbn in Hw0. injection Hw0 as Hw0. exists p. rewrite <-Hw0.
    split_and!; [done|done|].
    destruct h as [w [[st y] x]]. cbn [fst snd] in *. symmetry in Hhalf.
    apply worker_half_dom in Hhalf as (_ & _ & ->).
    by rewrite <-Hw0; cbn; rewrite prox_step_dom.
Qed.

(** X12.  When the last problem of the list has no variables (and, without
    acceleration, some other problem has one), the call never returns.
    The worker of that problem dies on [np.concatenate] of an empty
    list; the coordinator, which still holds the far end of that
    worker's pipe, waits for its message forever, and no worker is
    terminated. *)
Theorem last_node_empty_blocks ps max_iter eps a m :
  0 ≤ m → 0 ≤ max_iter →
  Forall (fun p => p ≠ ∅) ps → (a = false → ps ≠ []) →
  solves_fine →
  consensus (ps ++ [∅]) max_iter eps a m
    = (Blocked, replicate (length (ps ++ [∅])) Started).
Proof.
  intros Hm Hmax Hall Hne Hfine. apply consensus_first_block; [done|done|].
  destruct (first_round (ps ++ [∅]) max_iter eps a m Hfine)
    as (halves' & mt & zn & -> & Hlen & Hh & Hmt & Hzn).
  rewrite length_app in Hlen. cbn in Hlen.
  assert (is_Some (halves' !! length ps)) as [h' Hhi].
  { apply lookup_lt_is_Some. lia. }
  assert (dom (w_v h'.1) = ∅) as Hempty.
  { destruct (Hh _ h' Hhi) as (p & Hp & Hv & _).
    rewrite lookup_app_r, Nat.sub_diag in Hp by done.
    injection Hp as <-. by rewrite Hv, prox_step_dom, dom_empty_L. }
  assert (∀ j, (j < length ps)%nat →
            ∃ hj, halves' !! j = Some hj ∧ dom (w_v hj.1) ≠ ∅ ∧
              dom (w_v hj.1) ⊆ dom mt ∧ dom (w_v hj.1) ⊆ dom zn ∧
              dom (w_v hj.1) ⊆ dom hj.2) as Hearly.
  { intros j Hj. assert (is_Some (halves' !! j)) as [hj Hhj].
    { apply lookup_lt_is_Some. lia. }
    destruct (Hh _ hj Hhj) as (p & Hp & Hv & Hx).
    rewrite lookup_app_l in Hp by done.
    assert (p ≠ ∅) as Hpne.
    { rewrite Forall_forall in Hall. apply Hall.
      by eapply list_elem_of_lookup_2. }
    assert (dom p ⊆ dom (all_variables (ps ++ [∅]))) as Hsub.
    { rewrite all_variables_dom. intros key Hkey.
      apply elem_of_union_list. exists (dom p). split; [|done].
      apply list_elem_of_fmap. exists p. split; [done|].
      apply elem_of_app. left. by eapply list_elem_of_lookup_2. }
    exists hj. rewrite Hv, prox_step_dom, Hmt, Hzn, Hx.
    split_and!; [done| |done|done|done].
    intros Hd. by apply dom_empty_iff_L in Hd. }
  destruct a.
  - unfold round_accel.
    match goal with |- context [recv_all ?st 0 ?l] =>
      destruct (recv_all_dead st 0 l (length ps) (Some h'))
        as (_ & _ & Hb)
    end.
    { by rewrite list_lookup_fmap, Hhi. }
    { intros [w xh] [= ->] [w1 [yd yr]] Hs.
      apply worker_accel_send_values in Hs as (Hd & _). by apply Hd. }
    rewrite Hb; [done| |rewrite length_fmap; lia].
    intros j Hj. destruct (Hearly j Hj) as ([w xh] & Hhj & ? & ? & ? & ?).
    cbn [fst snd] in *.
    destruct (worker_accel_send_returns
                (m_accel (run_params (ps ++ [∅]) max_iter eps true m))
                (c_k (co (initial_world (ps ++ [∅]) max_iter))) mt zn xh w)
      as (w' & diff & y_res & Hs & _); [done..|].
    exists (w, xh). eexists. split; [by rewrite list_lookup_fmap, Hhj|].
    exact Hs.
  - unfold round_plain, for_keys.
    match goal with |- context [foldM ?ff ?ll ?aa] =>
      destruct (foldM_prefix_ok
        (fun pre (acc : gmap Z ndarray * list (list float)) =>
           length acc.2 = length pre) ff ll aa)
        as ([s s_res] & -> & Hlens)
    end.
    { done. }
    { intros pre key post [s s_res] Hl Hlens. cbn [fst snd] in *.
      apply keys_split in Hl as (Hk & _ & _).
      destruct (getitem_dom zn key) as (zn' & -> & _); [by rewrite Hzn|].
      rewrite bind_of_Ok.
      destruct (getitem_dom (c_z (co (initial_world (ps ++ [∅]) max_iter)))
                  key) as (zo & -> & _); [cbn; by rewrite dom_fmap_L|].
      rewrite bind_of_Ok. eexists. split; [done|]. cbn.
      rewrite !length_app. cbn. lia. }
    cbn [fst snd] in Hlens. rewrite bind_of_Ok, concatenate_ok, bind_of_Ok.
    2:{ intros ->. specialize (Hne eq_refl).
        destruct ps as [|p ps]; [done|].
        destruct (Hearly 0%nat) as (hj & _ & Hd & Hsub & _); [cbn; lia|].
        assert (dom (all_variables ((p :: ps) ++ [∅])) ≠ ∅) as Hdne.
        { rewrite <-Hmt. set_solver. }
        apply keys_nonempty in Hdne. cbn in Hlens.
        cbn [var_all run_params] in Hlens. destruct (_.*1); done. }
    match goal with |- context [recv_all ?st 0 ?l] =>
      destruct (recv_all_dead st 0 l (length ps) (Some h'))
        as (_ & _ & Hb)
    end.
    { by rewrite list_lookup_fmap, Hhi. }
    { intros [w xh] [= ->] [w1 yr] Hs.
      apply worker_plain_values in Hs as (Hd & _). by apply Hd. }
    rewrite Hb; [done| |rewrite length_fmap; lia].
    intros j Hj. destruct (Hearly j Hj) as ([w xh] & Hhj & ? & ? & ? & ?).
    cbn [fst snd] in *.
    destruct (worker_plain_returns mt zn xh w)
      as (w' & y_res & Hs & _); [done..|].
    exists (w, xh). eexists. split; [by rewrite list_lookup_fmap, Hhj|].
    exact Hs.
Qed.

(** X13.  When no problem has a variable, the coordinator itself fails in
    the first round, with every worker still running.  Without
    acceleration it raises the [ValueError] of [np.concatenate] on an
    empty list; with acceleration and an empty problem list it raises
    the [ValueError] of unpacking the empty [zip]. *)
Theorem no_variables_raises p_list max_iter eps a m :
  0 ≤ m → 0 ≤ max_iter →
  all_variables p_list = ∅ → (a = true → p_list = []) →
  solves_fine →
  consensus p_list max_iter eps a m
    = (Raised (if a then ValueError_unpack else ValueError_concatenate),
       replicate (length p_list) Started).
Proof.
  intros Hm Hmax Hv Ha Hfine. unfold consensus.
  rewrite !decide_False by lia.
  rewrite (loop_raise _ _ _
             (if a then ValueError_unpack else ValueError_concatenate));
    [done|].
  destruct (first_round p_list max_iter eps a m Hfine)
    as (halves' & mt & zn & -> & Hlen & _).
  destruct a.
  - rewrite (Ha eq_refl) in Hlen. destruct halves'; [|done].
    unfold round_accel. done.
  - unfold round_plain, for_keys. cbn [var_all run_params].
    rewrite Hv, map_to_list_empty. done.
Qed.
End EdgeRuns.


(** ** The test helpers *)

Section TestHelperFacts.
Context `{NP : Numpy}.
Variable almost : nat → float → float → bool.
Variable flatten_F : ndarray → list float.

Lemma items_loop_spec places (a b : list float) (i0 n : nat) :
  (i0 + n ≤ length a)%nat → (i0 ≤ length b)%nat →
  match items_loop almost places a b i0 n with
  | Passed =>
      (i0 + n ≤ length b)%nat ∧
      ∀ i x y, (i0 ≤ i < i0 + n)%nat → a !! i = Some x → b !! i = Some y →
        almost places x y = true
  | AssertionError i =>
      (i0 ≤ i < i0 + n)%nat ∧
      (∃ x y, a !! i = Some x ∧ b !! i = Some y ∧ almost places x y = false) ∧
      ∀ j x y, (i0 ≤ j < i)%nat → a !! j = Some x → b !! j = Some y →
        almost places x y = true
  | Errored e =>
      e = IndexError ∧ (length b < i0 + n)%nat ∧
      ∀ j x y, (i0 ≤ j)%nat → a !! j = Some x → b !! j = Some y →
        almost places x y = true
  end.
Proof.
  revert i0. induction n as [|n IH]; intros i0 Ha Hb; cbn [items_loop].
  - split; [lia|]. intros; lia.
  - destruct (a !! i0) as [x|] eqn:Hx.
    2:{ apply lookup_ge_None in Hx. lia. }
    destruct (b !! i0) as [y|] eqn:Hy.
    + destruct (almost places x y) eqn:Hxy.
      * apply lookup_lt_Some in Hy as Hlt.
        specialize (IH (S i0)).
        destruct (items_loop almost places a b (S i0) n) as [|i|e].
        -- destruct IH as [Hle Hall]; [lia..|]. split; [lia|].
           intros i x' y' Hi Hx' Hy'.
           destruct (decide (i = i0)) as [->|Hne]; [congruence|].
           eapply Hall; [|done..]. lia.
        -- destruct IH as (Hi & Hex & Hall); [lia..|].
           split; [lia|]. split; [done|].
           intros j x' y' Hj Hx' Hy'.
           destruct (decide (j = i0)) as [->|Hne]; [congruence|].
           eapply Hall; [|done..]. lia.
        -- destruct IH as (-> & Hlen & Hall); [lia..|].
           split_and!; [done|lia|].
           intros j x' y' Hj Hx' Hy'.
           destruct (decide (j = i0)) as [->|Hne]; [congruence|].
           eapply Hall; [|done..]. lia.
      * split; [lia|]. split; [by exists x, y|]. intros; lia.
    + apply lookup_ge_None in Hy. split_and!; [done|lia|].
      intros j x' y' Hj Hx' Hy'. apply lookup_lt_Some in Hy'. lia.
Qed.

(** X17.  What the list comparison of the tests decides.  It passes exactly
    when [b] has at least as many items as [a] and the items of [a] are
    almost equal to the items of [b] at the same places: the items of
    [b] beyond the length of [a] are never looked at, and an empty [a]
    passes against anything.  A [b] that is too short and agrees as far
    as it goes ends in [IndexError], not in a test failure; otherwise the
    first differing index fails the assertion. *)
Theorem assertItemsAlmostEqual_outcome (a b : items) (places : nat) :
  match assertItemsAlmostEqual almost flatten_F a b places with
  | Passed =>
      (length (as_list flatten_F a) ≤ length (as_list flatten_F b))%nat ∧
      ∀ i x y, as_list flatten_F a !! i = Some x →
        as_list flatten_F b !! i = Some y → almost places x y = true
  | AssertionError i =>
      (∃ x y, as_list flatten_F a !! i = Some x ∧
         as_list flatten_F b !! i = Some y ∧ almost places x y = false) ∧
      ∀ j x y, (j < i)%nat → as_list flatten_F a !! j = Some x →
        as_list flatten_F b !! j = Some y → almost places x y = true
  | Errored e =>
      e = IndexError ∧
      (length (as_list flatten_F b) < length (as_list flatten_F a))%nat ∧
      ∀ j x y, as_list flatten_F a !! j = Some x →
        as_list flatten_F b !! j = Some y → almost places x y = true
  end.
Proof.
  unfold assertItemsAlmostEqual.
  pose proof (items_loop_spec places (as_list flatten_F a)
                (as_list flatten_F b) 0 (length (as_list flatten_F a))) as H.
  destruct (items_loop _ _ _ _ _ _) as [|i|e].
  - destruct H as [Hle Hall]; [lia..|]. split; [lia|].
    intros i x y Hx Hy. eapply Hall; [|done..].
    apply lookup_lt_Some in Hx. lia.
  - destruct H as (_ & Hex & Hall); [lia..|]. split; [done|].
    intros j x y Hj. apply Hall. lia.
  - destruct H as (-> & Hlen & Hall); [lia..|]. split_and!; [done|lia|].
    intros j x y. apply Hall. lia.
Qed.
End TestHelperFacts.

(** ** An infeasible solve at any round *)

Section LateFailure.
Context `{NP : Numpy} `{EX : !External}.

Implicit Types (P : params) (wd : world) (p_list : list (gmap Z shape)).

Lemma after_rounds_first n P wd0 wd :
  after_rounds (S n) P wd0 = Ok wd →
  ∃ wd1, round P wd0 = Ok wd1 ∧ after_rounds n P wd1 = Ok wd.
Proof. cbn [after_rounds]. intros H. by apply bind_Ok in H. Qed.

Lemma after_rounds_count n P wd0 wd :
  after_rounds n P wd0 = Ok wd → c_k (co wd) = (c_k (co wd0) + n)%nat.
Proof.
  revert wd0. induction n as [|n IH]; intros wd0 Ha.
  - cbn in Ha. injection Ha as <-. lia.
  - apply after_rounds_first in Ha as (wd1 & Hr & Ha).
    apply round_facts in Hr as (Hk & _). rewrite (IH _ Ha), Hk. lia.
Qed.

(** The loop goes through the rounds after which its test is false. *)
Lemma loop_after_rounds P k fuel wd0 wd :
  after_rounds k P wd0 = Ok wd →
  (∀ j wj, (1 ≤ j ≤ k)%nat → after_rounds j P wd0 = Ok wj →
     finished P (co wj) = Ok false) →
  loop (k + fuel) P wd0 = loop fuel P wd.
Proof.
  revert wd0. induction k as [|k IH]; intros wd0 Ha Hfin.
  - cbn in Ha. by injection Ha as <-.
  - apply after_rounds_first in Ha as (wd1 & Hr & Ha).
    cbn [Nat.add]. rewrite loop_unfold, Hr.
    rewrite (Hfin 1%nat wd1); [|lia|].
    2:{ cbn [after_rounds]. by rewrite Hr, bind_of_Ok. }
    apply IH; [done|]. intros j wj Hj Hwj. apply (Hfin (S j)); [lia|].
    cbn [after_rounds]. by rewrite Hr, bind_of_Ok.
Qed.

(** X18.  An infeasible or unbounded status at any round, not only the
    first, ends the call without a result and without the
    [RuntimeError] of the projection.  When the loop has gone through [k]
    rounds without its test becoming true and the solve of a live node
    that has a variable reports such a status in round [k], that worker
    dies before it sends, and the entry point ends in [EOFError] or
    waits without end; no worker has been terminated. *)
Theorem infeasible_at_any_round p_list max_iter eps a m (k : nat) wd i w :
  0 ≤ m → 0 ≤ max_iter →
  after_rounds k (run_params p_list max_iter eps a m)
    (initial_world p_list max_iter) = Ok wd →
  (∀ j wj, (1 ≤ j ≤ k)%nat →
     after_rounds j (run_params p_list max_iter eps a m)
       (initial_world p_list max_iter) = Ok wj →
     finished (run_params p_list max_iter eps a m) (co wj) = Ok false) →
  nodes wd !! i = Some (Some w) → dom (w_v w) ≠ ∅ →
  INF_OR_UNB (solve i k (w_v w)).1 = true →
  consensus p_list max_iter eps a m
    = (Raised EOFError, replicate (length p_list) Started) ∨
  consensus p_list max_iter eps a m
    = (Blocked, replicate (length p_list) Started).
Proof.
  intros Hm Hmax Ha Hfin Hw Hne Hbad.
  set (P := run_params p_list max_iter eps a m) in *.
  pose proof (after_rounds_count _ _ _ _ Ha) as Hk. cbn in Hk.
  assert (k ≤ Z.to_nat max_iter)%nat as Hle.
  { destruct k as [|k]; [lia|].
    specialize (Hfin (S k) wd ltac:(lia) Ha). unfold finished in Hfin.
    destruct (decide _) as [|Hn]; [done|]. cbn in Hn. lia. }
  unfold consensus. rewrite !decide_False by lia. fold P.
  replace (Z.to_nat max_iter) with (k + (Z.to_nat max_iter - k))%nat by lia.
  rewrite (loop_after_rounds P k _ _ wd Ha Hfin).
  destruct (round_dead P wd i (Some w) Hw) as ([Hd|Hd] & _).
  { intros w' [= <-] b Hs. rewrite Hk in Hs.
    by rewrite gather_step_dies in Hs. }
  - left. by rewrite (loop_raise _ _ _ EOFError).
  - right. by rewrite loop_block.
Qed.
End LateFailure.

(** ** Concrete instances *)

Lemma returned_ok3 {A B C} (fallback : A * (B * C)) (r : res (A * (B * C))) :
  is_ok r = true →
  r = Ok ((returned fallback r).1,
          ((returned fallback r).2.1, (returned fallback r).2.2)).
Proof. by destruct r as [[a [b c]]| |]. Qed.

Lemma lone_sent_ok :
  worker_accel_send 0 0 lone_mat_term lone_z_new lone_x_half lone_worker
    = Ok (lone_sent.1, (lone_sent.2.1, lone_sent.2.2)).
Proof.
  apply (returned_ok3 (lone_worker, ([], []))). vm_compute; reflexivity.
Qed.

Lemma lone_mixed_ok :
  worker_accel_recv 0 0 [1%Q] lone_sent.1 = Ok lone_mixed.
Proof. apply returned_ok. vm_compute; reflexivity. Qed.

Lemma worker_accel_spec_witness :
  lone_sent.2.1 = w_y_diff lone_mixed ∧
  dom (w_v lone_mixed) = dom (w_v lone_worker) ∧
  ∃ diff,
    w_y_diff lone_mixed = push_window (0 `min` 0) diff (w_y_diff lone_worker) ∧
    dom diff = dom (w_v lone_worker) ∧
    ∀ key r, w_v lone_worker !! key = Some r →
      ∃ mt zn xh val, lone_mat_term !! key = Some mt ∧
        lone_z_new !! key = Some zn ∧ lone_x_half !! key = Some xh ∧
        diff !! key = Some (sub xh (add (var_z r) mt)) ∧
        weighted (0 `min` 0) [1%Q] (w_y_diff lone_mixed) key = Ok val ∧
        w_v lone_mixed !! key
          = Some {| var_x := Some (add (var_z r) mt); var_z := zn;
                    var_y := val |}.
Proof.
  apply (worker_accel_spec (NP := numpy_Q) 0 0 lone_mat_term lone_z_new
           lone_x_half [1%Q] lone_worker lone_sent.1 lone_sent.2.1
           lone_sent.2.2 lone_mixed).
  - exact lone_sent_ok.
  - exact lone_mixed_ok.
Defined.

Lemma accel_m0_dual_witness :
  (length (w_y_diff lone_worker) ≤ 1)%nat ∧
  ∀ key r, w_v lone_worker !! key = Some r →
    ∃ mt xh a0, lone_mat_term !! key = Some mt ∧
      lone_x_half !! key = Some xh ∧ [1%Q] !! 0%nat = Some a0 ∧
      var_y <$> w_v lone_mixed !! key
        = Some (add (zeros (shape_of (sub xh (add (var_z r) mt))))
                  (scale a0 (sub xh (add (var_z r) mt)))).
Proof.
  split; [cbn; lia|].
  apply (accel_m0_dual (NP := numpy_Q) 0 lone_mat_term lone_z_new
           lone_x_half [1%Q] lone_worker lone_sent.1 lone_sent.2.1
           lone_sent.2.2 lone_mixed).
  - cbn. lia.
  - exact lone_sent_ok.
  - exact lone_mixed_ok.
Defined.

Lemma w_project_status_blind_witness :
  w_project (NP := numpy_Q) shared_reports shared_baseline
    = w_project failed_reports shared_baseline.
Proof.
  apply (w_project_status_blind (NP := numpy_Q) shared_reports failed_reports
           shared_baseline).
  repeat constructor.
Defined.

Lemma pair_run_returned :
  consensus (EX := two_nodes) [one_var; one_var] 3 eps_default false 5
    = (Returned pair_result, pair_run.2).
Proof. apply (returned_eq no_result pair_run). vm_compute; reflexivity. Qed.

Lemma consensus_returned_shape_witness :
  pair_run.2 = replicate (length [one_var; one_var]) Terminated ∧
  (1 ≤ num_iters pair_result)%nat ∧ Z.of_nat (num_iters pair_result) ≤ 3 ∧
  length (residuals pair_result) = num_iters pair_result ∧
  dom (zvals pair_result) = dom (all_variables [one_var; one_var]) ∧
  stops_at (run_params [one_var; one_var] 3 eps_default false 5)
    (residuals pair_result) (num_iters pair_result) ∧
  ∀ j, (1 ≤ j < num_iters pair_result)%nat →
    ¬ stops_at (run_params [one_var; one_var] 3 eps_default false 5)
        (residuals pair_result) j.
Proof.
  apply (consensus_returned_shape (NP := numpy_Q) (EX := two_nodes)
           [one_var; one_var] 3 eps_default false 5 pair_result pair_run.2).
  exact pair_run_returned.
Defined.

Lemma last_node_empty_blocks_witness :
  consensus (NP := numpy_Q) (EX := two_nodes)
    ([one_var; one_var] ++ [∅]) 3 eps_default false 5
    = (Blocked, replicate (length ([one_var; one_var] ++ [∅])) Started).
Proof.
  apply (last_node_empty_blocks (NP := numpy_Q) (EX := two_nodes)
           [one_var; one_var] 3 eps_default false 5).
  - lia.
  - lia.
  - exact one_var_nonempty.
  - done.
  - intros i k v. reflexivity.
Defined.

Lemma no_variables_raises_witness :
  consensus (NP := numpy_Q) (EX := two_nodes)
    [no_var; no_var] 3 eps_default false 5
    = (Raised ValueError_concatenate,
       replicate (length [no_var; no_var]) Started).
Proof.
  apply (no_variables_raises (NP := numpy_Q) (EX := two_nodes)
           [no_var; no_var] 3 eps_default false 5).
  - lia.
  - lia.
  - vm_compute; reflexivity.
  - done.
  - intros i k v. reflexivity.
Defined.

Lemma node_at_ok `{NP : Numpy} (fallback : worker) (wd : world) (i : nat) :
  is_alive wd i = true → nodes wd !! i = Some (Some (node_at fallback wd i)).
Proof.
  unfold is_alive, node_at. by destruct (nodes wd !! i) as [[w|]|].
Qed.

Lemma plain_round_dual_witness :
  ∃ halves mat_term w' mt zn,
    recv_all (gather_step (EX := two_nodes) (c_k (co first_start))) 0
      (nodes first_start) = Ok halves ∧
    w_project ((fun h => h.2.1) <$> halves) (c_z (co first_start))
      = Ok (mat_term, c_z (co first_plain)) ∧
    mat_term !! 1 = Some mt ∧
    nodes first_plain !! 0%nat = Some (Some w') ∧
    c_z (co first_plain) !! 1 = Some zn ∧
    w_v w' !! 1
      = Some {| var_x := Some (add (var_z fresh_record) mt); var_z := zn;
                var_y := add (var_y fresh_record)
                           (sub (add (var_z fresh_record) mt)
                              ((solve (External := two_nodes) 0
                                  (c_k (co first_start))
                                  (w_v lone_worker)).2 1)) |}.
Proof.
  apply (plain_round_dual (NP := numpy_Q) (EX := two_nodes)
           (run_params (NP := numpy_Q) [one_var; one_var] 1 eps_default
              false 0)
           first_start first_plain 0 lone_worker 1 fresh_record).
  - reflexivity.
  - apply returned_ok. vm_compute; reflexivity.
  - reflexivity.
  - reflexivity.
Defined.

Lemma window_holds_last_rounds_witness :
  length (c_s_diff (co accel_round2)) = window_len (Z.to_nat 1) 3 ∧
  ∀ j d, c_s_diff (co accel_round2) !! j = Some d →
    ∃ wj wj',
      after_rounds (EX := two_nodes)
        (3 - length (c_s_diff (co accel_round2)) + j)
        (run_params [one_var; one_var] 5 eps_default true 1)
        (initial_world [one_var; one_var] 5) = Ok wj ∧
      round (EX := two_nodes)
        (run_params [one_var; one_var] 5 eps_default true 1) wj = Ok wj' ∧
      ∀ key, key ∈ dom (all_variables (NP := numpy_Q) [one_var; one_var]) →
        ∃ zo zn, c_z (co wj) !! key = Some zo ∧
          c_z (co wj') !! key = Some zn ∧ d !! key = Some (sub zo zn).
Proof.
  apply (window_holds_last_rounds (NP := numpy_Q) (EX := two_nodes)
           [one_var; one_var] 5 eps_default 1 3 accel_round2).
  apply returned_ok. vm_compute; reflexivity.
Defined.

Lemma late_round0_ok :
  after_rounds (NP := numpy_Q) (EX := failing_later) 1
    (run_params [one_var; one_var] 3 eps_default false 5)
    (initial_world [one_var; one_var] 3) = Ok late_round0.
Proof. apply returned_ok. vm_compute; reflexivity. Qed.

Lemma infeasible_at_any_round_witness :
  consensus (NP := numpy_Q) (EX := failing_later)
    [one_var; one_var] 3 eps_default false 5
    = (Raised EOFError, replicate (length [one_var; one_var]) Started) ∨
  consensus (NP := numpy_Q) (EX := failing_later)
    [one_var; one_var] 3 eps_default false 5
    = (Blocked, replicate (length [one_var; one_var]) Started).
Proof.
  apply (infeasible_at_any_round (NP := numpy_Q) (EX := failing_later)
           [one_var; one_var] 3 eps_default false 5 1 late_round0 0
           late_node0).
  - lia.
  - lia.
  - exact late_round0_ok.
  - intros j wj Hj Hwj. assert (j = 1%nat) as -> by lia.
    rewrite late_round0_ok in Hwj. injection Hwj as <-.
    vm_compute; reflexivity.
  - apply node_at_ok. vm_compute; reflexivity.
  - intros H. apply (f_equal (fun X : gset Z => bool_decide (1 ∈ X))) in H.
    vm_compute in H. discriminate.
  - reflexivity.
Defined.

Lemma live_nodes_ok `{NP : Numpy} (wd : world) :
  all_alive wd = true → nodes wd = Some <$> live_nodes wd.
Proof.
  unfold all_alive, live_nodes. induction (nodes wd) as [|[w|] l IH]; cbn.
  - done.
  - intros H. by rewrite <-IH.
  - done.
Qed.

Lemma accel_round_weights_witness :
  (∀ key,
     key ∈ dom (var_all (run_params (NP := numpy_Q) [one_var; one_var] 1
                           eps_default true 0)) →
     ∃ val,
       weighted (0 `min` c_k (co first_start))
         (aa_weights (External := two_nodes)
            ((w_y_diff <$> live_nodes first_accel)
             ++ [c_s_diff (co first_accel)]))
         (c_s_diff (co first_accel)) key = Ok val ∧
       c_s (co first_accel) !! key = Some val) ∧
  (∀ i w' key r', live_nodes first_accel !! i = Some w' →
     w_v w' !! key = Some r' →
     weighted (0 `min` c_k (co first_start))
       (aa_weights (External := two_nodes)
          ((w_y_diff <$> live_nodes first_accel)
           ++ [c_s_diff (co first_accel)]))
       (w_y_diff w') key = Ok (var_y r')) ∧
  (dom (var_all (run_params (NP := numpy_Q) [one_var; one_var] 1
                   eps_default true 0)) ≠ ∅ →
   (0 `min` c_k (co first_start) + 1
    ≤ length (aa_weights (External := two_nodes)
                ((w_y_diff <$> live_nodes first_accel)
                 ++ [c_s_diff (co first_accel)])))%nat).
Proof.
  apply (accel_round_weights (NP := numpy_Q) (EX := two_nodes)
           (run_params (NP := numpy_Q) [one_var; one_var] 1 eps_default
              true 0)
           first_start first_accel (live_nodes first_accel)).
  - reflexivity.
  - apply returned_ok. vm_compute; reflexivity.
  - apply live_nodes_ok. vm_compute; reflexivity.
Defined.
